(** * testy: a facade around Go's testing.T

    A shallow embedding of [testy.go] (package [testy]) and the properties
    of its facade handle [T] and its shared [accumulator].

    Layout of the embedding:
    - Go strings are [string] (sequences of bytes); the functions of Go's
      [strings] package the source calls are modelled in [Module strings];
    - Go's [int] is [Z] with the wrap-around of a 64-bit word written out
      (the size of [int] on 64-bit targets);
    - values of type [interface{}] are left abstract behind the class
      [GoEnv], which collects what the source asks of Go's [reflect], [fmt],
      [strconv] and of the runtime's slice growth; [value_env] instantiates
      it on a fragment of Go's values, to run the program;
    - the heap is explicit: cells for [T] structs, for accumulators, for the
      backing arrays of [[]string] slices and for the host's [testing.T];
      a pointer is the index of its cell;
    - methods run in the monad [M], whose outcomes are a normal return, a
      [runtime.Goexit] (what [FailNow] and [SkipNow] of the host do) and a
      run-time panic;
    - [runtime.Caller] is a parameter of the methods that decorate a
      message: the file and line of each frame above [decorate];
    - a call of [fmt.Sprintf] or [fmt.Fprintf] with a literal format and
      string or [int] operands is written as the concatenation the format
      denotes.
    The [sync.RWMutex] of the accumulator guards concurrent access only; the
    embedding is sequential and leaves it out.  [New], which derives the
    case name from the caller's function name and calls [NewCase], and the
    helpers [True], [False], [Nil] and [NotNil] are not embedded. *)

From Stdlib Require Import ZArith Lia Ascii String.
From stdpp Require Import base list strings pretty.

(** ** Bytes and string constants *)

Definition byte (n : N) : ascii := Ascii.ascii_of_N n.

Definition tab : string := String "009"%char EmptyString.
Definition nl : string := String "010"%char EmptyString.
Definition newline : ascii := "010"%char.
Definition slash : ascii := "/"%char.
Definition backslash : ascii := "\"%char.

(** ** Go's [int] (64 bits, two's complement) *)

Definition int_min : Z := (- 2 ^ 63)%Z.
Definition int_max : Z := (2 ^ 63 - 1)%Z.
Definition wrap (z : Z) : Z := ((z + 2 ^ 63) mod 2 ^ 64 - 2 ^ 63)%Z.
Definition int_add (x y : Z) : Z := wrap (x + y).

(** ** Package [strings] of Go's library, as far as the source calls it *)

Module strings.

(** [strings.Join(elems, sep)]. *)
Definition Join (elems : list string) (sep : string) : string :=
  String.concat sep elems.

(** [strings.Split(s, sep)] for a separator of one byte: the pieces between
    the occurrences of [sep], one more than there are occurrences. *)
Fixpoint Split (s : string) (sep : ascii) : list string :=
  match s with
  | EmptyString => [EmptyString]
  | String c s' =>
      if Ascii.eqb c sep then EmptyString :: Split s' sep
      else match Split s' sep with
           | piece :: pieces => String c piece :: pieces
           | [] => [String c EmptyString]
           end
  end.

Fixpoint lastIndexFrom (i last : Z) (s : string) (sep : ascii) : Z :=
  match s with
  | EmptyString => last
  | String c s' =>
      lastIndexFrom (i + 1) (if Ascii.eqb c sep then i else last) s' sep
  end.

(** [strings.LastIndex(s, sep)] for a separator of one byte: the index of its
    last occurrence, or -1. *)
Definition LastIndex (s : string) (sep : ascii) : Z :=
  lastIndexFrom 0 (-1) s sep.

Fixpoint drop_bytes (n : nat) (s : string) : string :=
  match n, s with
  | O, _ => s
  | S n', String _ s' => drop_bytes n' s'
  | S _, EmptyString => EmptyString
  end.

(** The slice expression [s[lo:]]. *)
Definition from (s : string) (lo : Z) : string := drop_bytes (Z.to_nat lo) s.

(** The encodings in UTF-8 of the runes for which [unicode.IsSpace] holds:
    U+0009..U+000D, U+0020, U+0085, U+00A0, U+1680, U+2000..U+200A, U+2028,
    U+2029, U+202F, U+205F, U+3000. *)
Definition whiteSpace : list (list ascii) :=
  [ [byte 0x09]; [byte 0x0A]; [byte 0x0B]; [byte 0x0C]; [byte 0x0D];
    [byte 0x20];
    [byte 0xC2; byte 0x85]; [byte 0xC2; byte 0xA0];
    [byte 0xE1; byte 0x9A; byte 0x80];
    [byte 0xE2; byte 0x80; byte 0x80]; [byte 0xE2; byte 0x80; byte 0x81];
    [byte 0xE2; byte 0x80; byte 0x82]; [byte 0xE2; byte 0x80; byte 0x83];
    [byte 0xE2; byte 0x80; byte 0x84]; [byte 0xE2; byte 0x80; byte 0x85];
    [byte 0xE2; byte 0x80; byte 0x86]; [byte 0xE2; byte 0x80; byte 0x87];
    [byte 0xE2; byte 0x80; byte 0x88]; [byte 0xE2; byte 0x80; byte 0x89];
    [byte 0xE2; byte 0x80; byte 0x8A];
    [byte 0xE2; byte 0x80; byte 0xA8]; [byte 0xE2; byte 0x80; byte 0xA9];
    [byte 0xE2; byte 0x80; byte 0xAF];
    [byte 0xE2; byte 0x81; byte 0x9F];
    [byte 0xE3; byte 0x80; byte 0x80] ].

(** [Some rest] when [s] is [p] followed by [rest]. *)
Fixpoint strip_prefix (p s : list ascii) : option (list ascii) :=
  match p, s with
  | [], _ => Some s
  | a :: p', c :: s' => if Ascii.eqb a c then strip_prefix p' s' else None
  | _ :: _, [] => None
  end.

(** Removes one leading sequence of [ws], the first of the list that fits. *)
Fixpoint strip_one (ws : list (list ascii)) (s : list ascii)
  : option (list ascii) :=
  match ws with
  | [] => None
  | w :: ws' =>
      match strip_prefix w s with
      | Some rest => Some rest
      | None => strip_one ws' s
      end
  end.

(** Removes leading sequences of [ws] as long as there is one; every
    sequence of [whiteSpace] has a byte, so [length s] steps are enough. *)
Fixpoint trim_front (ws : list (list ascii)) (fuel : nat) (s : list ascii)
  : list ascii :=
  match fuel with
  | O => s
  | S fuel' =>
      match strip_one ws s with
      | Some rest => trim_front ws fuel' rest
      | None => s
      end
  end.

Definition trimLeft (s : list ascii) : list ascii :=
  trim_front whiteSpace (length s) s.

(** Trailing runes are removed as leading ones of the reversed bytes. *)
Definition trimRight (s : list ascii) : list ascii :=
  rev (trim_front (map (@rev ascii) whiteSpace) (length s) (rev s)).


(** [strings.TrimSpace(s)]: [s] without its leading and its trailing white
    space, as Unicode defines it. *)
Definition TrimSpace (s : string) : string :=
  string_of_list_ascii (trimRight (trimLeft (list_ascii_of_string s))).

End strings.

(** [s] holds [sub] as a substring ([strings.Contains] as a proposition). *)
Definition contains (s sub : string) : Prop :=
  ∃ pre post : string, s = pre +:+ sub +:+ post.


(** ** Package [reflect]: the kinds of Go's types *)

Module reflect.
Inductive Kind :=
| Invalid | Bool | Int | Int8 | Int16 | Int32 | Int64
| Uint | Uint8 | Uint16 | Uint32 | Uint64 | Uintptr
| Float32 | Float64 | Complex64 | Complex128
| Array | Chan | Func | Interface | Map | Pointer | Slice
| String | Struct | UnsafePointer.
End reflect.

(** ** What the source asks of Go about values of type [interface{}]

    [any] is the type of Go's values boxed as [interface{}].  The fields are
    the library and run-time functions the source applies to them; they are
    not code of this repository. *)
Class GoEnv (any : Type) := {
  (** [v == nil]: the interface holds no value *)
  is_nil : any → bool;
  (** [reflect.DeepEqual(x, y)] *)
  DeepEqual : any → any → bool;
  (** [reflect.TypeOf(v).Kind()], for [v] that is not nil *)
  KindOf : any → reflect.Kind;
  (** [fmt]'s [%v] of [reflect.TypeOf(v)] *)
  TypeString : any → string;
  (** the type assertion [v.(string)]: [Some s] when the dynamic type of [v]
      is [string] itself, [None] when the assertion panics *)
  assert_string : any → option string;
  (** [fmt]'s [%v] of [v] *)
  fmt_v : any → string;
  (** [fmt.Sprintf(format, args...)] *)
  Sprintf : string → list any → string;
  (** [strconv.Quote(s)] *)
  Quote : string → string;
  (** the capacity [append] gives the new backing array of a full slice of
      capacity [c] that grows by one element *)
  growcap : nat → nat;
  growcap_fits : ∀ c : nat, c < growcap c
}.

Module fmt.
(** [fmt.Sprintln(args...)]: the operands in their default format, a space
    between each two, and a newline. *)
Definition Sprintln {any : Type} `{!GoEnv any} (args : list any) : string :=
  strings.Join (map fmt_v args) " " +:+ nl.
End fmt.

(** ** The heap *)

Definition ptr := nat.

(** A [[]string]: the cell of its backing array, its length and capacity.
    The backing array of a slice of capacity 0 is never read. *)
Record slice := { base : ptr; len : nat; cap : nat }.

Definition nil_slice : slice := {| base := 0; len := 0; cap := 0 |}.

Record accumulator := {
  failCount : Z;
  output : slice  (* any logging, not just failures *)
}.

Record T := {
  test : ptr;       (* *testing.T *)
  context : ptr;    (* *accumulator *)
  caseName : string;
  label : string;
  callDepth : Z
}.

(** The host's [testing.T], as far as the facade drives it. *)
Record testingT := { failed : bool; skipped : bool }.

Record world := {
  Ts : list T;
  accumulators : list accumulator;
  arrays : list (list string);
  tests : list testingT
}.

(** ** The monad of methods *)

Inductive outcome (A : Type) :=
| Return (a : A)   (* the call returns *)
| Goexit           (* runtime.Goexit: the goroutine of the test stops *)
| Panic.           (* a run-time panic *)
Arguments Return {A} a.
Arguments Goexit {A}.
Arguments Panic {A}.

Definition M (A : Type) : Type := world → outcome A * world.

Definition ret {A : Type} (a : A) : M A := λ σ, (Return a, σ).

Definition bind {A B : Type} (m : M A) (f : A → M B) : M B :=
  λ σ, match m σ with
       | (Return a, σ') => f a σ'
       | (Goexit, σ') => (Goexit, σ')
       | (Panic, σ') => (Panic, σ')
       end.

Definition panic {A : Type} : M A := λ σ, (Panic, σ).
Definition goexit {A : Type} : M A := λ σ, (Goexit, σ).

#[global] Instance M_ret : MRet M := @ret.
#[global] Instance M_bind : MBind M := λ A B f m, bind m f.

(** A value the evaluation of an argument may fail to give. *)
Definition lift {A : Type} (o : option A) : M A :=
  match o with Some a => ret a | None => panic end.

(** *** Cells: load, store, allocate.  A pointer that addresses no cell
    stands for nil; dereferencing it panics. *)

Definition get_T (p : ptr) : M T :=
  λ σ, match Ts σ !! p with Some t => (Return t, σ) | None => (Panic, σ) end.

Definition new_T (t : T) : M ptr :=
  λ σ, (Return (length (Ts σ)),
        {| Ts := Ts σ ++ [t]; accumulators := accumulators σ;
           arrays := arrays σ; tests := tests σ |}).

Definition get_accumulator (p : ptr) : M accumulator :=
  λ σ, match accumulators σ !! p with
       | Some a => (Return a, σ)
       | None => (Panic, σ)
       end.

Definition put_accumulator (p : ptr) (a : accumulator) : M unit :=
  λ σ, match accumulators σ !! p with
       | Some _ =>
           (Return (),
            {| Ts := Ts σ; accumulators := <[p := a]> (accumulators σ);
               arrays := arrays σ; tests := tests σ |})
       | None => (Panic, σ)
       end.

Definition new_accumulator (a : accumulator) : M ptr :=
  λ σ, (Return (length (accumulators σ)),
        {| Ts := Ts σ; accumulators := accumulators σ ++ [a];
           arrays := arrays σ; tests := tests σ |}).

Definition get_array (p : ptr) : M (list string) :=
  λ σ, match arrays σ !! p with
       | Some a => (Return a, σ)
       | None => (Panic, σ)
       end.

Definition put_array (p : ptr) (a : list string) : M unit :=
  λ σ, match arrays σ !! p with
       | Some _ =>
           (Return (),
            {| Ts := Ts σ; accumulators := accumulators σ;
               arrays := <[p := a]> (arrays σ); tests := tests σ |})
       | None => (Panic, σ)
       end.

Definition new_array (a : list string) : M ptr :=
  λ σ, (Return (length (arrays σ)),
        {| Ts := Ts σ; accumulators := accumulators σ;
           arrays := arrays σ ++ [a]; tests := tests σ |}).

Definition get_test (p : ptr) : M testingT :=
  λ σ, match tests σ !! p with
       | Some c => (Return c, σ)
       | None => (Panic, σ)
       end.

Definition put_test (p : ptr) (c : testingT) : M unit :=
  λ σ, match tests σ !! p with
       | Some _ =>
           (Return (),
            {| Ts := Ts σ; accumulators := accumulators σ;
               arrays := arrays σ; tests := <[p := c]> (tests σ) |})
       | None => (Panic, σ)
       end.

(** *** Slices of strings *)

(** The elements of [s], read at once. *)
Definition elements (s : slice) : M (list string) :=
  if decide (len s = 0) then ret []
  else arr ← get_array (base s); ret (take (len s) arr).

(** [s[i]]; an index out of range panics. *)
Definition index (s : slice) (i : nat) : M string :=
  if decide (i < len s) then arr ← get_array (base s); lift (arr !! i)
  else panic.

(** [s[i] = v]; an index out of range panics. *)
Definition store (s : slice) (i : nat) (v : string) : M unit :=
  if decide (i < len s)
  then arr ← get_array (base s); put_array (base s) (<[i := v]> arr)
  else panic.

(** [make([]string, n)]: a new backing array of [n] empty strings. *)
Definition make (n : nat) : M slice :=
  b ← new_array (replicate n EmptyString);
  ret {| base := b; len := n; cap := n |}.

(** [append(s, x)]: in place when the capacity allows it, else into a new,
    larger backing array that takes over the elements of [s]. *)
Definition append {any : Type} `{!GoEnv any} (s : slice) (x : string)
  : M slice :=
  if decide (len s < cap s) then
    arr ← get_array (base s);
    put_array (base s) (<[len s := x]> arr);;
    ret {| base := base s; len := S (len s); cap := cap s |}
  else
    old ← elements s;
    b ← new_array
          (old ++ x :: replicate (growcap (cap s) - S (len s)) EmptyString);
    ret {| base := b; len := S (len s); cap := growcap (cap s) |}.

(** ** The host: methods of [*testing.T] the facade calls *)

Module testing.
(** [c.Fail()]: marks the test as failed. *)
Definition Fail (c : ptr) : M unit :=
  h ← get_test c; put_test c {| failed := true; skipped := skipped h |}.

(** [c.FailNow()]: marks the test as failed and stops its goroutine. *)
Definition FailNow (c : ptr) : M unit := Fail c;; goexit.

(** [c.SkipNow()]: marks the test as skipped and stops its goroutine. *)
Definition SkipNow (c : ptr) : M unit :=
  h ← get_test c; put_test c {| failed := failed h; skipped := true |};;
  goexit.

Definition Failed (c : ptr) : M bool := h ← get_test c; ret (failed h).
Definition Skipped (c : ptr) : M bool := h ← get_test c; ret (skipped h).
End testing.

(** [runtime.Caller] as [decorate] sees it in one call of a method:
    [frames skip] is the file and the line of the frame [skip] levels above
    [decorate], [None] when [runtime.Caller] reports [ok = false]. *)
Definition callers : Type := Z → option (string * Z).

(** ** The program: [testy.go] *)

Section testy.
Context {any : Type} `{!GoEnv any}.

(** *** Accumulator stores test results and guards concurrent access
    (testy.go, lines 417-451) *)

Definition getFailCount (a : ptr) : M Z :=
  acc ← get_accumulator a; ret (failCount acc).

(** The loop [for i, v := range a.output { out[i] = v }] over the indices
    that are left. *)
Fixpoint copy_range (src out : slice) (indices : list nat) : M unit :=
  match indices with
  | [] => ret ()
  | i :: rest => v ← index src i; store out i v;; copy_range src out rest
  end.

Definition outputCopy (a : ptr) : M slice :=
  acc ← get_accumulator a;
  out ← make (len (output acc));
  copy_range (output acc) out (seq 0 (len (output acc)));;
  ret out.

Definition log (a : ptr) (s : string) : M unit :=
  acc ← get_accumulator a;
  o ← append (output acc) (strings.TrimSpace s);
  put_accumulator a {| failCount := failCount acc; output := o |}.

Definition incFailCount (a : ptr) : M unit :=
  acc ← get_accumulator a;
  put_accumulator a
    {| failCount := int_add (failCount acc) 1; output := output acc |}.

(** *** internal comparison support functions (lines 453-468) *)

(** [None] when the type assertion [value.(string)] panics. *)
Definition diag (prefix : string) (value : any) : option string :=
  if is_nil value then Some (prefix +:+ ": nil" +:+ nl)
  else
    match KindOf value with
    | reflect.String =>
        match assert_string value with
        | Some s => Some (prefix +:+ ": " +:+ Quote s +:+ nl)
        | None => None
        end
    | reflect.Bool => Some (prefix +:+ ": " +:+ fmt_v value +:+ nl)
    | _ =>
        Some (prefix +:+ ": " +:+ fmt_v value +:+
              " (" +:+ TypeString value +:+ ")" +:+ nl)
    end.

(** *** Construction and derivation of handles (lines 152-174) *)

Definition NewCase (t : ptr) (name : string) : M ptr :=
  c ← new_accumulator {| failCount := 0; output := nil_slice |};
  new_T {| test := t; context := c; caseName := name;
           label := EmptyString; callDepth := 1 |}.

(** [Label] and [Uplevel] have a value receiver: [t] is the caller's copy of
    the struct, and [&t] is a new cell. *)
Definition Label (t : T) (s : list any) : M ptr :=
  new_T {| test := test t; context := context t; caseName := caseName t;
           label := strings.TrimSpace (fmt.Sprintln s) +:+ ": ";
           callDepth := callDepth t |}.

Definition Uplevel (t : T) (depth : Z) : M ptr :=
  new_T {| test := test t; context := context t; caseName := caseName t;
           label := label t;
           callDepth := int_add (callDepth t) depth |}.

(** A method with a value receiver called through a pointer, [p.m(...)]:
    Go passes a copy of [*p]. *)
Definition via {A : Type} (p : ptr) (m : T → M A) : M A :=
  t ← get_T p; m t.

(** *** Summary and decoration (lines 368-415) *)

Definition summary (t : T) : M string :=
  count ← getFailCount (context t);
  if decide (count = 0%Z) then
    ret (caseName t +:+ ": all tests passed" +:+ nl)
  else if decide (count = 1%Z) then
    ret (caseName t +:+ ": " +:+ pretty count +:+ " test failed" +:+ nl)
  else
    ret (caseName t +:+ ": " +:+ pretty count +:+ " tests failed" +:+ nl).

(** The file name truncated at its last separator. *)
Definition truncate_file (file : string) : string :=
  if decide (0 ≤ strings.LastIndex file slash)%Z then
    strings.from file (strings.LastIndex file slash + 1)
  else if decide (0 ≤ strings.LastIndex file backslash)%Z then
    strings.from file (strings.LastIndex file backslash + 1)
  else file.

(** The lines [decorate] writes: without the last one when it is empty and
    not the only one. *)
Definition message_lines (s : string) : list string :=
  let lines := strings.Split s newline in
  if decide (1 < length lines ∧ last lines = Some EmptyString)
  then take (length lines - 1) lines
  else lines.

(** The loop over the lines: a newline and a tab before each but the
    first. *)
Fixpoint write_lines (i : nat) (lines : list string) : string :=
  match lines with
  | [] => EmptyString
  | line :: lines' =>
      (if decide (0 < i) then nl +:+ tab else EmptyString) +:+ line +:+
      write_lines (S i) lines'
  end.

Definition decorate (frames : callers) (t : T) (s : string) : string :=
  let '(file, line) :=
    match frames (int_add 1 (callDepth t)) with
    | Some (file, line) => (truncate_file file, line)
    | None => ("???", 1%Z)
    end in
  tab +:+ (file +:+ ":" +:+ pretty line +:+ ": " +:+ label t) +:+
  write_lines 0 (message_lines s) +:+ nl.

(** *** Done, FailCount, Output (lines 176-192) *)

Definition Done (t : ptr) : M string :=
  h ← get_T t;
  s ← summary h;
  out ← outputCopy (context h);
  lines ← elements out;
  ret (s +:+ strings.Join lines nl).

Definition FailCount (t : T) : M Z := getFailCount (context t).

Definition Output (t : T) : M slice := outputCopy (context t).

(** *** Helper functions (lines 248-282)

    Each branch that reports reads [*t] once: after [incFailCount] has
    returned, [t] and its accumulator are cells, and no method stores into
    a [T]. *)

Definition Equal (frames : callers) (t : ptr) (got want : any) : M unit :=
  if is_nil got || is_nil want then
    h ← get_T t;
    incFailCount (context h);;
    d1 ← lift (diag "   Got" got);
    d2 ← lift (diag "Wanted" want);
    log (context h)
      (decorate frames h
         ("Can't safely compare nil values for equality:" +:+ nl +:+
          d1 +:+ d2));;
    testing.Fail (test h)
  else if negb (DeepEqual got want) then
    h ← get_T t;
    incFailCount (context h);;
    d1 ← lift (diag "   Got" got);
    d2 ← lift (diag "Wanted" want);
    log (context h)
      (decorate frames h ("Values were not equal:" +:+ nl +:+ d1 +:+ d2));;
    testing.Fail (test h)
  else ret ().

Definition Unequal (frames : callers) (t : ptr) (got want : any) : M unit :=
  if is_nil got || is_nil want then
    h ← get_T t;
    incFailCount (context h);;
    d1 ← lift (diag "   Got" got);
    d2 ← lift (diag "Got" want);
    log (context h)
      (decorate frames h
         ("Can't safely compare nil values for equality:" +:+ nl +:+
          d1 +:+ d2));;
    testing.Fail (test h)
  else if DeepEqual got want then
    h ← get_T t;
    incFailCount (context h);;
    d ← lift (diag "  Both" got);
    log (context h)
      (decorate frames h ("Values were not unequal:" +:+ nl +:+ d));;
    testing.Fail (test h)
  else ret ().

(** *** Facade functions (lines 284-366) *)

Definition Fail (t : ptr) : M unit :=
  h ← get_T t; incFailCount (context h);; testing.Fail (test h).

Definition FailNow (t : ptr) : M unit :=
  h ← get_T t; incFailCount (context h);; testing.FailNow (test h).

Definition Failed (t : ptr) : M bool :=
  h ← get_T t; testing.Failed (test h).

Definition Log (frames : callers) (t : ptr) (args : list any) : M unit :=
  h ← get_T t; log (context h) (decorate frames h (fmt.Sprintln args)).

Definition Logf (frames : callers) (t : ptr) (format : string)
  (args : list any) : M unit :=
  h ← get_T t; log (context h) (decorate frames h (Sprintf format args)).

Definition Error (frames : callers) (t : ptr) (args : list any) : M unit :=
  h ← get_T t;
  incFailCount (context h);;
  log (context h) (decorate frames h (fmt.Sprintln args));;
  testing.Fail (test h).

Definition Errorf (frames : callers) (t : ptr) (format : string)
  (args : list any) : M unit :=
  h ← get_T t;
  incFailCount (context h);;
  log (context h) (decorate frames h (Sprintf format args));;
  testing.Fail (test h).

Definition Fatal (frames : callers) (t : ptr) (args : list any) : M unit :=
  h ← get_T t;
  incFailCount (context h);;
  log (context h) (decorate frames h (fmt.Sprintln args));;
  testing.FailNow (test h).

Definition Fatalf (frames : callers) (t : ptr) (format : string)
  (args : list any) : M unit :=
  h ← get_T t;
  incFailCount (context h);;
  log (context h) (decorate frames h (Sprintf format args));;
  testing.FailNow (test h).

Definition Skip (frames : callers) (t : ptr) (args : list any) : M unit :=
  h ← get_T t;
  log (context h) (decorate frames h (fmt.Sprintln args));;
  testing.SkipNow (test h).

Definition Skipf (frames : callers) (t : ptr) (format : string)
  (args : list any) : M unit :=
  h ← get_T t;
  log (context h) (decorate frames h (Sprintf format args));;
  testing.SkipNow (test h).

Definition SkipNow (t : ptr) : M unit :=
  h ← get_T t; testing.SkipNow (test h).

Definition Skipped (t : ptr) : M bool :=
  h ← get_T t; testing.Skipped (test h).

End testy.

(** ** The rest of [testy.go]: [New] and the boolean and nil helpers *)

(** [reflect.ValueOf(v).IsNil()]: [None] when it panics, which it does not
    for a channel, a function, an interface, a map, a pointer or a
    slice. *)
Class GoReflect (any : Type) `{!GoEnv any} := {
  IsNil : any → option bool;
  IsNil_defined :
    ∀ v : any,
      KindOf v ∈ [reflect.Chan; reflect.Func; reflect.Interface; reflect.Map;
                  reflect.Pointer; reflect.Slice] →
      is_Some (IsNil v)
}.

(** What follows the last "." of the first line of [s]: the rest of [s]
    after the match of the regular expression [^.*\.], whose [.] matches
    no newline.  [None] when the expression does not match. *)
Fixpoint after_last_dot (s : string) : option string :=
  match s with
  | EmptyString => None
  | String c s' =>
      if Ascii.eqb c newline then None
      else match after_last_dot s' with
           | Some rest => Some rest
           | None => if Ascii.eqb c "."%char then Some s' else None
           end
  end.

(** [nameStripper.ReplaceAllLiteralString(name, "")] for
    [nameStripper = regexp.MustCompile(`^.*\.`)]. *)
Definition nameStripper (name : string) : string :=
  default name (after_last_dot name).

(** [New] (lines 140-150).  [caller] is what [runtime.Caller(1)] and
    [runtime.FuncForPC(pc).Name()] give: the name of the calling function,
    [None] when [runtime.Caller] reports [ok = false]. *)
Definition New (caller : option string) (t : ptr) : M ptr :=
  NewCase t
    (match caller with
     | Some name => nameStripper name
     | None => "Anonymous function"
     end).

Module helper.
Section helper.
Context {any : Type} `{!GoEnv any} `{!GoReflect any}.

(** [True] and [False] (lines 196-212). *)
Definition True (frames : callers) (t : ptr) (cond : bool) : M unit :=
  if negb cond then
    h ← get_T t;
    incFailCount (context h);;
    log (context h) (decorate frames h "Expression was not true");;
    testing.Fail (test h)
  else ret ().

Definition False (frames : callers) (t : ptr) (cond : bool) : M unit :=
  if cond then
    h ← get_T t;
    incFailCount (context h);;
    log (context h) (decorate frames h "Expression was not false");;
    testing.Fail (test h)
  else ret ().

(** [checkNil] (lines 214-226); [None] when [v.IsNil()] panics. *)
Definition checkNil (x : any) : option bool :=
  if is_nil x then Some true
  else
    match KindOf x with
    | reflect.Chan | reflect.Func | reflect.Interface | reflect.Map
    | reflect.Pointer | reflect.Slice => IsNil x
    | _ => Some false
    end.

(** [Nil] and [NotNil] (lines 228-246). *)
Definition Nil (frames : callers) (t : ptr) (got : any) : M unit :=
  isnil ← lift (checkNil got);
  if negb isnil then
    h ← get_T t;
    incFailCount (context h);;
    log (context h) (decorate frames h "Expression was not nil");;
    testing.Fail (test h)
  else ret ().

Definition NotNil (frames : callers) (t : ptr) (got : any) : M unit :=
  isnil ← lift (checkNil got);
  if (isnil : bool) then
    h ← get_T t;
    incFailCount (context h);;
    log (context h) (decorate frames h "Expression was nil");;
    testing.Fail (test h)
  else ret ().

End helper.
End helper.

(** ** Sequences of calls

    A call of a method of the facade, with its arguments: every method
    that writes but [Equal] and [Unequal], which render their operands.
    [perform] makes the call and [script] makes the calls of a list one
    after the other, each with the stack of its call site and through its
    handle. *)
Inductive call (any : Type) :=
| CallTrue (cond : bool)
| CallFalse (cond : bool)
| CallNil (got : any)
| CallNotNil (got : any)
| CallFail
| CallFailNow
| CallLog (args : list any)
| CallLogf (format : string) (args : list any)
| CallError (args : list any)
| CallErrorf (format : string) (args : list any)
| CallFatal (args : list any)
| CallFatalf (format : string) (args : list any)
| CallSkip (args : list any)
| CallSkipf (format : string) (args : list any)
| CallSkipNow.
Arguments CallTrue {any} cond.
Arguments CallFalse {any} cond.
Arguments CallNil {any} got.
Arguments CallNotNil {any} got.
Arguments CallFail {any}.
Arguments CallFailNow {any}.
Arguments CallLog {any} args.
Arguments CallLogf {any} format args.
Arguments CallError {any} args.
Arguments CallErrorf {any} format args.
Arguments CallFatal {any} args.
Arguments CallFatalf {any} format args.
Arguments CallSkip {any} args.
Arguments CallSkipf {any} format args.
Arguments CallSkipNow {any}.

Section scripts.
Context {any : Type} `{!GoEnv any} `{!GoReflect any}.

Definition perform (frames : callers) (t : ptr) (c : call any) : M unit :=
  match c with
  | CallTrue cond => helper.True frames t cond
  | CallFalse cond => helper.False frames t cond
  | CallNil got => helper.Nil frames t got
  | CallNotNil got => helper.NotNil frames t got
  | CallFail => Fail t
  | CallFailNow => FailNow t
  | CallLog args => Log frames t args
  | CallLogf format args => Logf frames t format args
  | CallError args => Error frames t args
  | CallErrorf format args => Errorf frames t format args
  | CallFatal args => Fatal frames t args
  | CallFatalf format args => Fatalf frames t format args
  | CallSkip args => Skip frames t args
  | CallSkipf format args => Skipf frames t format args
  | CallSkipNow => SkipNow t
  end.

Fixpoint script (calls : list (callers * ptr * call any)) : M unit :=
  match calls with
  | [] => ret ()
  | (frames, t, c) :: rest => perform frames t c;; script rest
  end.

(** The call counts a failure. *)
Definition counts (c : call any) : bool :=
  match c with
  | CallTrue cond => negb cond
  | CallFalse cond => cond
  | CallNil got => default false (negb <$> helper.checkNil got)
  | CallNotNil got => default false (helper.checkNil got)
  | CallFail | CallFailNow | CallError _ | CallErrorf _ _
  | CallFatal _ | CallFatalf _ _ => true
  | CallLog _ | CallLogf _ _ | CallSkip _ | CallSkipf _ _ | CallSkipNow =>
      false
  end.

(** The message the call has decorated and logged, if any. *)
Definition message (c : call any) : option string :=
  match c with
  | CallTrue cond =>
      if cond then None else Some "Expression was not true"
  | CallFalse cond =>
      if cond then Some "Expression was not false" else None
  | CallNil got =>
      match helper.checkNil got with
      | Some false => Some "Expression was not nil"
      | _ => None
      end
  | CallNotNil got =>
      match helper.checkNil got with
      | Some true => Some "Expression was nil"
      | _ => None
      end
  | CallFail | CallFailNow | CallSkipNow => None
  | CallLog args | CallError args | CallFatal args | CallSkip args =>
      Some (fmt.Sprintln args)
  | CallLogf format args | CallErrorf format args | CallFatalf format args
  | CallSkipf format args => Some (Sprintf format args)
  end.

(** The call stops the goroutine of the test. *)
Definition stops (c : call any) : bool :=
  match c with
  | CallFailNow | CallFatal _ | CallFatalf _ _
  | CallSkip _ | CallSkipf _ _ | CallSkipNow => true
  | _ => false
  end.

(** The call marks the host's test as skipped. *)
Definition skips (c : call any) : bool :=
  match c with
  | CallSkip _ | CallSkipf _ _ | CallSkipNow => true
  | _ => false
  end.

(** What the call makes of the host's test: each call that counts a
    failure marks it as failed. *)
Definition marks (c : call any) (hc : testingT) : testingT :=
  {| failed := failed hc || counts c; skipped := skipped hc || skips c |}.

(** The calls of a list that are made: those up to the first that stops
    the goroutine, that one included. *)
Fixpoint made (calls : list (callers * ptr * call any))
  : list (callers * ptr * call any) :=
  match calls with
  | [] => []
  | (frames, t, c) :: rest =>
      (frames, t, c) :: (if stops c then [] else made rest)
  end.

(** The entry of the log a call leaves, through the handle in cell [t] of
    the world. *)
Definition entry (σ : world) (x : callers * ptr * call any) : list string :=
  let '(frames, t, c) := x in
  match Ts σ !! t, message c with
  | Some h, Some m => [strings.TrimSpace (decorate frames h m)]
  | _, _ => []
  end.

Definition entries (σ : world) (calls : list (callers * ptr * call any))
  : list string :=
  concat (map (entry σ) calls).

(** The number of the calls that count a failure. *)
Definition failures (calls : list (callers * ptr * call any)) : nat :=
  length (filter (λ x, counts (snd x) = true) calls).

End scripts.

(** ** Vocabulary of the specification *)

(** A byte that is part of no white space of [strings.TrimSpace]. *)
Definition plain (c : ascii) : Prop :=
  Forall (λ w, c ∉ w) strings.whiteSpace.

(** The byte [c] occurs in [s]. *)
Definition occurs (c : ascii) (s : string) : Prop :=
  In c (list_ascii_of_string s).

(** [body] is the message [s] without one trailing newline, if it has
    one. *)
Definition without_trailing_newline (s body : string) : Prop :=
  s = body +:+ nl ∨ (body = s ∧ ∀ s0 : string, s ≠ s0 +:+ nl).

(** Every newline of the message followed by one tab: the continuation
    lines of a message, each after a newline and a tab. *)
Fixpoint indent_continuation (s : string) : string :=
  match s with
  | EmptyString => EmptyString
  | String c s' =>
      if Ascii.eqb c newline then nl +:+ tab +:+ indent_continuation s'
      else String c (indent_continuation s')
  end.

(** [seg] is what follows the last "/" of [file]; without a "/" in [file],
    what follows its last "\"; without either, [file] itself. *)
Definition final_segment (file seg : string) : Prop :=
  (∃ dir, file = dir +:+ String slash seg ∧ ¬ occurs slash seg) ∨
  (¬ occurs slash file ∧
   ∃ dir, file = dir +:+ String backslash seg ∧ ¬ occurs backslash seg) ∨
  (¬ occurs slash file ∧ ¬ occurs backslash file ∧ seg = file).

(** The summary line for the case [name] after [k] recorded failures. *)
Definition summary_line (name : string) (k : Z) : string :=
  if decide (k = 0%Z) then name +:+ ": all tests passed"
  else if decide (k = 1%Z) then name +:+ ": 1 test failed"
  else name +:+ ": " +:+ pretty k +:+ " tests failed".


(** [k'] is [k] incremented by Go's [++] on [int]: [k + 1], unless [k] is
    the largest [int]. *)
Definition incremented (k k' : Z) : Prop :=
  k' = int_add k 1 ∧ ((int_min ≤ k < int_max)%Z → k' = (k + 1)%Z).

(** What [diag] writes for an operand between the prefix with its colon and
    the newline: "nil", the quoted string, the boolean, or the value with
    its type in parentheses.  [None] for an operand on which [diag]
    panics. *)
Definition rendering {any : Type} `{!GoEnv any} (value : any)
  : option string :=
  if is_nil value then Some "nil"
  else
    match KindOf value with
    | reflect.String => Quote <$> assert_string value
    | reflect.Bool => Some (fmt_v value)
    | _ => Some (fmt_v value +:+ " (" +:+ TypeString value +:+ ")")
    end.

(** The environment [E] with another function in the place of
    [reflect.DeepEqual]. *)
Definition with_DeepEqual {any : Type} (E : GoEnv any)
  (deep_equal : any → any → bool) : GoEnv any :=
  {| is_nil := @is_nil any E;
     DeepEqual := deep_equal;
     KindOf := @KindOf any E;
     TypeString := @TypeString any E;
     assert_string := @assert_string any E;
     fmt_v := @fmt_v any E;
     Sprintf := @Sprintf any E;
     Quote := @Quote any E;
     growcap := @growcap any E;
     growcap_fits := @growcap_fits any E |}.

(** The strings a slice holds in a world. *)
Definition view (σ : world) (s : slice) : list string :=
  take (len s) (default [] (arrays σ !! base s)).

(** A slice is well formed in a world when its length is within its
    capacity and, unless the capacity is 0, its backing array is a cell of
    that many strings. *)
Definition wf_slice (σ : world) (s : slice) : bool :=
  bool_decide (len s ≤ cap s) &&
  (bool_decide (cap s = 0) ||
   bool_decide (length <$> arrays σ !! base s = Some (cap s))).

(** From the world [σ] to the world [σ'], the accumulator in cell [a] has
    counted one more failure, or none ([counted]), and holds the messages
    [msgs] after those it held. *)
Definition recorded (σ σ' : world) (a : ptr) (counted : bool)
  (msgs : list string) : Prop :=
  ∃ acc acc',
    accumulators σ !! a = Some acc ∧ accumulators σ' !! a = Some acc' ∧
    (if counted then incremented (failCount acc) (failCount acc')
     else failCount acc' = failCount acc) ∧
    view σ' (output acc') = view σ (output acc) ++ msgs.

(** From [σ] to [σ'], the host's test in cell [c] has been marked as
    failed, or as skipped. *)
Definition marked_failed (σ σ' : world) (c : ptr) : Prop :=
  ∃ h, tests σ !! c = Some h ∧
       tests σ' !! c = Some {| failed := true; skipped := skipped h |}.

Definition marked_skipped (σ σ' : world) (c : ptr) : Prop :=
  ∃ h, tests σ !! c = Some h ∧
       tests σ' !! c = Some {| failed := failed h; skipped := true |}.

(** The handle in cell [t] is ready on the accumulator in cell [a] and the
    host's test in cell [c]: it is a handle of that accumulator, whose log
    is a well-formed slice, and of that test, which is a cell. *)
Definition ready (σ : world) (a c t : ptr) : bool :=
  match Ts σ !! t with
  | Some h =>
      bool_decide (context h = a) &&
      match accumulators σ !! a with
      | Some acc => wf_slice σ (output acc)
      | None => false
      end &&
      bool_decide (test h = c) &&
      bool_decide (is_Some (tests σ !! c))
  | None => false
  end.

(** The first byte of [s], if it has one, is part of no white space. *)
Definition starts_plain (s : string) : Prop :=
  match s with EmptyString => Logic.True | String c _ => plain c end.

(** The file and the line [decorate] writes for the handle [h]. *)
Definition location (frames : callers) (h : T) : string * Z :=
  match frames (int_add 1 (callDepth h)) with
  | Some (file, line) => (truncate_file file, line)
  | None => ("???", 1%Z)
  end.

(** The backing array in cell [b] is apart from the log of the accumulator
    in cell [a]: it is a cell, and not the one the log is written to. *)
Definition apart (σ : world) (a b : ptr) : Prop :=
  b < length (arrays σ) ∧
  ∀ acc, accumulators σ !! a = Some acc →
         cap (output acc) = 0 ∨ base (output acc) ≠ b.

(** What a call of the facade on the accumulator in cell [a] keeps, from
    [σ] to [σ']: the handles, the cells of the host's tests, a well-formed
    log, the backing arrays apart from the log, and the other
    accumulators. *)
Definition kept (σ σ' : world) (a : ptr) : Prop :=
  Ts σ' = Ts σ ∧
  length (tests σ') = length (tests σ) ∧
  (∀ acc', accumulators σ' !! a = Some acc' →
           wf_slice σ' (output acc') = true) ∧
  (∀ b, apart σ a b → arrays σ' !! b = arrays σ !! b ∧ apart σ' a b) ∧
  (∀ b, b ≠ a → accumulators σ' !! b = accumulators σ !! b).

(** ** A fragment of Go's values, to run the program on

    The nil interface and values of the types [int], [string], [bool] and of
    defined types over them ([named] is the name of the defined type).  The
    defined types have no methods. *)

Inductive value :=
| NilV
| IntV (named : option string) (n : Z)
| StringV (named : option string) (s : string)
| BoolV (named : option string) (b : bool).

Definition value_is_nil (v : value) : bool :=
  match v with NilV => true | _ => false end.

Definition value_kind (v : value) : reflect.Kind :=
  match v with
  | NilV => reflect.Invalid
  | IntV _ _ => reflect.Int
  | StringV _ _ => reflect.String
  | BoolV _ _ => reflect.Bool
  end.

Definition value_type (v : value) : string :=
  match v with
  | NilV => "<nil>"
  | IntV named _ => default "int" named
  | StringV named _ => default "string" named
  | BoolV named _ => default "bool" named
  end.

Definition value_string (v : value) : option string :=
  match v with StringV None s => Some s | _ => None end.

Definition value_v (v : value) : string :=
  match v with
  | NilV => "<nil>"
  | IntV _ n => pretty n
  | StringV _ s => s
  | BoolV _ b => if b then "true" else "false"
  end.

Definition value_deep_equal (x y : value) : bool :=
  match x, y with
  | NilV, NilV => true
  | IntV t1 n1, IntV t2 n2 => bool_decide (t1 = t2) && bool_decide (n1 = n2)
  | StringV t1 s1, StringV t2 s2 =>
      bool_decide (t1 = t2) && bool_decide (s1 = s2)
  | BoolV t1 b1, BoolV t2 b2 => bool_decide (t1 = t2) && bool_decide (b1 = b2)
  | _, _ => false
  end.

(** [fmt.Sprintf] for formats whose verbs are [%v] and [%%]. *)
Fixpoint value_sprintf (format : string) (args : list value) : string :=
  match format with
  | EmptyString =>
      match args with
      | [] => EmptyString
      | _ =>
          "%!(EXTRA " +:+
          strings.Join
            (map (λ a, value_type a +:+ "=" +:+ value_v a) args) ", " +:+
          ")"
      end
  | String "%"%char (String "v"%char rest) =>
      match args with
      | a :: args' => value_v a +:+ value_sprintf rest args'
      | [] => "%!v(MISSING)" +:+ value_sprintf rest []
      end
  | String "%"%char (String "%"%char rest) =>
      String "%"%char (value_sprintf rest args)
  | String c rest => String c (value_sprintf rest args)
  end.

Definition quote_mark : string := String "034"%char EmptyString.

(** [strconv.Quote] for strings of printable ASCII, tabs, newlines and
    carriage returns. *)
Fixpoint quote_body (s : string) : string :=
  match s with
  | EmptyString => EmptyString
  | String c s' =>
      (if Ascii.eqb c "034"%char then "\" +:+ quote_mark
       else if Ascii.eqb c "\"%char then "\\"
       else if Ascii.eqb c "009"%char then "\t"
       else if Ascii.eqb c "010"%char then "\n"
       else if Ascii.eqb c "013"%char then "\r"
       else String c EmptyString) +:+ quote_body s'
  end.

Definition value_quote (s : string) : string :=
  quote_mark +:+ quote_body s +:+ quote_mark.

(** The growth of small slices: capacity 1 from 0, then doubled. *)
Definition value_growcap (c : nat) : nat := if decide (c = 0) then 1 else 2 * c.

Lemma value_growcap_fits (c : nat) : c < value_growcap c.
Proof. unfold value_growcap. case_decide; lia. Qed.

#[global] Instance value_env : GoEnv value := {|
  is_nil := value_is_nil;
  DeepEqual := value_deep_equal;
  KindOf := value_kind;
  TypeString := value_type;
  assert_string := value_string;
  fmt_v := value_v;
  Sprintf := value_sprintf;
  Quote := value_quote;
  growcap := value_growcap;
  growcap_fits := value_growcap_fits
|}.

(** No value of the fragment is of a kind with an [IsNil]: on each of them
    [Value.IsNil] panics. *)
Lemma value_IsNil_defined (v : value) :
  KindOf v ∈ [reflect.Chan; reflect.Func; reflect.Interface; reflect.Map;
              reflect.Pointer; reflect.Slice] →
  is_Some (None : option bool).
Proof.
  intros H. exfalso. destruct v; simpl in H;
    repeat (apply elem_of_cons in H as [H|H]; [discriminate H|]);
    by apply elem_of_nil in H.
Qed.

#[global] Instance value_reflect : GoReflect value := {|
  IsNil := λ _, None;
  IsNil_defined := value_IsNil_defined
|}.

(** A stack on which [decorate] finds the call site of a test at level 2
    and nothing above level 3. *)
Definition sample_frames : callers :=
  λ skip,
    if decide (skip = 2%Z) then Some ("/src/testy/example_test.go", 17%Z)
    else if decide (skip = 3%Z) then Some ("C:\go\testing.go", 1200%Z)
    else None.

(** The world of a test that has just called [NewCase] (see
    [NewCase_sample_world]): the host's [testing.T], the accumulator and
    the handle, each in cell 0 of its kind. *)
Definition sample_handle : T :=
  {| test := 0; context := 0; caseName := "TestExample";
     label := EmptyString; callDepth := 1 |}.

Definition sample_accumulator : accumulator :=
  {| failCount := 0; output := nil_slice |}.

Definition sample_test : testingT := {| failed := false; skipped := false |}.

Definition sample_world : world :=
  {| Ts := [sample_handle]; accumulators := [sample_accumulator];
     arrays := []; tests := [sample_test] |}.

(** That world after [Error("boom")]. *)
Definition failed_world : world :=
  snd (Error sample_frames 0 [StringV None "boom"] sample_world).

Definition failed_accumulator : accumulator :=
  {| failCount := 1; output := {| base := 0; len := 1; cap := 1 |} |}.

(** The calls of a test that logs, fails two checks, passes one and stops
    at [Fatal], all through the handle of [sample_world] and from one call
    site; the last call is not reached. *)
Definition sample_calls : list (callers * ptr * call value) :=
  [ (sample_frames, 0, CallLog [StringV None "start"]);
    (sample_frames, 0, CallTrue false);
    (sample_frames, 0, CallNil NilV);
    (sample_frames, 0, CallNotNil NilV);
    (sample_frames, 0, CallFatal [StringV None "boom"]);
    (sample_frames, 0, CallError [StringV None "not reached"]) ].

(** [failed_world] after a second [NewCase] on the host's test: the new
    handle and its accumulator are in cell 1 of their kinds. *)
Definition two_cases_world : world :=
  snd (NewCase 0 "TestOther" failed_world).

(** A value of the defined type [S], declared as [type S string] in
    package [main]. *)
Definition defined_string (s : string) : value := StringV (Some "main.S") s.

(** The host call [fin] on the test in cell [c] ends with the outcome [o]
    and sets the test to [mark] of what it was. *)
Definition host_call (fin : M unit) (c : ptr) (o : outcome unit)
  (mark : testingT → testingT) : Prop :=
  ∀ (σ0 : world) (hc : testingT),
    tests σ0 !! c = Some hc →
    fin σ0 =
    (o, {| Ts := Ts σ0; accumulators := accumulators σ0;
           arrays := arrays σ0; tests := <[c := mark hc]> (tests σ0) |}).


(** * Properties *)

(** ** Strings *)

Lemma app_cons (c : ascii) (a b : string) :
  String c a +:+ b = String c (a +:+ b).
Proof. reflexivity. Qed.

Lemma app_empty_l (a : string) : EmptyString +:+ a = a.
Proof. reflexivity. Qed.

Lemma app_empty_r (a : string) : a +:+ EmptyString = a.
Proof. induction a as [|c a IH]; [done|]. by rewrite app_cons, IH. Qed.

Lemma app_assoc_s (a b c : string) : (a +:+ b) +:+ c = a +:+ (b +:+ c).
Proof. induction a as [|x a IH]; [done|]. by rewrite !app_cons, IH. Qed.

Lemma to_list_app (a b : string) :
  list_ascii_of_string (a +:+ b) =
  list_ascii_of_string a ++ list_ascii_of_string b.
Proof. induction a as [|x a IH]; [done|]. rewrite app_cons. simpl. by rewrite IH. Qed.

Lemma of_list_app (l k : list ascii) :
  string_of_list_ascii (l ++ k) =
  string_of_list_ascii l +:+ string_of_list_ascii k.
Proof. induction l as [|x l IH]; [done|]. simpl. by rewrite IH, app_cons. Qed.

Lemma contains_app_l (s sub pre : string) :
  contains s sub → contains (pre +:+ s) sub.
Proof.
  intros (a & b & ->). exists (pre +:+ a), b. by rewrite app_assoc_s.
Qed.

Lemma contains_app_r (s sub post : string) :
  contains s sub → contains (s +:+ post) sub.
Proof.
  intros (a & b & ->). exists a, (b +:+ post). by rewrite !app_assoc_s.
Qed.

(** ** [strings.TrimSpace] *)

Lemma strip_prefix_keep (w pre rest r : list ascii) (c : ascii) :
  c ∉ w →
  strings.strip_prefix w (pre ++ c :: rest) = Some r →
  ∃ pre', r = pre' ++ c :: rest.
Proof.
  revert pre. induction w as [|a w IH]; intros pre Hc Hs; simpl in Hs.
  - exists pre. congruence.
  - destruct pre as [|p pre]; simpl in Hs.
    + destruct (Ascii.eqb_spec a c) as [->|]; [|done].
      exfalso. apply Hc. by left.
    + destruct (Ascii.eqb a p); [|done].
      apply (IH pre); [|done]. intros Hin. apply Hc. by right.
Qed.

Lemma strip_one_keep (ws : list (list ascii)) (pre rest r : list ascii)
  (c : ascii) :
  Forall (λ w, c ∉ w) ws →
  strings.strip_one ws (pre ++ c :: rest) = Some r →
  ∃ pre', r = pre' ++ c :: rest.
Proof.
  induction 1 as [|w ws Hw _ IH]; simpl; [done|].
  destruct (strings.strip_prefix w (pre ++ c :: rest)) eqn:E.
  - intros [= <-]. by eapply strip_prefix_keep.
  - apply IH.
Qed.

Lemma trim_front_keep (ws : list (list ascii)) (fuel : nat)
  (pre rest : list ascii) (c : ascii) :
  Forall (λ w, c ∉ w) ws →
  ∃ pre', strings.trim_front ws fuel (pre ++ c :: rest) = pre' ++ c :: rest.
Proof.
  intros Hws. revert pre. induction fuel as [|fuel IH]; intros pre; simpl.
  - by exists pre.
  - destruct (strings.strip_one ws (pre ++ c :: rest)) as [r|] eqn:E.
    + destruct (strip_one_keep _ _ _ _ _ Hws E) as [pre' ->]. apply IH.
    + by exists pre.
Qed.

Lemma plain_rev (c : ascii) :
  plain c → Forall (λ w, c ∉ w) (map (@rev ascii) strings.whiteSpace).
Proof.
  unfold plain. intros H. apply Forall_map. eapply Forall_impl; [exact H|].
  intros w Hw Hin. apply Hw.
  apply list_elem_of_In, in_rev, list_elem_of_In. exact Hin.
Qed.

(** A piece of a string that starts and ends with plain bytes survives
    [strings.TrimSpace]. *)
Lemma TrimSpace_keeps (pre mid post : string) (c d : ascii) :
  plain c → plain d →
  ∃ pre' post',
    strings.TrimSpace
      (pre +:+ (String c mid +:+ String d EmptyString) +:+ post) =
    pre' +:+ (String c mid +:+ String d EmptyString) +:+ post'.
Proof.
  intros Hc Hd. unfold strings.TrimSpace, strings.trimLeft.
  rewrite !to_list_app. simpl.
  set (m := list_ascii_of_string mid). set (p := list_ascii_of_string post).
  destruct (trim_front_keep strings.whiteSpace
              (length (list_ascii_of_string pre ++ c :: (m ++ [d]) ++ p))
              (list_ascii_of_string pre) ((m ++ [d]) ++ p) c Hc)
    as [pre' ->].
  unfold strings.trimRight.
  assert (rev (pre' ++ c :: (m ++ [d]) ++ p) =
          rev p ++ d :: rev (pre' ++ c :: m)) as ->.
  { rewrite !rev_app_distr. simpl. rewrite !rev_app_distr. simpl.
    by rewrite <- !app_assoc. }
  destruct (trim_front_keep (map (@rev ascii) strings.whiteSpace)
              (length (pre' ++ c :: (m ++ [d]) ++ p))
              (rev p) (rev (pre' ++ c :: m)) d (plain_rev d Hd))
    as [post' ->].
  exists (string_of_list_ascii pre'), (string_of_list_ascii (rev post')).
  rewrite rev_app_distr. simpl. rewrite rev_involutive.
  rewrite <- !app_assoc. simpl.
  rewrite of_list_app. simpl. rewrite of_list_app. simpl.
  unfold m. rewrite string_of_list_ascii_of_string.
  rewrite !app_cons. f_equal. f_equal. by rewrite app_assoc_s.
Qed.

(** A newline at the end does not change what [strings.TrimSpace] gives. *)




Lemma strip_prefix_shorter (w s r : list ascii) :
  w ≠ [] → strings.strip_prefix w s = Some r → length r < length s.
Proof.
  revert s. induction w as [|a w IH]; intros s Hw Hs; [done|].
  destruct s as [|c s]; simpl in Hs; [done|].
  destruct (Ascii.eqb a c); [|done].
  destruct w as [|b w].
  - simpl in Hs. injection Hs as <-. simpl. lia.
  - apply IH in Hs; [|done]. simpl. lia.
Qed.

Lemma strip_one_shorter (ws : list (list ascii)) (s r : list ascii) :
  Forall (λ w, w ≠ []) ws →
  strings.strip_one ws s = Some r → length r < length s.
Proof.
  induction 1 as [|w ws Hw _ IH]; simpl; [done|].
  destruct (strings.strip_prefix w s) eqn:E.
  - intros [= <-]. by eapply strip_prefix_shorter.
  - apply IH.
Qed.

Lemma whiteSpace_nonempty : Forall (λ w, w ≠ []) strings.whiteSpace.
Proof. unfold strings.whiteSpace. repeat constructor; discriminate. Qed.

(** With as many steps as [s] has bytes, [trim_front] stops only where no
    white space is left in front: the fuel of [trimLeft] and [trimRight]
    is enough. *)
Lemma trim_front_complete (ws : list (list ascii)) (fuel : nat)
  (s : list ascii) :
  Forall (λ w, w ≠ []) ws → length s ≤ fuel →
  strings.strip_one ws (strings.trim_front ws fuel s) = None.
Proof.
  intros Hws. revert s. induction fuel as [|fuel IH]; intros s Hlen.
  - destruct s; [|simpl in Hlen; lia]. simpl.
    destruct (strings.strip_one ws []) as [r|] eqn:E; [|done].
    apply strip_one_shorter in E; [|done]. simpl in E. lia.
  - simpl. destruct (strings.strip_one ws s) as [r|] eqn:E; [|done].
    apply IH. apply strip_one_shorter in E; [|done]. lia.
Qed.

Lemma TrimSpace_no_leading_space (s : string) :
  strings.strip_one strings.whiteSpace
    (strings.trimLeft (list_ascii_of_string s)) = None.
Proof.
  apply trim_front_complete; [apply whiteSpace_nonempty|done].
Qed.







Ltac solve_plain :=
  unfold plain, strings.whiteSpace;
  repeat constructor; simpl; intros Hin;
  repeat (apply elem_of_cons in Hin as [Hin|Hin]; [discriminate Hin|]);
  by apply elem_of_nil in Hin.

(** ** The lines of a message *)

Lemma Split_nonempty (s : string) (sep : ascii) : strings.Split s sep ≠ [].
Proof.
  destruct s as [|c s]; simpl; [done|].
  destruct (Ascii.eqb c sep); [done|]. by destruct (strings.Split s sep).
Qed.

Lemma write_lines_later (i : nat) (lines : list string) :
  write_lines (S i) lines = write_lines 1 lines.
Proof.
  revert i. induction lines as [|l lines IH]; intros i; [done|].
  cbn [write_lines]. rewrite (IH (S i)), (IH 1).
  by rewrite !decide_True by lia.
Qed.

Lemma write_lines_cons (i : nat) (l : string) (lines : list string) :
  write_lines i (l :: lines) =
  (if decide (0 < i) then nl +:+ tab else EmptyString) +:+ l +:+
  write_lines 1 lines.
Proof. cbn [write_lines]. by rewrite write_lines_later. Qed.

(** Written in one piece, the lines of [s] are [s] with a tab after each
    newline. *)
Lemma write_lines_Split (s : string) :
  write_lines 0 (strings.Split s newline) = indent_continuation s.
Proof.
  induction s as [|c s IH]; [done|].
  cbn [strings.Split indent_continuation].
  destruct (Ascii.eqb c newline) eqn:E.
  - rewrite write_lines_cons. rewrite decide_False by lia.
    rewrite !app_empty_l.
    destruct (strings.Split s newline) as [|l lines] eqn:Es.
    { by apply Split_nonempty in Es. }
    rewrite write_lines_cons in *. rewrite decide_True by lia.
    rewrite decide_False in IH by lia. rewrite app_empty_l in IH.
    rewrite <- IH. by rewrite !app_assoc_s.
  - destruct (strings.Split s newline) as [|l lines] eqn:Es.
    { by apply Split_nonempty in Es. }
    rewrite write_lines_cons in *. rewrite decide_False in * by lia.
    rewrite app_empty_l in *. by rewrite app_cons, IH.
Qed.

Lemma Split_snoc (s : string) :
  strings.Split (s +:+ nl) newline = strings.Split s newline ++ [EmptyString].
Proof.
  induction s as [|c s IH]; [done|].
  rewrite app_cons. cbn [strings.Split].
  destruct (Ascii.eqb c newline); rewrite IH; [done|].
  destruct (strings.Split s newline) as [|l lines] eqn:Es; [|done].
  by apply Split_nonempty in Es.
Qed.

(** The last piece is empty only for the empty string and for a string
    that ends in the separator. *)
Lemma Split_last_empty (s : string) :
  last (strings.Split s newline) = Some EmptyString →
  s = EmptyString ∨ ∃ s0, s = s0 +:+ nl.
Proof.
  induction s as [|c s IH]; [by left|]. intros Hl. right.
  cbn [strings.Split] in Hl.
  destruct (strings.Split s newline) as [|l lines] eqn:Es.
  { by apply Split_nonempty in Es. }
  destruct (Ascii.eqb_spec c newline) as [->|Hc].
  - change (last (EmptyString :: l :: lines)) with (last (l :: lines)) in Hl.
    destruct (IH Hl) as [->|[s0 ->]].
    + by exists EmptyString.
    + exists (String newline s0). by rewrite app_cons.
  - destruct lines as [|l' lines]; [done|].
    change (last (String c l :: l' :: lines))
      with (last (l :: l' :: lines)) in Hl.
    destruct (IH Hl) as [->|[s0 ->]]; [done|].
    exists (String c s0). by rewrite app_cons.
Qed.

Lemma message_lines_spec (s : string) :
  ∃ body, without_trailing_newline s body ∧
          message_lines s = strings.Split body newline.
Proof.
  unfold message_lines. cbv zeta.
  case_decide as H.
  - destruct H as [Hlen Hlast].
    destruct (Split_last_empty s Hlast) as [->|[s0 ->]].
    { simpl in Hlen. lia. }
    exists s0. split; [by left|].
    rewrite Split_snoc, length_app. simpl.
    replace (length (strings.Split s0 newline) + 1 - 1)
      with (length (strings.Split s0 newline)) by lia.
    by rewrite take_app_length.
  - exists s. split; [|done]. right. split; [done|].
    intros s0 ->. apply H. rewrite Split_snoc, length_app, last_snoc.
    split; [|done]. simpl.
    pose proof (Split_nonempty s0 newline).
    destruct (strings.Split s0 newline); [done|]. simpl. lia.
Qed.

(** ** The file name *)

Lemma occurs_cons (c a : ascii) (s : string) :
  occurs c (String a s) ↔ a = c ∨ occurs c s.
Proof. unfold occurs. simpl. tauto. Qed.

Lemma lastIndexFrom_spec (s : string) (sep : ascii) (i last : Z) :
  (¬ occurs sep s ∧ strings.lastIndexFrom i last s sep = last) ∨
  (∃ pre post, s = pre +:+ String sep post ∧ ¬ occurs sep post ∧
     strings.lastIndexFrom i last s sep = (i + Z.of_nat (String.length pre))%Z).
Proof.
  revert i last. induction s as [|c s IH]; intros i last.
  - left. split; [|done]. intros [].
  - cbn [strings.lastIndexFrom].
    destruct (IH (i + 1)%Z (if Ascii.eqb c sep then i else last))
      as [[Hno Heq]|(pre & post & -> & Hno & Heq)].
    + destruct (Ascii.eqb_spec c sep) as [->|Hc].
      * right. exists EmptyString, s. repeat split; [done|].
        rewrite Heq. simpl. lia.
      * left. split; [|done]. rewrite occurs_cons. tauto.
    + right. exists (String c pre), post. repeat split; [done|].
      rewrite Heq. cbn [String.length]. lia.
Qed.

Lemma drop_bytes_app (pre post : string) :
  strings.drop_bytes (String.length pre) (pre +:+ post) = post.
Proof. induction pre as [|c pre IH]; [by destruct post|]. by simpl. Qed.

Lemma LastIndex_absent (s : string) (sep : ascii) :
  ¬ (0 ≤ strings.LastIndex s sep)%Z → ¬ occurs sep s.
Proof.
  unfold strings.LastIndex.
  destruct (lastIndexFrom_spec s sep 0 (-1))
    as [[Hno _]|(pre & post & _ & _ & ->)]; [done|lia].
Qed.

Lemma LastIndex_present (s : string) (sep : ascii) :
  (0 ≤ strings.LastIndex s sep)%Z →
  ∃ pre, s = pre +:+ String sep (strings.from s (strings.LastIndex s sep + 1))
         ∧ ¬ occurs sep (strings.from s (strings.LastIndex s sep + 1)).
Proof.
  unfold strings.LastIndex, strings.from.
  destruct (lastIndexFrom_spec s sep 0 (-1))
    as [[_ ->]|(pre & post & -> & Hno & ->)]; [lia|].
  intros _. exists pre.
  replace (Z.to_nat (0 + Z.of_nat (String.length pre) + 1))
    with (String.length (pre +:+ String sep EmptyString)).
  - replace (pre +:+ String sep post)
      with ((pre +:+ String sep EmptyString) +:+ post)
      by (by rewrite app_assoc_s).
    rewrite drop_bytes_app. split; [by rewrite app_assoc_s|done].
  - clear. induction pre as [|c pre IH]; [done|].
    rewrite app_cons. cbn [String.length]. rewrite IH. lia.
Qed.

Lemma truncate_file_spec (file : string) :
  final_segment file (truncate_file file).
Proof.
  unfold truncate_file, final_segment.
  case_decide as Hs.
  - left. by apply LastIndex_present.
  - apply LastIndex_absent in Hs. right.
    case_decide as Hb.
    + left. split; [done|]. by apply LastIndex_present.
    + apply LastIndex_absent in Hb. by right.
Qed.

(** ** Go's [int] *)

Lemma int_add_in_range (x y : Z) :
  (int_min ≤ x + y ≤ int_max)%Z → int_add x y = (x + y)%Z.
Proof.
  unfold int_add, wrap, int_min, int_max. intros H.
  rewrite Z.mod_small by lia. lia.
Qed.

(** ** Running methods *)

Lemma run_bind {A B : Type} (m : M A) (f : A → M B) (σ : world) :
  (m ≫= f) σ =
  match m σ with
  | (Return a, σ') => f a σ'
  | (Goexit, σ') => (Goexit, σ')
  | (Panic, σ') => (Panic, σ')
  end.
Proof. reflexivity. Qed.

Lemma run_ret {A : Type} (a : A) (σ : world) : (mret a : M A) σ = (Return a, σ).
Proof. reflexivity. Qed.

Lemma world_eta (σ : world) :
  {| Ts := Ts σ; accumulators := accumulators σ; arrays := arrays σ;
     tests := tests σ |} = σ.
Proof. by destruct σ. Qed.

Lemma get_T_run (σ : world) (p : ptr) (h : T) :
  Ts σ !! p = Some h → get_T p σ = (Return h, σ).
Proof. intros H. unfold get_T. by rewrite H. Qed.

Lemma get_accumulator_run (σ : world) (p : ptr) (acc : accumulator) :
  accumulators σ !! p = Some acc → get_accumulator p σ = (Return acc, σ).
Proof. intros H. unfold get_accumulator. by rewrite H. Qed.

Lemma put_accumulator_run (σ : world) (p : ptr) (old acc : accumulator) :
  accumulators σ !! p = Some old →
  put_accumulator p acc σ =
  (Return (),
   {| Ts := Ts σ; accumulators := <[p := acc]> (accumulators σ);
      arrays := arrays σ; tests := tests σ |}).
Proof. intros H. unfold put_accumulator. by rewrite H. Qed.

Lemma get_array_run (σ : world) (p : ptr) (arr : list string) :
  arrays σ !! p = Some arr → get_array p σ = (Return arr, σ).
Proof. intros H. unfold get_array. by rewrite H. Qed.

Lemma put_array_run (σ : world) (p : ptr) (old arr : list string) :
  arrays σ !! p = Some old →
  put_array p arr σ =
  (Return (),
   {| Ts := Ts σ; accumulators := accumulators σ;
      arrays := <[p := arr]> (arrays σ); tests := tests σ |}).
Proof. intros H. unfold put_array. by rewrite H. Qed.

(** *** Slices *)

Lemma wf_slice_inv (σ : world) (s : slice) :
  wf_slice σ s = true →
  len s ≤ cap s ∧
  (cap s = 0 ∨ ∃ arr, arrays σ !! base s = Some arr ∧ length arr = cap s).
Proof.
  unfold wf_slice. intros H.
  apply andb_prop in H as [H1 H2]. apply bool_decide_eq_true in H1.
  split; [done|]. apply orb_prop in H2 as [H2|H2];
    apply bool_decide_eq_true in H2; [by left|right].
  destruct (arrays σ !! base s) as [arr|]; [|done].
  exists arr. split; [done|]. simpl in H2. congruence.
Qed.

Lemma wf_slice_intro (σ : world) (s : slice) (arr : list string) :
  len s ≤ cap s → arrays σ !! base s = Some arr → length arr = cap s →
  wf_slice σ s = true.
Proof.
  intros H1 H2 H3. unfold wf_slice.
  rewrite (bool_decide_eq_true_2 _ H1). simpl.
  apply orb_true_intro. right. apply bool_decide_eq_true_2.
  rewrite H2. simpl. by rewrite H3.
Qed.

Lemma elements_run (σ : world) (s : slice) :
  wf_slice σ s = true → elements s σ = (Return (view σ s), σ).
Proof.
  intros Hwf. unfold elements, view. case_decide as Hlen.
  - rewrite Hlen. by rewrite take_0.
  - apply wf_slice_inv in Hwf as [Hle [Hcap|(arr & Harr & _)]]; [lia|].
    rewrite run_bind, (get_array_run _ _ _ Harr), Harr. done.
Qed.

Section slices.
Context {any : Type} `{!GoEnv any}.

Lemma append_run (σ : world) (s : slice) (x : string) :
  wf_slice σ s = true →
  ∃ σ' s',
    append s x σ = (Return s', σ') ∧
    Ts σ' = Ts σ ∧ accumulators σ' = accumulators σ ∧ tests σ' = tests σ ∧
    view σ' s' = view σ s ++ [x] ∧ wf_slice σ' s' = true.
Proof.
  intros Hwf. unfold append. case_decide as Hfull.
  - apply wf_slice_inv in Hwf as [Hle [Hcap|(arr & Harr & Hlen)]]; [lia|].
    rewrite run_bind, (get_array_run _ _ _ Harr).
    rewrite run_bind, (put_array_run _ _ _ _ Harr).
    eexists _, _. split; [reflexivity|]. simpl. repeat split.
    + unfold view. simpl.
      rewrite list_lookup_insert_eq by (apply lookup_lt_Some in Harr; lia).
      rewrite Harr. simpl.
      rewrite (take_S_r _ _ x) by (apply list_lookup_insert_eq; lia).
      by rewrite take_insert_ge by lia.
    + eapply wf_slice_intro; simpl; [lia| |].
      * apply list_lookup_insert_eq. by apply lookup_lt_Some in Harr.
      * by rewrite length_insert.
  - rewrite run_bind, (elements_run _ _ Hwf).
    eexists _, _. split; [reflexivity|]. simpl.
    assert (length (view σ s) = len s) as Hview.
    { unfold view. apply wf_slice_inv in Hwf as [Hle [Hcap|(arr & -> & Hlen)]].
      - rewrite length_take. lia.
      - simpl. rewrite length_take. lia. }
    pose proof (growcap_fits (cap s)) as Hgrow.
    apply wf_slice_inv in Hwf as [Hle _].
    repeat split.
    + unfold view at 1. simpl. rewrite lookup_app_r by lia.
      rewrite Nat.sub_diag. simpl.
      rewrite cons_middle, app_assoc.
      rewrite take_app_length'; [done|].
      rewrite length_app. simpl. lia.
    + eapply wf_slice_intro; simpl; [lia| |].
      * rewrite lookup_app_r by lia. by rewrite Nat.sub_diag.
      * rewrite length_app. simpl. rewrite length_replicate. lia.
Qed.

End slices.

Lemma copy_range_run (src out : slice)
  (srcarr : list string) (m k : nat) (σ : world) (cur : list string) :
  arrays σ !! base src = Some srcarr →
  arrays σ !! base out = Some cur →
  base src ≠ base out →
  k + m ≤ len src → len src ≤ length srcarr →
  k + m ≤ len out → len out ≤ length cur →
  copy_range src out (seq k m) σ =
  (Return (),
   {| Ts := Ts σ; accumulators := accumulators σ;
      arrays :=
        <[base out :=
            take k cur ++ take m (drop k srcarr) ++ drop (k + m) cur]>
          (arrays σ);
      tests := tests σ |}).
Proof.
  revert k σ cur.
  induction m as [|m IH]; intros k σ cur Hsrc Hout Hne Hks Hsl Hko Hol.
  - simpl. rewrite Nat.add_0_r, take_drop.
    rewrite list_insert_id by done. by rewrite world_eta.
  - cbn [seq copy_range].
    assert (is_Some (srcarr !! k)) as [v Hv]
      by (apply lookup_lt_is_Some; lia).
    assert (index src k σ = (Return v, σ)) as Hindex.
    { unfold index. rewrite decide_True by lia.
      rewrite run_bind, (get_array_run _ _ _ Hsrc). by rewrite Hv. }
    rewrite run_bind, Hindex.
    assert (store out k v σ =
            (Return (),
             {| Ts := Ts σ; accumulators := accumulators σ;
                arrays := <[base out := <[k := v]> cur]> (arrays σ);
                tests := tests σ |})) as Hstore.
    { unfold store. rewrite decide_True by lia.
      rewrite run_bind, (get_array_run _ _ _ Hout).
      by rewrite (put_array_run _ _ _ _ Hout). }
    rewrite run_bind, Hstore.
    rewrite (IH (S k) _ (<[k := v]> cur)); simpl.
    + f_equal. f_equal. rewrite list_insert_insert_eq. f_equal.
      rewrite (take_S_r _ _ v)
        by (apply list_lookup_insert_eq; lia).
      rewrite take_insert_ge by lia.
      rewrite drop_insert_lt by lia.
      rewrite (drop_S _ _ _ Hv). simpl.
      replace (k + S m) with (S (k + m)) by lia.
      by rewrite <- app_assoc.
    + by rewrite list_lookup_insert_ne.
    + apply list_lookup_insert_eq. by apply lookup_lt_Some in Hout.
    + done.
    + lia.
    + done.
    + lia.
    + rewrite length_insert. lia.
Qed.

(** *** The accumulator *)

Lemma incremented_int_add (k : Z) : incremented k (int_add k 1).
Proof.
  split; [done|]. intros H. apply int_add_in_range.
  unfold int_min, int_max in *. lia.
Qed.

Lemma getFailCount_run (σ : world) (a : ptr) (acc : accumulator) :
  accumulators σ !! a = Some acc →
  getFailCount a σ = (Return (failCount acc), σ).
Proof.
  intros H. unfold getFailCount.
  by rewrite run_bind, (get_accumulator_run _ _ _ H).
Qed.

Lemma incFailCount_run (σ : world) (a : ptr) (acc : accumulator) :
  accumulators σ !! a = Some acc →
  incFailCount a σ =
  (Return (),
   {| Ts := Ts σ;
      accumulators :=
        <[a := {| failCount := int_add (failCount acc) 1;
                  output := output acc |}]> (accumulators σ);
      arrays := arrays σ; tests := tests σ |}).
Proof.
  intros H. unfold incFailCount.
  rewrite run_bind, (get_accumulator_run _ _ _ H).
  by rewrite (put_accumulator_run _ _ _ _ H).
Qed.

Lemma outputCopy_run (σ : world) (a : ptr) (acc : accumulator) :
  accumulators σ !! a = Some acc →
  wf_slice σ (output acc) = true →
  outputCopy a σ =
  (Return {| base := length (arrays σ); len := len (output acc);
             cap := len (output acc) |},
   {| Ts := Ts σ; accumulators := accumulators σ;
      arrays := arrays σ ++ [view σ (output acc)]; tests := tests σ |}).
Proof.
  intros Hacc Hwf. unfold outputCopy.
  rewrite run_bind, (get_accumulator_run _ _ _ Hacc).
  rewrite run_bind. unfold make at 1. rewrite run_bind.
  unfold new_array at 1. rewrite run_ret.
  set (n := len (output acc)). set (b := length (arrays σ)).
  set (out := {| base := b; len := n; cap := n |}).
  destruct (decide (n = 0)) as [Hn|Hn].
  - rewrite run_bind. rewrite Hn at 1. cbn [seq copy_range].
    rewrite run_ret, run_ret. unfold view. fold n. rewrite Hn. simpl.
    done.
  - apply wf_slice_inv in Hwf as [Hle [Hcap|(arr & Harr & Hlen)]];
      [fold n in Hle; lia|].
    assert (base (output acc) < b) as Hlt by (by apply lookup_lt_Some in Harr).
    rewrite run_bind.
    rewrite (copy_range_run (output acc) out arr n 0 _
               (replicate n EmptyString)); simpl.
    + rewrite run_ret. f_equal. f_equal.
      unfold view. rewrite Harr. simpl. fold n.
      rewrite drop_replicate, Nat.sub_diag. simpl. rewrite app_nil_r.
      rewrite insert_app_r_alt by (unfold b; lia).
      unfold b. by rewrite Nat.sub_diag.
    + by rewrite lookup_app_l.
    + rewrite lookup_app_r by (unfold b; lia). unfold b.
      by rewrite Nat.sub_diag.
    + lia.
    + done.
    + lia.
    + done.
    + by rewrite length_replicate.
Qed.

Section accumulator_runs.
Context {any : Type} `{!GoEnv any}.

Lemma log_run (σ : world) (a : ptr) (acc : accumulator) (s : string) :
  accumulators σ !! a = Some acc →
  wf_slice σ (output acc) = true →
  ∃ σ' o,
    log a s σ = (Return (), σ') ∧
    Ts σ' = Ts σ ∧ tests σ' = tests σ ∧
    accumulators σ' =
      <[a := {| failCount := failCount acc; output := o |}]>
        (accumulators σ) ∧
    view σ' o = view σ (output acc) ++ [strings.TrimSpace s] ∧
    wf_slice σ' o = true.
Proof.
  intros Hacc Hwf. unfold log.
  rewrite run_bind, (get_accumulator_run _ _ _ Hacc).
  destruct (append_run σ (output acc) (strings.TrimSpace s) Hwf)
    as (σ1 & o & Happ & HT & HA & Ht & Hview & Hwf').
  rewrite run_bind, Happ.
  rewrite <- HA in Hacc.
  rewrite (put_accumulator_run _ _ _ _ Hacc).
  eexists _, o. split; [reflexivity|]. simpl.
  rewrite HA. repeat split; try done.
Qed.

(** A message is logged, after a failure is counted or not: the steps the
    facade's methods share. *)
Lemma log_recorded (σ : world) (a : ptr) (acc : accumulator) (s : string) :
  accumulators σ !! a = Some acc →
  wf_slice σ (output acc) = true →
  ∃ σ',
    log a s σ = (Return (), σ') ∧
    Ts σ' = Ts σ ∧ tests σ' = tests σ ∧
    recorded σ σ' a false [strings.TrimSpace s].
Proof.
  intros Hacc Hwf.
  destruct (log_run σ a acc s Hacc Hwf)
    as (σ' & o & Hlog & HT & Ht & HA & Hview & _).
  exists σ'. repeat split; try done.
  exists acc, {| failCount := failCount acc; output := o |}.
  repeat split; try done.
  rewrite HA. apply list_lookup_insert_eq. by apply lookup_lt_Some in Hacc.
Qed.

Lemma count_log_recorded (σ : world) (a : ptr) (acc : accumulator)
  (s : string) :
  accumulators σ !! a = Some acc →
  wf_slice σ (output acc) = true →
  ∃ σ1 σ',
    incFailCount a σ = (Return (), σ1) ∧
    log a s σ1 = (Return (), σ') ∧
    Ts σ' = Ts σ ∧ tests σ' = tests σ ∧
    recorded σ σ' a true [strings.TrimSpace s].
Proof.
  intros Hacc Hwf.
  pose proof (lookup_lt_Some _ _ _ Hacc) as Hlt.
  eexists _. rewrite (incFailCount_run _ _ _ Hacc).
  set (acc1 := {| failCount := int_add (failCount acc) 1;
                  output := output acc |}).
  set (σ1 := {| Ts := Ts σ;
                accumulators := <[a := acc1]> (accumulators σ);
                arrays := arrays σ; tests := tests σ |}).
  assert (accumulators σ1 !! a = Some acc1) as Hacc1
    by (by apply list_lookup_insert_eq).
  destruct (log_run σ1 a acc1 s Hacc1 Hwf)
    as (σ' & o & Hlog & HT & Ht & HA & Hview & _).
  exists σ'. repeat split; try done.
  exists acc, {| failCount := failCount acc1; output := o |}.
  split; [done|]. split; [|split; [apply incremented_int_add|done]].
  rewrite HA. apply list_lookup_insert_eq.
  simpl. by rewrite length_insert.
Qed.

End accumulator_runs.

(** *** The host *)

Lemma testing_Fail_run (σ : world) (c : ptr) (h : testingT) :
  tests σ !! c = Some h →
  testing.Fail c σ =
  (Return (),
   {| Ts := Ts σ; accumulators := accumulators σ; arrays := arrays σ;
      tests := <[c := {| failed := true; skipped := skipped h |}]> (tests σ) |}).
Proof.
  intros H. unfold testing.Fail, get_test, put_test.
  rewrite run_bind. by rewrite !H.
Qed.

Lemma testing_FailNow_run (σ : world) (c : ptr) (h : testingT) :
  tests σ !! c = Some h →
  testing.FailNow c σ =
  (Goexit,
   {| Ts := Ts σ; accumulators := accumulators σ; arrays := arrays σ;
      tests := <[c := {| failed := true; skipped := skipped h |}]> (tests σ) |}).
Proof.
  intros H. unfold testing.FailNow.
  by rewrite run_bind, (testing_Fail_run _ _ _ H).
Qed.

Lemma testing_SkipNow_run (σ : world) (c : ptr) (h : testingT) :
  tests σ !! c = Some h →
  testing.SkipNow c σ =
  (Goexit,
   {| Ts := Ts σ; accumulators := accumulators σ; arrays := arrays σ;
      tests := <[c := {| failed := failed h; skipped := true |}]> (tests σ) |}).
Proof.
  intros H. unfold testing.SkipNow, get_test, put_test.
  rewrite run_bind. rewrite H. rewrite run_bind. by rewrite H.
Qed.

(** Cells that are added leave the slices of the world as they were. *)
Lemma view_more_arrays (σ σ' : world) (s : slice) (more : list (list string)) :
  wf_slice σ s = true → arrays σ' = arrays σ ++ more →
  view σ' s = view σ s ∧ wf_slice σ' s = true.
Proof.
  intros Hwf Harr.
  destruct (wf_slice_inv _ _ Hwf) as [Hle [Hcap|(arr & Ha & Hlen)]].
  - split.
    + unfold view. replace (len s) with 0 by lia. by rewrite !take_0.
    + unfold wf_slice. rewrite (bool_decide_eq_true_2 _ Hle).
      by rewrite (bool_decide_eq_true_2 _ Hcap).
  - assert (arrays σ' !! base s = Some arr) as Ha'.
    { rewrite Harr. rewrite lookup_app_l; [done|]. by eapply lookup_lt_Some. }
    split.
    + unfold view. by rewrite Ha, Ha'.
    + by eapply wf_slice_intro.
Qed.

(** [NewCase] on a host test in cell [c] gives a handle with uplevel 1, no
    label, the case name, a new accumulator with no failure and an empty
    log; the hypotheses of the theorems below on the handle, its
    accumulator and its test hold of it. *)
Lemma NewCase_creates (σ : world) (c : ptr) (name : string) (hc : testingT) :
  tests σ !! c = Some hc →
  ∃ t σ' acc,
    NewCase c name σ = (Return t, σ') ∧
    Ts σ !! t = None ∧
    Ts σ' !! t =
      Some {| test := c; context := length (accumulators σ);
              caseName := name; label := EmptyString; callDepth := 1 |} ∧
    accumulators σ !! length (accumulators σ) = None ∧
    accumulators σ' !! length (accumulators σ) = Some acc ∧
    failCount acc = 0%Z ∧ view σ' (output acc) = [] ∧
    wf_slice σ' (output acc) = true ∧
    tests σ' !! c = Some hc.
Proof.
  intros Hc.
  exists (length (Ts σ)). eexists.
  exists {| failCount := 0; output := nil_slice |}.
  split; [reflexivity|]. simpl.
  split; [by apply lookup_ge_None_2|].
  split; [rewrite lookup_app_r by lia; by rewrite Nat.sub_diag|].
  split; [by apply lookup_ge_None_2|].
  split; [rewrite lookup_app_r by lia; by rewrite Nat.sub_diag|].
  done.
Qed.

(** ** The claims *)

(** C3. [Done] returns the summary line, a newline, and the messages of the
    log joined by newlines.  The summary line names the case and says
    "all tests passed" for a fail count of 0, "1 test failed" for 1, and
    "k tests failed" for a count k of 2 or more.  [Done] leaves the
    accumulator as it was: same cell contents, same log. *)
Theorem Done_reports_summary_and_log (σ : world) (t : ptr) (h : T)
  (acc : accumulator) :
  Ts σ !! t = Some h →
  accumulators σ !! context h = Some acc →
  wf_slice σ (output acc) = true →
  ∃ line σ',
    Done t σ =
      (Return (line +:+ nl +:+ strings.Join (view σ (output acc)) nl), σ') ∧
    (failCount acc = 0%Z → line = caseName h +:+ ": all tests passed") ∧
    (failCount acc = 1%Z → line = caseName h +:+ ": 1 test failed") ∧
    ((2 ≤ failCount acc)%Z →
     line = caseName h +:+ ": " +:+ pretty (failCount acc) +:+ " tests failed") ∧
    Ts σ' = Ts σ ∧ accumulators σ' = accumulators σ ∧ tests σ' = tests σ ∧
    view σ' (output acc) = view σ (output acc) ∧
    wf_slice σ' (output acc) = true.
Proof.
  intros Ht Hacc Hwf.
  exists (summary_line (caseName h) (failCount acc)).
  eexists. split; [|split; [|split; [|split]]].
  - unfold Done. rewrite run_bind, (get_T_run _ _ _ Ht).
    rewrite run_bind. unfold summary at 1.
    rewrite run_bind, (getFailCount_run _ _ _ Hacc).
    assert (∀ σ0 : world,
      (if decide (failCount acc = 0%Z)
       then mret (caseName h +:+ ": all tests passed" +:+ nl)
       else if decide (failCount acc = 1%Z)
       then mret (caseName h +:+ ": " +:+ pretty (failCount acc) +:+
                  " test failed" +:+ nl)
       else mret (caseName h +:+ ": " +:+ pretty (failCount acc) +:+
                  " tests failed" +:+ nl) : M string) σ0 =
      (Return (summary_line (caseName h) (failCount acc) +:+ nl), σ0)) as ->.
    { intros σ0. unfold summary_line.
      repeat case_decide; rewrite run_ret, ?app_assoc_s; try done.
      replace (failCount acc) with 1%Z by done. done. }
    rewrite run_bind, (outputCopy_run _ _ _ Hacc Hwf).
    rewrite run_bind, elements_run.
    + rewrite run_ret. simpl. unfold view at 1. simpl.
      rewrite lookup_app_r by lia. rewrite Nat.sub_diag. simpl.
      rewrite take_ge; [by rewrite app_assoc_s|].
      unfold view. rewrite length_take. lia.
    + eapply wf_slice_intro; simpl; [done| |].
      * rewrite lookup_app_r by lia. by rewrite Nat.sub_diag.
      * unfold view. rewrite length_take.
        apply wf_slice_inv in Hwf as [Hle [Hcap|(arr & -> & Hlen)]];
          simpl; lia.
  - unfold summary_line. intros ->. done.
  - unfold summary_line. intros ->. done.
  - unfold summary_line. intros Hk. by rewrite !decide_False by lia.
  - simpl. repeat split; try done;
      by apply (view_more_arrays σ _ _ [view σ (output acc)]).
Qed.

(** C8. Two calls of [Output] with no write between them return slices that
    hold the same strings, those of the log.  The slice returned is a copy:
    it shares no backing array with the log, and a store into it changes
    the copy and leaves the accumulator and its log as they were. *)
Theorem Output_is_a_defensive_copy (σ : world) (t : ptr) (h : T)
  (acc : accumulator) :
  Ts σ !! t = Some h →
  accumulators σ !! context h = Some acc →
  wf_slice σ (output acc) = true →
  ∃ out1 σ1 out2 σ2,
    via t Output σ = (Return out1, σ1) ∧
    via t Output σ1 = (Return out2, σ2) ∧
    view σ2 out1 = view σ2 out2 ∧
    view σ2 out1 = view σ (output acc) ∧
    accumulators σ2 = accumulators σ ∧
    view σ2 (output acc) = view σ (output acc) ∧
    (0 < cap (output acc) → base out1 ≠ base (output acc)) ∧
    ∀ (i : nat) (v : string),
      let σ' := snd (store out1 i v σ2) in
      accumulators σ' = accumulators σ ∧
      view σ' (output acc) = view σ (output acc) ∧
      (i < len out1 →
       fst (store out1 i v σ2) = Return () ∧
       view σ' out1 = <[i := v]> (view σ (output acc))).
Proof.
  intros Ht Hacc Hwf.
  set (l := view σ (output acc)).
  set (σ1 := {| Ts := Ts σ; accumulators := accumulators σ;
                arrays := arrays σ ++ [l]; tests := tests σ |}).
  set (σ2 := {| Ts := Ts σ; accumulators := accumulators σ;
                arrays := (arrays σ ++ [l]) ++ [l]; tests := tests σ |}).
  set (out1 := {| base := length (arrays σ); len := len (output acc);
                  cap := len (output acc) |}).
  set (out2 := {| base := length (arrays σ ++ [l]); len := len (output acc);
                  cap := len (output acc) |}).
  destruct (view_more_arrays σ σ1 (output acc) [l] Hwf eq_refl)
    as [Hview1 Hwf1].
  assert (arrays σ2 = arrays σ ++ [l; l]) as Harr2
    by (simpl; by rewrite <- app_assoc).
  destruct (view_more_arrays σ σ2 (output acc) [l; l] Hwf Harr2)
    as [Hview2 Hwf2].
  assert (length l = len (output acc)) as Hlen.
  { unfold l, view. rewrite length_take.
    apply wf_slice_inv in Hwf as [Hle [Hcap|(arr & -> & Hl)]]; simpl; lia. }
  assert (arrays σ2 !! base out1 = Some l) as Hout1.
  { simpl. rewrite lookup_app_l by (rewrite length_app; simpl; lia).
    rewrite lookup_app_r by lia. by rewrite Nat.sub_diag. }
  assert (view σ2 out1 = l) as Hv1.
  { unfold view. rewrite Hout1. simpl. by rewrite take_ge by lia. }
  assert (view σ2 out2 = l) as Hv2.
  { unfold view. simpl. rewrite lookup_app_r by lia.
    rewrite Nat.sub_diag. simpl. by rewrite take_ge by lia. }
  exists out1, σ1, out2, σ2. split; [|split; [|split; [|split; [|split; [|split; [|split]]]]]].
  - unfold via, Output. rewrite run_bind, (get_T_run _ _ _ Ht).
    by rewrite (outputCopy_run _ _ _ Hacc Hwf).
  - unfold via, Output. rewrite run_bind, (get_T_run σ1 _ _ Ht).
    rewrite (outputCopy_run σ1 _ _ Hacc Hwf1). by rewrite Hview1.
  - by rewrite Hv1, Hv2.
  - done.
  - done.
  - done.
  - intros Hcap. simpl.
    apply wf_slice_inv in Hwf as [_ [?|(arr & Harr & _)]]; [lia|].
    apply lookup_lt_Some in Harr. lia.
  - intros i v. unfold store. case_decide as Hi.
    + rewrite run_bind, (get_array_run _ _ _ Hout1).
      rewrite (put_array_run _ _ _ _ Hout1). simpl.
      split; [done|]. split.
      * apply wf_slice_inv in Hwf as [Hle [Hcap|(arr & Harr & Hl)]].
        { simpl in Hi. lia. }
        unfold l, view at 1 3. simpl.
        rewrite list_lookup_insert_ne
          by (apply lookup_lt_Some in Harr; lia).
        rewrite <- app_assoc.
        rewrite lookup_app_l by (by eapply lookup_lt_Some). done.
      * intros _. split; [done|]. unfold view at 1. simpl.
        rewrite list_lookup_insert_eq
          by (rewrite !length_app; simpl; lia).
        simpl. rewrite take_ge by (rewrite length_insert; lia). done.
    + simpl. split; [done|]. split; [done|]. intros Hlt. done.
Qed.

(** The string [decorate] builds, piece by piece. *)
Lemma decorate_shape (frames : callers) (t : T) (s : string) :
  ∃ file line body,
    decorate frames t s =
      tab +:+ file +:+ ":" +:+ pretty line +:+ ": " +:+ label t +:+
      indent_continuation body +:+ nl ∧
    without_trailing_newline s body ∧
    match frames (int_add 1 (callDepth t)) with
    | Some (f, l) => final_segment f file ∧ line = l
    | None => file = "???" ∧ line = 1%Z
    end.
Proof.
  destruct (message_lines_spec s) as (body & Hbody & Hlines).
  unfold decorate. rewrite Hlines, write_lines_Split.
  destruct (frames (int_add 1 (callDepth t))) as [[f l]|].
  - exists (truncate_file f), l, body. repeat split; try done.
    + by rewrite !app_assoc_s.
    + apply truncate_file_spec.
  - exists "???", 1%Z, body. repeat split; try done.
Qed.

(** C4. For every message, [decorate] gives one tab, the file, a colon, the
    line, a colon and a space, the label, and the message without one
    trailing newline (if it ends in one), each of its newlines followed by
    one tab; then a newline.  When [runtime.Caller] fails, the file is
    "???" and the line is 1; otherwise the file is what follows the last
    "/" of the path, or, in a path without "/", what follows its last
    "\". *)
Theorem decorate_format (frames : callers) (t : T) (s : string) :
  ∃ file line body,
    decorate frames t s =
      tab +:+ file +:+ ":" +:+ pretty line +:+ ": " +:+ label t +:+
      indent_continuation body +:+ nl ∧
    without_trailing_newline s body ∧
    match frames (int_add 1 (callDepth t)) with
    | Some (path, l) => final_segment path file ∧ line = l
    | None => file = "???" ∧ line = 1%Z
    end.
Proof. apply decorate_shape. Qed.

Section claims.
Context {any : Type} `{!GoEnv any}.

Lemma Label_run (σ : world) (t : ptr) (h : T) (s : list any) :
  Ts σ !! t = Some h →
  via t (λ r, Label r s) σ =
  (Return (length (Ts σ)),
   {| Ts := Ts σ ++
        [ {| test := test h; context := context h; caseName := caseName h;
             label := strings.TrimSpace (fmt.Sprintln s) +:+ ": ";
             callDepth := callDepth h |} ];
      accumulators := accumulators σ; arrays := arrays σ;
      tests := tests σ |}).
Proof.
  intros Ht. unfold via. by rewrite run_bind, (get_T_run _ _ _ Ht).
Qed.

Lemma Uplevel_run (σ : world) (t : ptr) (h : T) (depth : Z) :
  Ts σ !! t = Some h →
  via t (λ r, Uplevel r depth) σ =
  (Return (length (Ts σ)),
   {| Ts := Ts σ ++
        [ {| test := test h; context := context h; caseName := caseName h;
             label := label h;
             callDepth := int_add (callDepth h) depth |} ];
      accumulators := accumulators σ; arrays := arrays σ;
      tests := tests σ |}).
Proof.
  intros Ht. unfold via. by rewrite run_bind, (get_T_run _ _ _ Ht).
Qed.

(** C6. [Label] and [Uplevel], called on a handle in cell [t], leave that
    cell (and every other handle) as it was and return a new cell; the new
    handle has the test, the accumulator and the case name of the receiver:
    no accumulator is made or changed.  [Label] keeps the uplevel,
    [Uplevel] keeps the label and sets the uplevel to the receiver's plus
    [depth] (as Go adds [int]s: exactly, unless the sum leaves the range of
    [int]). *)
Theorem derived_handles_share_and_do_not_mutate (σ : world) (t : ptr) (h : T)
  (s : list any) (depth : Z) :
  Ts σ !! t = Some h →
  ∃ p σ1 hp q σ2 hq,
    via t (λ r, Label r s) σ = (Return p, σ1) ∧
    via t (λ r, Uplevel r depth) σ = (Return q, σ2) ∧
    (* the receiver, and every handle there was, is unchanged *)
    Ts σ1 !! t = Some h ∧ Ts σ2 !! t = Some h ∧
    (∀ r hr, Ts σ !! r = Some hr → Ts σ1 !! r = Some hr ∧ Ts σ2 !! r = Some hr) ∧
    (* the result is a cell of its own *)
    p ≠ t ∧ q ≠ t ∧ Ts σ !! p = None ∧ Ts σ !! q = None ∧
    Ts σ1 !! p = Some hp ∧ Ts σ2 !! q = Some hq ∧
    (* same accumulator, test and case name *)
    context hp = context h ∧ context hq = context h ∧
    test hp = test h ∧ test hq = test h ∧
    caseName hp = caseName h ∧ caseName hq = caseName h ∧
    accumulators σ1 = accumulators σ ∧ accumulators σ2 = accumulators σ ∧
    arrays σ1 = arrays σ ∧ arrays σ2 = arrays σ ∧
    (* what changes *)
    callDepth hp = callDepth h ∧ label hq = label h ∧
    callDepth hq = int_add (callDepth h) depth ∧
    ((int_min ≤ callDepth h + depth ≤ int_max)%Z →
     callDepth hq = (callDepth h + depth)%Z).
Proof.
  intros Ht. pose proof (lookup_lt_Some _ _ _ Ht) as Hlt.
  eexists _, _,
    {| test := test h; context := context h; caseName := caseName h;
       label := strings.TrimSpace (fmt.Sprintln s) +:+ ": ";
       callDepth := callDepth h |}, _, _,
    {| test := test h; context := context h; caseName := caseName h;
       label := label h; callDepth := int_add (callDepth h) depth |}.
  split; [by apply Label_run|]. split; [by apply Uplevel_run|]. simpl.
  assert (∀ (r : ptr) (hr x : T),
            Ts σ !! r = Some hr → (Ts σ ++ [x]) !! r = Some hr) as Hold.
  { intros r hr x Hr. rewrite lookup_app_l; [done|]. by eapply lookup_lt_Some. }
  assert (∀ x : T, (Ts σ ++ [x]) !! length (Ts σ) = Some x) as Hnew.
  { intros x. rewrite lookup_app_r by lia. by rewrite Nat.sub_diag. }
  repeat split; try done; try (by apply Hold); try (by apply Hnew);
    try lia; try (by apply lookup_ge_None_2).
  apply int_add_in_range.
Qed.



(** C10. [Label] without operands gives a handle whose label is ": ", not
    the empty label; every message that handle decorates has ": " between
    the "file:line: " of its location and its text. *)
Theorem Label_without_operands (σ : world) (t : ptr) (h : T) :
  Ts σ !! t = Some h →
  ∃ p σ1 hp,
    via t (λ r, Label r []) σ = (Return p, σ1) ∧
    Ts σ1 !! p = Some hp ∧
    label hp = ": " ∧ label hp ≠ EmptyString ∧
    ∀ (frames : callers) (s : string),
    ∃ (file : string) (line : Z) (body : string),
      decorate frames hp s =
        tab +:+ file +:+ ":" +:+ pretty line +:+ ": " +:+
        (": " +:+ indent_continuation body +:+ nl) ∧
      without_trailing_newline s body.
Proof.
  intros Ht.
  eexists _, _,
    {| test := test h; context := context h; caseName := caseName h;
       label := strings.TrimSpace (fmt.Sprintln []) +:+ ": ";
       callDepth := callDepth h |}.
  split; [by apply Label_run|]. simpl.
  split; [rewrite lookup_app_r by lia; by rewrite Nat.sub_diag|].
  split; [done|]. split; [done|].
  intros frames s.
  destruct (decorate_shape frames
              {| test := test h; context := context h;
                 caseName := caseName h;
                 label := strings.TrimSpace (fmt.Sprintln []) +:+ ": ";
                 callDepth := callDepth h |} s)
    as (file & line & body & Hd & Hbody & _).
  exists file, line, body. split; [|done]. rewrite Hd. done.
Qed.

End claims.

Section facade.
Context {any : Type} `{!GoEnv any}.

Lemma diag_rendering (prefix : string) (value : any) :
  diag prefix value =
  (λ r, prefix +:+ ": " +:+ r +:+ nl) <$> rendering value.
Proof.
  unfold diag, rendering. destruct (is_nil value); [done|].
  destruct (KindOf value); simpl; try done;
    try (by rewrite !app_assoc_s).
  by destruct (assert_string value).
Qed.

Lemma recorded_later (σ σ1 σ' : world) (a : ptr) (counted : bool)
  (msgs : list string) :
  accumulators σ' = accumulators σ1 → arrays σ' = arrays σ1 →
  recorded σ σ1 a counted msgs → recorded σ σ' a counted msgs.
Proof.
  intros HA Harr (acc & acc' & H1 & H2 & H3 & H4).
  exists acc, acc'. rewrite HA. repeat split; try done.
  rewrite <- H4. unfold view. by rewrite Harr.
Qed.

Lemma counted_logged_tail (fin : M unit) (o : outcome unit)
  (mark : testingT → testingT) (σ : world) (a c : ptr) (acc : accumulator)
  (hc : testingT) (msg : string) :
  host_call fin c o mark →
  accumulators σ !! a = Some acc →
  wf_slice σ (output acc) = true →
  tests σ !! c = Some hc →
  ∃ σ',
    (incFailCount a;; log a msg;; fin) σ = (o, σ') ∧
    recorded σ σ' a true [strings.TrimSpace msg] ∧
    tests σ' !! c = Some (mark hc) ∧ Ts σ' = Ts σ.
Proof.
  intros Hfin Hacc Hwf Hc.
  destruct (count_log_recorded σ a acc msg Hacc Hwf)
    as (σ1 & σ2 & Hinc & Hlog & HT & Ht & Hrec).
  rewrite <- Ht in Hc.
  eexists. rewrite run_bind, Hinc, run_bind, Hlog, (Hfin _ _ Hc).
  split; [done|]. simpl. split; [by eapply recorded_later|].
  split; [|done]. apply list_lookup_insert_eq. by eapply lookup_lt_Some.
Qed.

Lemma logged_tail (fin : M unit) (o : outcome unit)
  (mark : testingT → testingT) (σ : world) (a c : ptr) (acc : accumulator)
  (hc : testingT) (msg : string) :
  host_call fin c o mark →
  accumulators σ !! a = Some acc →
  wf_slice σ (output acc) = true →
  tests σ !! c = Some hc →
  ∃ σ',
    (log a msg;; fin) σ = (o, σ') ∧
    recorded σ σ' a false [strings.TrimSpace msg] ∧
    tests σ' !! c = Some (mark hc) ∧ Ts σ' = Ts σ.
Proof.
  intros Hfin Hacc Hwf Hc.
  destruct (log_recorded σ a acc msg Hacc Hwf)
    as (σ1 & Hlog & HT & Ht & Hrec).
  rewrite <- Ht in Hc.
  eexists. rewrite run_bind, Hlog, (Hfin _ _ Hc).
  split; [done|]. simpl. split; [by eapply recorded_later|].
  split; [|done]. apply list_lookup_insert_eq. by eapply lookup_lt_Some.
Qed.

Lemma counted_tail (fin : M unit) (o : outcome unit)
  (mark : testingT → testingT) (σ : world) (a c : ptr) (acc : accumulator)
  (hc : testingT) :
  host_call fin c o mark →
  accumulators σ !! a = Some acc →
  tests σ !! c = Some hc →
  ∃ σ',
    (incFailCount a;; fin) σ = (o, σ') ∧
    recorded σ σ' a true [] ∧
    tests σ' !! c = Some (mark hc) ∧ Ts σ' = Ts σ.
Proof.
  intros Hfin Hacc Hc.
  eexists. rewrite run_bind, (incFailCount_run _ _ _ Hacc).
  rewrite (Hfin _ hc) by done.
  split; [done|]. simpl. split; [|split; [|done]].
  - eexists acc, _. split; [done|]. simpl.
    split; [apply list_lookup_insert_eq; by eapply lookup_lt_Some|].
    simpl. split; [apply incremented_int_add|]. by rewrite app_nil_r.
  - apply list_lookup_insert_eq. by eapply lookup_lt_Some.
Qed.

Lemma host_Fail (c : ptr) :
  host_call (testing.Fail c) c (Return ())
    (λ hc, {| failed := true; skipped := skipped hc |}).
Proof. intros σ0 hc Hc. by apply testing_Fail_run. Qed.

Lemma host_FailNow (c : ptr) :
  host_call (testing.FailNow c) c Goexit
    (λ hc, {| failed := true; skipped := skipped hc |}).
Proof. intros σ0 hc Hc. by apply testing_FailNow_run. Qed.

Lemma host_SkipNow (c : ptr) :
  host_call (testing.SkipNow c) c Goexit
    (λ hc, {| failed := failed hc; skipped := true |}).
Proof. intros σ0 hc Hc. by apply testing_SkipNow_run. Qed.

(** C7. On a handle whose accumulator and test are in place: [Skip] and
    [Skipf] append one decorated message, leave the fail count as it is,
    mark the test as skipped and stop; [Fail] and [FailNow] add one to the
    fail count and append nothing; [Error], [Errorf], [Fatal] and [Fatalf]
    add one to the fail count and append one decorated message.  The
    message stored is the decorated one, trimmed as [log] trims it. *)
Theorem facade_counts_and_messages (frames : callers) (σ : world) (t : ptr)
  (h : T) (acc : accumulator) (c : testingT) (args : list any)
  (format : string) :
  Ts σ !! t = Some h →
  accumulators σ !! context h = Some acc →
  wf_slice σ (output acc) = true →
  tests σ !! test h = Some c →
  (∃ σ', Skip frames t args σ = (Goexit, σ') ∧
         recorded σ σ' (context h) false
           [strings.TrimSpace (decorate frames h (fmt.Sprintln args))] ∧
         marked_skipped σ σ' (test h)) ∧
  (∃ σ', Skipf frames t format args σ = (Goexit, σ') ∧
         recorded σ σ' (context h) false
           [strings.TrimSpace (decorate frames h (Sprintf format args))] ∧
         marked_skipped σ σ' (test h)) ∧
  (∃ σ', Fail t σ = (Return (), σ') ∧
         recorded σ σ' (context h) true [] ∧
         marked_failed σ σ' (test h)) ∧
  (∃ σ', FailNow t σ = (Goexit, σ') ∧
         recorded σ σ' (context h) true [] ∧
         marked_failed σ σ' (test h)) ∧
  (∃ σ', Error frames t args σ = (Return (), σ') ∧
         recorded σ σ' (context h) true
           [strings.TrimSpace (decorate frames h (fmt.Sprintln args))] ∧
         marked_failed σ σ' (test h)) ∧
  (∃ σ', Errorf frames t format args σ = (Return (), σ') ∧
         recorded σ σ' (context h) true
           [strings.TrimSpace (decorate frames h (Sprintf format args))] ∧
         marked_failed σ σ' (test h)) ∧
  (∃ σ', Fatal frames t args σ = (Goexit, σ') ∧
         recorded σ σ' (context h) true
           [strings.TrimSpace (decorate frames h (fmt.Sprintln args))] ∧
         marked_failed σ σ' (test h)) ∧
  (∃ σ', Fatalf frames t format args σ = (Goexit, σ') ∧
         recorded σ σ' (context h) true
           [strings.TrimSpace (decorate frames h (Sprintf format args))] ∧
         marked_failed σ σ' (test h)).
Proof.
  intros Ht Hacc Hwf Hc.
  repeat split.
  - destruct (logged_tail _ _ _ σ _ _ acc c
                (decorate frames h (fmt.Sprintln args))
                (host_SkipNow (test h)) Hacc Hwf Hc)
      as (σ' & Hrun & Hrec & Hmark & _).
    exists σ'. unfold Skip. rewrite run_bind, (get_T_run _ _ _ Ht).
    split; [done|]. split; [done|]. by exists c.
  - destruct (logged_tail _ _ _ σ _ _ acc c
                (decorate frames h (Sprintf format args))
                (host_SkipNow (test h)) Hacc Hwf Hc)
      as (σ' & Hrun & Hrec & Hmark & _).
    exists σ'. unfold Skipf. rewrite run_bind, (get_T_run _ _ _ Ht).
    split; [done|]. split; [done|]. by exists c.
  - destruct (counted_tail _ _ _ σ _ _ acc c
                (host_Fail (test h)) Hacc Hc)
      as (σ' & Hrun & Hrec & Hmark & _).
    exists σ'. unfold Fail. rewrite run_bind, (get_T_run _ _ _ Ht).
    split; [done|]. split; [done|]. by exists c.
  - destruct (counted_tail _ _ _ σ _ _ acc c
                (host_FailNow (test h)) Hacc Hc)
      as (σ' & Hrun & Hrec & Hmark & _).
    exists σ'. unfold FailNow. rewrite run_bind, (get_T_run _ _ _ Ht).
    split; [done|]. split; [done|]. by exists c.
  - destruct (counted_logged_tail _ _ _ σ _ _ acc c
                (decorate frames h (fmt.Sprintln args))
                (host_Fail (test h)) Hacc Hwf Hc)
      as (σ' & Hrun & Hrec & Hmark & _).
    exists σ'. unfold Error. rewrite run_bind, (get_T_run _ _ _ Ht).
    split; [done|]. split; [done|]. by exists c.
  - destruct (counted_logged_tail _ _ _ σ _ _ acc c
                (decorate frames h (Sprintf format args))
                (host_Fail (test h)) Hacc Hwf Hc)
      as (σ' & Hrun & Hrec & Hmark & _).
    exists σ'. unfold Errorf. rewrite run_bind, (get_T_run _ _ _ Ht).
    split; [done|]. split; [done|]. by exists c.
  - destruct (counted_logged_tail _ _ _ σ _ _ acc c
                (decorate frames h (fmt.Sprintln args))
                (host_FailNow (test h)) Hacc Hwf Hc)
      as (σ' & Hrun & Hrec & Hmark & _).
    exists σ'. unfold Fatal. rewrite run_bind, (get_T_run _ _ _ Ht).
    split; [done|]. split; [done|]. by exists c.
  - destruct (counted_logged_tail _ _ _ σ _ _ acc c
                (decorate frames h (Sprintf format args))
                (host_FailNow (test h)) Hacc Hwf Hc)
      as (σ' & Hrun & Hrec & Hmark & _).
    exists σ'. unfold Fatalf. rewrite run_bind, (get_T_run _ _ _ Ht).
    split; [done|]. split; [done|]. by exists c.
Qed.

End facade.

Section equality.
Context {any : Type} `{!GoEnv any}.

(** The steps [Equal] and [Unequal] share once they have a failure to
    report: count it, log the decorated message, mark the test. *)
Lemma report_run (frames : callers) (σ : world) (t : ptr) (h : T)
  (acc : accumulator) (c : testingT) (d1 d2 : option string)
  (msg : string → string → string) :
  Ts σ !! t = Some h →
  accumulators σ !! context h = Some acc →
  wf_slice σ (output acc) = true →
  tests σ !! test h = Some c →
  ∀ x y, d1 = Some x → d2 = Some y →
  ∃ σ',
    (h ← get_T t;
     incFailCount (context h);;
     a ← lift d1; b ← lift d2;
     log (context h) (decorate frames h (msg a b));;
     testing.Fail (test h)) σ = (Return (), σ') ∧
    recorded σ σ' (context h) true
      [strings.TrimSpace (decorate frames h (msg x y))] ∧
    marked_failed σ σ' (test h).
Proof.
  intros Ht Hacc Hwf Hc x y -> ->.
  destruct (counted_logged_tail _ _ _ σ _ _ acc c
              (decorate frames h (msg x y))
              (host_Fail (test h)) Hacc Hwf Hc)
    as (σ' & Hrun & Hrec & Hmark & _).
  exists σ'. rewrite run_bind, (get_T_run _ _ _ Ht).
  split; [exact Hrun|]. split; [done|]. by exists c.
Qed.

(** C9. When an operand is nil and both operands can be rendered, the
    message of [Unequal] renders the first operand after "   Got: " and the
    second after "Got: "; the message of [Equal] renders the first operand
    after "   Got: " and the second after "Wanted: ". *)
Theorem nil_operand_messages (frames : callers) (σ : world) (t : ptr)
  (h : T) (acc : accumulator) (c : testingT) (got want : any)
  (r1 r2 : string) :
  Ts σ !! t = Some h →
  accumulators σ !! context h = Some acc →
  wf_slice σ (output acc) = true →
  tests σ !! test h = Some c →
  is_nil got || is_nil want = true →
  rendering got = Some r1 →
  rendering want = Some r2 →
  (∃ σ',
     Unequal frames t got want σ = (Return (), σ') ∧
     recorded σ σ' (context h) true
       [strings.TrimSpace
          (decorate frames h
             ("Can't safely compare nil values for equality:" +:+ nl +:+
              ("   Got: " +:+ r1 +:+ nl) +:+ ("Got: " +:+ r2 +:+ nl)))]) ∧
  (∃ σ',
     Equal frames t got want σ = (Return (), σ') ∧
     recorded σ σ' (context h) true
       [strings.TrimSpace
          (decorate frames h
             ("Can't safely compare nil values for equality:" +:+ nl +:+
              ("   Got: " +:+ r1 +:+ nl) +:+ ("Wanted: " +:+ r2 +:+ nl)))]).
Proof.
  intros Ht Hacc Hwf Hc Hnil Hr1 Hr2. split.
  - destruct (report_run frames σ t h acc c
                (diag "   Got" got) (diag "Got" want)
                (λ a b, "Can't safely compare nil values for equality:" +:+
                        nl +:+ a +:+ b)
                Ht Hacc Hwf Hc
                ("   Got: " +:+ r1 +:+ nl) ("Got: " +:+ r2 +:+ nl))
      as (σ' & Hrun & Hrec & _).
    { by rewrite diag_rendering, Hr1. }
    { by rewrite diag_rendering, Hr2. }
    exists σ'. unfold Unequal. rewrite Hnil. by split.
  - destruct (report_run frames σ t h acc c
                (diag "   Got" got) (diag "Wanted" want)
                (λ a b, "Can't safely compare nil values for equality:" +:+
                        nl +:+ a +:+ b)
                Ht Hacc Hwf Hc
                ("   Got: " +:+ r1 +:+ nl) ("Wanted: " +:+ r2 +:+ nl))
      as (σ' & Hrun & Hrec & _).
    { by rewrite diag_rendering, Hr1. }
    { by rewrite diag_rendering, Hr2. }
    exists σ'. unfold Equal. rewrite Hnil. by split.
Qed.

End equality.

(** ** What the stored messages contain *)

Lemma indent_app (a b : string) :
  indent_continuation (a +:+ b) =
  indent_continuation a +:+ indent_continuation b.
Proof.
  induction a as [|c a IH]; [done|].
  rewrite app_cons. cbn [indent_continuation].
  destruct (Ascii.eqb c newline); rewrite IH.
  - by rewrite !app_assoc_s.
  - by rewrite app_cons.
Qed.

Lemma app_nl_inj (a b : string) : a +:+ nl = b +:+ nl → a = b.
Proof.
  revert b. induction a as [|x a IH]; intros [|y b] Heq; try done.
  - destruct b; discriminate Heq.
  - destruct a; discriminate Heq.
  - rewrite !app_cons in Heq. injection Heq as -> Heq. f_equal. by apply IH.
Qed.

(** A message that ends in a newline is decorated as a location followed
    by its body, indented, and a newline. *)
Lemma decorate_body (frames : callers) (h : T) (body : string) :
  ∃ loc, decorate frames h (body +:+ nl) =
         loc +:+ indent_continuation body +:+ nl.
Proof.
  destruct (decorate_shape frames h (body +:+ nl))
    as (file & line & body' & Hd & [Hb|[_ Hb]] & _).
  - apply app_nl_inj in Hb as <-.
    exists (tab +:+ file +:+ ":" +:+ pretty line +:+ ": " +:+ label h).
    rewrite Hd. by rewrite !app_assoc_s.
  - by destruct (Hb body).
Qed.

(** The two descriptions used for [decorate] each fix what they describe. *)

Lemma without_trailing_newline_unique (s b1 b2 : string) :
  without_trailing_newline s b1 → without_trailing_newline s b2 → b1 = b2.
Proof.
  intros [H1|[-> H1]] [H2|[-> H2]]; try done.
  - rewrite H1 in H2. by apply app_nl_inj.
  - by destruct (H2 b1).
  - by destruct (H1 b2).
Qed.

Lemma occurs_app (c : ascii) (a b : string) :
  occurs c (a +:+ b) ↔ occurs c a ∨ occurs c b.
Proof. unfold occurs. rewrite to_list_app. apply in_app_iff. Qed.

Lemma last_segment_unique (c : ascii) (a1 a2 b1 b2 : string) :
  a1 +:+ String c b1 = a2 +:+ String c b2 →
  ¬ occurs c b1 → ¬ occurs c b2 → b1 = b2.
Proof.
  revert a2. induction a1 as [|x a1 IH]; intros [|y a2] Heq H1 H2.
  - by injection Heq.
  - rewrite app_empty_l, app_cons in Heq. injection Heq as -> ->.
    exfalso. apply H1. apply occurs_app. right. apply occurs_cons. by left.
  - rewrite app_empty_l, app_cons in Heq. injection Heq as -> <-.
    exfalso. apply H2. apply occurs_app. right. apply occurs_cons. by left.
  - rewrite !app_cons in Heq. injection Heq as -> Heq. by eapply IH.
Qed.

Lemma final_segment_unique (file seg1 seg2 : string) :
  final_segment file seg1 → final_segment file seg2 → seg1 = seg2.
Proof.
  assert (∀ c dir seg, file = dir +:+ String c seg → occurs c file) as Hocc.
  { intros c dir seg ->. apply occurs_app. right. apply occurs_cons. by left. }
  intros [(d1 & E1 & N1)|[(S1 & d1 & E1 & N1)|(S1 & B1 & ->)]]
         [(d2 & E2 & N2)|[(S2 & d2 & E2 & N2)|(S2 & B2 & ->)]];
    try done;
    try (by exfalso; eauto).
  - rewrite E1 in E2. by eapply last_segment_unique.
  - rewrite E1 in E2. by eapply last_segment_unique.
Qed.

Lemma decorated_keeps (frames : callers) (h : T) (body a b mid : string)
  (c d : ascii) :
  plain c → plain d →
  indent_continuation body = a +:+ (String c mid +:+ String d EmptyString) +:+ b →
  ∃ pre post,
    strings.TrimSpace (decorate frames h (body +:+ nl)) =
    pre +:+ (String c mid +:+ String d EmptyString) +:+ post.
Proof.
  intros Hc Hd Hbody. destruct (decorate_body frames h body) as [loc ->].
  rewrite Hbody.
  replace (loc +:+ (a +:+ (String c mid +:+ String d EmptyString) +:+ b) +:+ nl)
    with ((loc +:+ a) +:+ (String c mid +:+ String d EmptyString) +:+ (b +:+ nl))
    by (by rewrite !app_assoc_s).
  by apply TrimSpace_keeps.
Qed.

Lemma plain_C : plain "C"%char. Proof. solve_plain. Qed.
Lemma plain_y : plain "y"%char. Proof. solve_plain. Qed.
Lemma plain_G : plain "G"%char. Proof. solve_plain. Qed.
Lemma plain_B : plain "B"%char. Proof. solve_plain. Qed.
Lemma plain_colon : plain ":"%char. Proof. solve_plain. Qed.

Lemma nil_message_contains (frames : callers) (h : T)
  (second r1 r2 : string) :
  contains
    (strings.TrimSpace
       (decorate frames h
          ("Can't safely compare nil values for equality:" +:+ nl +:+
           ("   Got: " +:+ r1 +:+ nl) +:+ (second +:+ ": " +:+ r2 +:+ nl))))
    "Can't safely compare nil values for equality".
Proof.
  replace ("Can't safely compare nil values for equality:" +:+ nl +:+
           ("   Got: " +:+ r1 +:+ nl) +:+ (second +:+ ": " +:+ r2 +:+ nl))
    with (("Can't safely compare nil values for equality" +:+
           (":" +:+ nl +:+ "   Got: " +:+ r1 +:+ nl +:+ second +:+ ": " +:+ r2))
          +:+ nl)
    by (by rewrite !app_assoc_s).
  destruct (decorated_keeps frames h
              ("Can't safely compare nil values for equality" +:+
               (":" +:+ nl +:+ "   Got: " +:+ r1 +:+ nl +:+ second +:+
                ": " +:+ r2))
              EmptyString
              (indent_continuation
                 (":" +:+ nl +:+ "   Got: " +:+ r1 +:+ nl +:+ second +:+
                  ": " +:+ r2))
              "an't safely compare nil values for equalit"
              "C"%char "y"%char plain_C plain_y)
    as (pre & post & ->).
  - by rewrite indent_app.
  - by exists pre, post.
Qed.

Lemma not_equal_message_contains (frames : callers) (h : T)
  (r1 r2 : string) :
  let m :=
    strings.TrimSpace
      (decorate frames h
         ("Values were not equal:" +:+ nl +:+
          ("   Got: " +:+ r1 +:+ nl) +:+ ("Wanted: " +:+ r2 +:+ nl))) in
  contains m "Got:" ∧ contains m "Wanted:".
Proof.
  replace ("Values were not equal:" +:+ nl +:+
           ("   Got: " +:+ r1 +:+ nl) +:+ ("Wanted: " +:+ r2 +:+ nl))
    with ((("Values were not equal:" +:+ nl +:+ "   ") +:+
           ("Got: " +:+ r1 +:+ nl +:+ "Wanted:") +:+ (" " +:+ r2)) +:+ nl)
    by (by rewrite !app_assoc_s).
  destruct (decorated_keeps frames h
              (("Values were not equal:" +:+ nl +:+ "   ") +:+
               ("Got: " +:+ r1 +:+ nl +:+ "Wanted:") +:+ (" " +:+ r2))
              (indent_continuation ("Values were not equal:" +:+ nl +:+ "   "))
              (indent_continuation (" " +:+ r2))
              ("ot: " +:+ indent_continuation r1 +:+ nl +:+ tab +:+ "Wanted")
              "G"%char ":"%char plain_G plain_colon)
    as (pre & post & Hm).
  - rewrite !indent_app. f_equal. f_equal.
    change (indent_continuation "Got: ") with "Got: ".
    change (indent_continuation nl) with (nl +:+ tab).
    change (indent_continuation "Wanted:") with "Wanted:".
    rewrite (app_cons "G" _ ":"), !app_assoc_s. reflexivity.
  - intros m. unfold m. rewrite Hm.
    replace (String "G"
               ("ot: " +:+ indent_continuation r1 +:+ nl +:+ tab +:+ "Wanted")
             +:+ String ":" EmptyString)
      with ("Got: " +:+ indent_continuation r1 +:+ nl +:+ tab +:+ "Wanted:")
      by (rewrite (app_cons "G" _ ":"), !app_assoc_s; reflexivity).
    split; apply contains_app_l, contains_app_r.
    + by exists EmptyString,
        (" " +:+ indent_continuation r1 +:+ nl +:+ tab +:+ "Wanted:").
    + exists ("Got: " +:+ indent_continuation r1 +:+ nl +:+ tab), EmptyString.
      rewrite !app_assoc_s. reflexivity.
Qed.

Lemma not_unequal_message_contains (frames : callers) (h : T) (r : string) :
  contains
    (strings.TrimSpace
       (decorate frames h
          ("Values were not unequal:" +:+ nl +:+ ("  Both: " +:+ r +:+ nl))))
    "Both:".
Proof.
  replace ("Values were not unequal:" +:+ nl +:+ ("  Both: " +:+ r +:+ nl))
    with ((("Values were not unequal:" +:+ nl +:+ "  ") +:+ "Both:" +:+
           (" " +:+ r)) +:+ nl)
    by (by rewrite !app_assoc_s).
  destruct (decorated_keeps frames h
              (("Values were not unequal:" +:+ nl +:+ "  ") +:+ "Both:" +:+
               (" " +:+ r))
              (indent_continuation ("Values were not unequal:" +:+ nl +:+ "  "))
              (indent_continuation (" " +:+ r))
              "oth" "B"%char ":"%char plain_B plain_colon)
    as (pre & post & ->).
  - by rewrite !indent_app.
  - by exists pre, post.
Qed.

Section equality_helpers.
Context {any : Type} {E : GoEnv any}.

(** When an operand is nil and both operands can be rendered, [Equal] and
    [Unequal] each count one failure, append one message, which contains
    "Can't safely compare nil values for equality", and mark the test as
    failed.  They do so without a structural comparison: another function
    in the place of [reflect.DeepEqual] gives the same run. *)
Theorem nil_operands_are_reported (frames : callers) (σ : world) (t : ptr)
  (h : T) (acc : accumulator) (c : testingT) (got want : any)
  (r1 r2 : string) (deep_equal : any → any → bool) :
  Ts σ !! t = Some h →
  accumulators σ !! context h = Some acc →
  wf_slice σ (output acc) = true →
  tests σ !! test h = Some c →
  is_nil got || is_nil want = true →
  rendering got = Some r1 →
  rendering want = Some r2 →
  (∃ σ' m,
     Equal frames t got want σ = (Return (), σ') ∧
     recorded σ σ' (context h) true [m] ∧
     contains m "Can't safely compare nil values for equality" ∧
     marked_failed σ σ' (test h)) ∧
  (∃ σ' m,
     Unequal frames t got want σ = (Return (), σ') ∧
     recorded σ σ' (context h) true [m] ∧
     contains m "Can't safely compare nil values for equality" ∧
     marked_failed σ σ' (test h)) ∧
  @Equal any (with_DeepEqual E deep_equal) frames t got want σ =
    @Equal any E frames t got want σ ∧
  @Unequal any (with_DeepEqual E deep_equal) frames t got want σ =
    @Unequal any E frames t got want σ.
Proof.
  intros Ht Hacc Hwf Hc Hnil Hr1 Hr2.
  split; [|split; [|split]].
  - destruct (report_run frames σ t h acc c
                (diag "   Got" got) (diag "Wanted" want)
                (λ a b, "Can't safely compare nil values for equality:" +:+
                        nl +:+ a +:+ b)
                Ht Hacc Hwf Hc
                ("   Got: " +:+ r1 +:+ nl) ("Wanted: " +:+ r2 +:+ nl))
      as (σ' & Hrun & Hrec & Hmark).
    { by rewrite diag_rendering, Hr1. }
    { by rewrite diag_rendering, Hr2. }
    eexists σ', _. unfold Equal. rewrite Hnil.
    split; [exact Hrun|]. split; [exact Hrec|]. split; [|done].
    apply (nil_message_contains frames h "Wanted").
  - destruct (report_run frames σ t h acc c
                (diag "   Got" got) (diag "Got" want)
                (λ a b, "Can't safely compare nil values for equality:" +:+
                        nl +:+ a +:+ b)
                Ht Hacc Hwf Hc
                ("   Got: " +:+ r1 +:+ nl) ("Got: " +:+ r2 +:+ nl))
      as (σ' & Hrun & Hrec & Hmark).
    { by rewrite diag_rendering, Hr1. }
    { by rewrite diag_rendering, Hr2. }
    eexists σ', _. unfold Unequal. rewrite Hnil.
    split; [exact Hrun|]. split; [exact Hrec|]. split; [|done].
    apply (nil_message_contains frames h "Got").
  - unfold Equal. cbn [is_nil with_DeepEqual]. by rewrite Hnil.
  - unfold Unequal. cbn [is_nil with_DeepEqual]. by rewrite Hnil.
Qed.

(** For operands that are not nil: when they are deeply equal, [Equal]
    leaves the world as it is and [Unequal] counts one failure and appends
    one message, which contains "Both:"; when they are not, [Unequal]
    leaves the world as it is and [Equal] counts one failure and appends
    one message, which contains "Got:" and "Wanted:".  The failures are
    those of operands that [diag] can render. *)
Theorem non_nil_operands_are_compared (frames : callers) (σ : world)
  (t : ptr) (h : T) (acc : accumulator) (c : testingT) (got want : any) :
  Ts σ !! t = Some h →
  accumulators σ !! context h = Some acc →
  wf_slice σ (output acc) = true →
  tests σ !! test h = Some c →
  is_nil got = false →
  is_nil want = false →
  (DeepEqual got want = true →
   Equal frames t got want σ = (Return (), σ) ∧
   ∀ r, rendering got = Some r →
        ∃ σ' m,
          Unequal frames t got want σ = (Return (), σ') ∧
          recorded σ σ' (context h) true [m] ∧
          contains m "Both:" ∧
          marked_failed σ σ' (test h)) ∧
  (DeepEqual got want = false →
   Unequal frames t got want σ = (Return (), σ) ∧
   ∀ r1 r2, rendering got = Some r1 → rendering want = Some r2 →
        ∃ σ' m,
          Equal frames t got want σ = (Return (), σ') ∧
          recorded σ σ' (context h) true [m] ∧
          contains m "Got:" ∧ contains m "Wanted:" ∧
          marked_failed σ σ' (test h)).
Proof.
  intros Ht Hacc Hwf Hc Hgot Hwant. split; intros Hde.
  - split.
    + unfold Equal. by rewrite Hgot, Hwant, Hde.
    + intros r Hr.
      destruct (counted_logged_tail _ _ _ σ _ _ acc c
                  (decorate frames h
                     ("Values were not unequal:" +:+ nl +:+
                      ("  Both: " +:+ r +:+ nl)))
                  (host_Fail (test h)) Hacc Hwf Hc)
        as (σ' & Hrun & Hrec & Hmark & _).
      eexists σ', _. unfold Unequal. rewrite Hgot, Hwant, Hde. simpl.
      rewrite run_bind, (get_T_run _ _ _ Ht).
      rewrite diag_rendering, Hr.
      split; [exact Hrun|]. split; [exact Hrec|].
      split; [apply not_unequal_message_contains|by exists c].
  - split.
    + unfold Unequal. by rewrite Hgot, Hwant, Hde.
    + intros r1 r2 Hr1 Hr2.
      destruct (report_run frames σ t h acc c
                  (diag "   Got" got) (diag "Wanted" want)
                  (λ a b, "Values were not equal:" +:+ nl +:+ a +:+ b)
                  Ht Hacc Hwf Hc
                  ("   Got: " +:+ r1 +:+ nl) ("Wanted: " +:+ r2 +:+ nl))
        as (σ' & Hrun & Hrec & Hmark).
      { by rewrite diag_rendering, Hr1. }
      { by rewrite diag_rendering, Hr2. }
      eexists σ', _. unfold Equal. rewrite Hgot, Hwant, Hde. simpl.
      split; [exact Hrun|]. split; [exact Hrec|].
      destruct (not_equal_message_contains frames h r1 r2) as [HG HW].
      by repeat split.
Qed.

End equality_helpers.

(** ** The program on the fragment of values *)

Example NewCase_sample_world :
  NewCase 0 "TestExample"
    {| Ts := []; accumulators := []; arrays := []; tests := [sample_test] |} =
  (Return 0, sample_world).
Proof. reflexivity. Qed.

Example failed_world_cells :
  Ts failed_world !! 0 = Some sample_handle ∧
  accumulators failed_world !! 0 = Some failed_accumulator ∧
  view failed_world (output failed_accumulator) =
    ["example_test.go:17: boom"] ∧
  tests failed_world !! 0 = Some {| failed := true; skipped := false |}.
Proof. by vm_compute. Qed.

Ltac solve_recorded :=
  eexists; split; [reflexivity|];
  eexists _, _; split; [reflexivity|]; split; [reflexivity|];
  split; [split; [reflexivity|intros _; reflexivity]|reflexivity].

(** The diagnostics the package documentation shows for its example. *)
Example Equal_1_2 :
  ∃ σ',
    Equal sample_frames 0 (IntV None 1) (IntV None 2) sample_world =
      (Return (), σ') ∧
    recorded sample_world σ' 0 true
      ["example_test.go:17: Values were not equal:" +:+ nl +:+ tab +:+
       "   Got: 1 (int)" +:+ nl +:+ tab +:+ "Wanted: 2 (int)"].
Proof. solve_recorded. Qed.

Example Equal_strings :
  ∃ σ',
    Equal sample_frames 0 (StringV None ("foo" +:+ tab +:+ "bar"))
      (StringV None ("foo" +:+ tab +:+ "baz")) sample_world =
      (Return (), σ') ∧
    recorded sample_world σ' 0 true
      ["example_test.go:17: Values were not equal:" +:+ nl +:+ tab +:+
       "   Got: " +:+ quote_mark +:+ "foo\tbar" +:+ quote_mark +:+ nl +:+
       tab +:+ "Wanted: " +:+ quote_mark +:+ "foo\tbaz" +:+ quote_mark].
Proof. solve_recorded. Qed.

Example Unequal_42_42 :
  ∃ σ',
    Unequal sample_frames 0 (IntV None 42) (IntV None 42) sample_world =
      (Return (), σ') ∧
    recorded sample_world σ' 0 true
      ["example_test.go:17: Values were not unequal:" +:+ nl +:+ tab +:+
       "  Both: 42 (int)"].
Proof. solve_recorded. Qed.

(** A helper one level down reports at the line of its caller: with
    [Uplevel(1)] the location is that of frame 3 of the sample stack. *)
Example Uplevel_Label_Error :
  ∃ p q σ',
    (p ← via 0 (λ r, Uplevel r 1);
     q ← via p (λ r, Label r [StringV None "Testing"; IntV None (-1)]);
     Error sample_frames q [StringV None "Value was not positive"];;
     mret (p, q)) sample_world = (Return (p, q), σ') ∧
    recorded sample_world σ' 0 true
      ["testing.go:1200: Testing -1: Value was not positive"].
Proof.
  eexists _, _, _; split; [reflexivity|].
  eexists _, _; split; [reflexivity|]; split; [reflexivity|].
  split; [split; [reflexivity|intros _; reflexivity]|reflexivity].
Qed.

(** C1, where the code departs from it. [Equal(nil, S("x"))] and
    [Unequal(nil, S("x"))], for [type S string], have a nil operand; they
    count one failure and then panic in [diag], at the type assertion
    [value.(string)], before any message is appended. *)
Theorem nil_and_defined_string_panic :
  is_nil NilV || is_nil (defined_string "x") = true ∧
  (∃ σ',
     Equal sample_frames 0 NilV (defined_string "x") sample_world =
       (Panic, σ') ∧
     recorded sample_world σ' 0 true []) ∧
  (∃ σ',
     Unequal sample_frames 0 NilV (defined_string "x") sample_world =
       (Panic, σ') ∧
     recorded sample_world σ' 0 true []).
Proof.
  split; [done|].
  split; (eexists; split; [reflexivity|]);
    (exists sample_accumulator, {| failCount := 1; output := nil_slice |});
    (split; [done|]; split; [done|]; split; [|done]);
    split; done.
Qed.

(** C2, where the code departs from it. For [type S string], the operands
    [S("a")] and [S("b")] are not nil and not deeply equal, and
    [Equal(S("a"), S("b"))] counts one failure and then panics in [diag]
    before any message is appended; [S("a")] is deeply equal to itself, and
    [Unequal(S("a"), S("a"))] does the same. *)
Theorem defined_strings_panic :
  is_nil (defined_string "a") = false ∧
  is_nil (defined_string "b") = false ∧
  DeepEqual (defined_string "a") (defined_string "b") = false ∧
  DeepEqual (defined_string "a") (defined_string "a") = true ∧
  (∃ σ',
     Equal sample_frames 0 (defined_string "a") (defined_string "b")
       sample_world = (Panic, σ') ∧
     recorded sample_world σ' 0 true []) ∧
  (∃ σ',
     Unequal sample_frames 0 (defined_string "a") (defined_string "a")
       sample_world = (Panic, σ') ∧
     recorded sample_world σ' 0 true []).
Proof.
  do 4 (split; [done|]).
  split; (eexists; split; [reflexivity|]);
    (exists sample_accumulator, {| failCount := 1; output := nil_slice |});
    (split; [done|]; split; [done|]; split; [|done]);
    split; done.
Qed.


(** *** The theorems at concrete inputs *)

Lemma Done_reports_summary_and_log_witness :
  ∃ σ',
    Done 0 failed_world =
    (Return ("TestExample: 1 test failed" +:+ nl +:+
             "example_test.go:17: boom"), σ').
Proof.
  destruct (Done_reports_summary_and_log failed_world 0 sample_handle
              failed_accumulator eq_refl eq_refl eq_refl)
    as (line & σ' & Hrun & _ & Hone & _).
  exists σ'. rewrite Hrun, (Hone eq_refl). reflexivity.
Defined.

Lemma Output_is_a_defensive_copy_witness :
  ∃ out1 σ1 out2 σ2,
    via 0 Output failed_world = (Return out1, σ1) ∧
    via 0 Output σ1 = (Return out2, σ2) ∧
    view σ2 out1 = ["example_test.go:17: boom"] ∧
    view σ2 out2 = ["example_test.go:17: boom"] ∧
    view (snd (store out1 0 "changed" σ2)) (output failed_accumulator) =
      ["example_test.go:17: boom"].
Proof.
  destruct (Output_is_a_defensive_copy failed_world 0 sample_handle
              failed_accumulator eq_refl eq_refl eq_refl)
    as (out1 & σ1 & out2 & σ2 & H1 & H2 & Heq & Hlog & _ & _ & _ & Hstore).
  exists out1, σ1, out2, σ2.
  split; [exact H1|]. split; [exact H2|].
  split; [by rewrite Hlog|]. split; [by rewrite <- Heq, Hlog|].
  destruct (Hstore 0 "changed") as (_ & Hview & _). by rewrite Hview.
Defined.

Lemma derived_handles_share_and_do_not_mutate_witness :
  ∃ p σ1 hp q σ2 hq,
    via 0 (λ r, Label r [StringV None "Checking"; IntV None 3]) sample_world =
      (Return p, σ1) ∧
    via 0 (λ r, Uplevel r 1) sample_world = (Return q, σ2) ∧
    Ts σ1 !! 0 = Some sample_handle ∧ Ts σ2 !! 0 = Some sample_handle ∧
    Ts σ1 !! p = Some hp ∧ Ts σ2 !! q = Some hq ∧
    context hp = 0 ∧ context hq = 0 ∧ callDepth hq = 2%Z.
Proof.
  destruct (@derived_handles_share_and_do_not_mutate value value_env sample_world 0
              sample_handle [StringV None "Checking"; IntV None 3] 1 eq_refl)
    as (p & σ1 & hp & q & σ2 & hq & H1 & H2 & H3 & H4 & _ & _ & _ & _ & _ &
        H5 & H6 & H7 & H8 & _ & _ & _ & _ & _ & _ & _ & _ & _ & _ & H9 & _).
  exists p, σ1, hp, q, σ2, hq. repeat split; try done.
Defined.


Lemma Label_without_operands_witness :
  ∃ p σ1 hp,
    via 0 (λ r, Label r ([] : list value)) sample_world = (Return p, σ1) ∧
    Ts σ1 !! p = Some hp ∧ label hp = ": ".
Proof.
  destruct (@Label_without_operands value value_env sample_world 0
              sample_handle eq_refl)
    as (p & σ1 & hp & H1 & H2 & H3 & _).
  by exists p, σ1, hp.
Defined.

Lemma facade_counts_and_messages_witness :
  (∃ σ', Skip sample_frames 0 [StringV None "later"] sample_world =
           (Goexit, σ') ∧
         recorded sample_world σ' 0 false ["example_test.go:17: later"]) ∧
  (∃ σ', Fail 0 sample_world = (Return (), σ') ∧
         recorded sample_world σ' 0 true []) ∧
  (∃ σ', Fatalf sample_frames 0 "stop at %v"
           [StringV None "later"] sample_world = (Goexit, σ') ∧
         recorded sample_world σ' 0 true
           ["example_test.go:17: stop at later"]).
Proof.
  destruct (@facade_counts_and_messages value value_env sample_frames sample_world 0
              sample_handle sample_accumulator sample_test
              [StringV None "later"] "stop at %v"
              eq_refl eq_refl eq_refl eq_refl)
    as ((σ1 & Hskip & Hrec1 & _) & _ & (σ2 & Hfail & Hrec2 & _) & _ & _ & _ &
        _ & (σ3 & Hfatalf & Hrec3 & _)).
  split; [by exists σ1|]. split; [by exists σ2|]. by exists σ3.
Defined.

Lemma nil_operand_messages_witness :
  (∃ σ',
     Unequal sample_frames 0 NilV NilV sample_world = (Return (), σ') ∧
     recorded sample_world σ' 0 true
       ["example_test.go:17: Can't safely compare nil values for equality:"
        +:+ nl +:+ tab +:+ "   Got: nil" +:+ nl +:+ tab +:+ "Got: nil"]) ∧
  (∃ σ',
     Equal sample_frames 0 NilV (IntV None 7) sample_world =
       (Return (), σ') ∧
     recorded sample_world σ' 0 true
       ["example_test.go:17: Can't safely compare nil values for equality:"
        +:+ nl +:+ tab +:+ "   Got: nil" +:+ nl +:+ tab +:+
        "Wanted: 7 (int)"]).
Proof.
  destruct (@nil_operand_messages value value_env sample_frames sample_world 0 sample_handle
              sample_accumulator sample_test NilV NilV "nil" "nil"
              eq_refl eq_refl eq_refl eq_refl eq_refl eq_refl eq_refl)
    as ((σ1 & Hrun1 & Hrec1) & _).
  destruct (@nil_operand_messages value value_env sample_frames sample_world 0 sample_handle
              sample_accumulator sample_test NilV (IntV None 7)
              "nil" "7 (int)"
              eq_refl eq_refl eq_refl eq_refl eq_refl eq_refl eq_refl)
    as (_ & (σ2 & Hrun2 & Hrec2)).
  split; [by exists σ1|by exists σ2].
Defined.

Lemma nil_operands_are_reported_witness :
  ∃ σ' m,
    Unequal sample_frames 0 NilV NilV sample_world = (Return (), σ') ∧
    recorded sample_world σ' 0 true [m] ∧
    contains m "Can't safely compare nil values for equality".
Proof.
  destruct (@nil_operands_are_reported value value_env sample_frames sample_world 0
              sample_handle sample_accumulator sample_test NilV NilV
              "nil" "nil" (λ _ _, false)
              eq_refl eq_refl eq_refl eq_refl eq_refl eq_refl eq_refl)
    as (_ & (σ' & m & Hrun & Hrec & Hm & _) & _).
  by exists σ', m.
Defined.

Lemma non_nil_operands_are_compared_witness :
  Equal sample_frames 0 (IntV None 42) (IntV None 42) sample_world =
    (Return (), sample_world) ∧
  (∃ σ' m,
     Unequal sample_frames 0 (IntV None 42) (IntV None 42) sample_world =
       (Return (), σ') ∧
     recorded sample_world σ' 0 true [m] ∧ contains m "Both:") ∧
  (∃ σ' m,
     Equal sample_frames 0 (IntV None 1) (IntV None 2) sample_world =
       (Return (), σ') ∧
     recorded sample_world σ' 0 true [m] ∧
     contains m "Got:" ∧ contains m "Wanted:").
Proof.
  destruct (@non_nil_operands_are_compared value value_env sample_frames sample_world 0
              sample_handle sample_accumulator sample_test
              (IntV None 42) (IntV None 42)
              eq_refl eq_refl eq_refl eq_refl eq_refl eq_refl)
    as [Hsame _].
  destruct (Hsame eq_refl) as [Hequal Hboth].
  destruct (Hboth "42 (int)" eq_refl) as (σ1 & m1 & Hrun1 & Hrec1 & Hm1 & _).
  destruct (@non_nil_operands_are_compared value value_env sample_frames sample_world 0
              sample_handle sample_accumulator sample_test
              (IntV None 1) (IntV None 2)
              eq_refl eq_refl eq_refl eq_refl eq_refl eq_refl)
    as [_ Hdiff].
  destruct (Hdiff eq_refl) as [_ Hgot].
  destruct (Hgot "1 (int)" "2 (int)" eq_refl eq_refl)
    as (σ2 & m2 & Hrun2 & Hrec2 & HG & HW & _).
  split; [exact Hequal|].
  split; [by exists σ1, m1|by exists σ2, m2].
Defined.

(** * More of the program *)

(** ** The entry that is stored *)

Lemma strip_prefix_plain (w rest : list ascii) (c : ascii) :
  w ≠ [] → c ∉ w → strings.strip_prefix w (c :: rest) = None.
Proof.
  destruct w as [|a w]; [done|]. intros _ Hc. simpl.
  destruct (Ascii.eqb_spec a c) as [->|]; [|done].
  exfalso. apply Hc. by left.
Qed.

Lemma strip_one_plain (ws : list (list ascii)) (rest : list ascii)
  (c : ascii) :
  Forall (λ w, w ≠ []) ws → Forall (λ w, c ∉ w) ws →
  strings.strip_one ws (c :: rest) = None.
Proof.
  induction 1 as [|w ws Hw _ IH]; [done|].
  intros Hc. apply Forall_cons in Hc as [Hcw Hc]. simpl.
  rewrite strip_prefix_plain by done. by apply IH.
Qed.

Lemma rev_whiteSpace_nonempty :
  Forall (λ w, w ≠ []) (map (@rev ascii) strings.whiteSpace).
Proof.
  apply Forall_map. eapply Forall_impl; [apply whiteSpace_nonempty|].
  intros w Hw Hr. apply Hw. simpl in Hr.
  by rewrite <- (rev_involutive w), Hr.
Qed.

Lemma trim_front_two (ws : list (list ascii)) (a c : ascii)
  (rest : list ascii) (n : nat) :
  strings.strip_one ws (a :: c :: rest) = Some (c :: rest) →
  strings.strip_one ws (c :: rest) = None →
  strings.trim_front ws (S (S n)) (a :: c :: rest) = c :: rest.
Proof.
  intros H1 H2.
  change (strings.trim_front ws (S (S n)) (a :: c :: rest))
    with (match strings.strip_one ws (a :: c :: rest) with
          | Some r => strings.trim_front ws (S n) r
          | None => a :: c :: rest
          end).
  rewrite H1.
  change (strings.trim_front ws (S n) (c :: rest))
    with (match strings.strip_one ws (c :: rest) with
          | Some r => strings.trim_front ws n r
          | None => c :: rest
          end).
  by rewrite H2.
Qed.

Lemma trimLeft_tab (c : ascii) (rest : list ascii) :
  plain c → strings.trimLeft ("009"%char :: c :: rest) = c :: rest.
Proof.
  intros Hc. unfold strings.trimLeft.
  change (length ("009"%char :: c :: rest)) with (S (S (length rest))).
  apply trim_front_two; [reflexivity|].
  by apply strip_one_plain; [apply whiteSpace_nonempty|].
Qed.

Lemma trimRight_newline (d : ascii) (x : list ascii) :
  plain d → strings.trimRight (x ++ [d; newline]) = x ++ [d].
Proof.
  intros Hd. unfold strings.trimRight.
  rewrite length_app, rev_app_distr.
  change (rev [d; newline] ++ rev x) with (newline :: d :: rev x).
  replace (length x + length [d; newline]) with (S (S (length x)))
    by (simpl; lia).
  rewrite trim_front_two; [| reflexivity |].
  - change (d :: rev x) with (rev [d] ++ rev x).
    by rewrite <- rev_app_distr, rev_involutive.
  - apply strip_one_plain; [apply rev_whiteSpace_nonempty|by apply plain_rev].
Qed.

(** Between the tab and the newline [decorate] adds, a text that starts
    and ends with plain bytes is stored as it is. *)
Lemma TrimSpace_tab_newline (c d : ascii) (mid : string) :
  plain c → plain d →
  strings.TrimSpace
    (tab +:+ (String c mid +:+ String d EmptyString) +:+ nl) =
  String c mid +:+ String d EmptyString.
Proof.
  intros Hc Hd. unfold strings.TrimSpace.
  assert (list_ascii_of_string
            (tab +:+ (String c mid +:+ String d EmptyString) +:+ nl) =
          "009"%char :: c :: list_ascii_of_string mid ++ [d; newline]) as ->.
  { rewrite !to_list_app. cbn [list_ascii_of_string app].
    by rewrite <- app_assoc. }
  rewrite (trimLeft_tab c _ Hc).
  change (c :: list_ascii_of_string mid ++ [d; newline])
    with ((c :: list_ascii_of_string mid) ++ [d; newline]).
  rewrite (trimRight_newline d _ Hd).
  rewrite of_list_app. cbn [string_of_list_ascii].
  by rewrite string_of_list_ascii_of_string.
Qed.

Lemma plain_not_newline (d : ascii) : plain d → d ≠ newline.
Proof.
  intros Hd ->. unfold plain, strings.whiteSpace in Hd.
  apply Forall_cons in Hd as [_ Hd]. apply Forall_cons in Hd as [Hd _].
  apply Hd. by left.
Qed.

Lemma app_snoc_inj (a b : string) (x y : ascii) :
  a +:+ String x EmptyString = b +:+ String y EmptyString → a = b ∧ x = y.
Proof.
  revert b. induction a as [|c a IH]; intros [|e b] Heq.
  - by injection Heq as ->.
  - destruct b; discriminate Heq.
  - destruct a; discriminate Heq.
  - rewrite !app_cons in Heq. injection Heq as -> Heq.
    apply IH in Heq as [-> ->]. done.
Qed.

Lemma decorate_location (frames : callers) (h : T) (s : string) :
  decorate frames h s =
  tab +:+
  (fst (location frames h) +:+ ":" +:+ pretty (snd (location frames h)) +:+
   ": " +:+ label h) +:+
  write_lines 0 (message_lines s) +:+ nl.
Proof.
  unfold decorate, location.
  by destruct (frames (int_add 1 (callDepth h))) as [[file line]|].
Qed.

Lemma starts_plain_head (file rest : string) :
  starts_plain file →
  ∃ c mid, plain c ∧ file +:+ ":" +:+ rest = String c mid.
Proof.
  destruct file as [|c file]; simpl; intros Hc.
  - exists ":"%char, rest. split; [solve_plain|done].
  - by exists c, (file +:+ ":" +:+ rest).
Qed.

(** What [log] stores for a decorated message.  The message without its
    trailing newline ends with a plain byte and the file name starts with
    one (or is empty): what is stored is the file, a colon, the line, a
    colon and a space, the label, and the message with a tab after each of
    its newlines; the tab in front and the newline at the end, which
    [decorate] adds, are trimmed. *)
Lemma trimmed_decorate (frames : callers) (h : T) (msg body b0 : string)
  (d : ascii) :
  without_trailing_newline msg body →
  body = b0 +:+ String d EmptyString →
  plain d →
  starts_plain (fst (location frames h)) →
  strings.TrimSpace (decorate frames h msg) =
  fst (location frames h) +:+ ":" +:+ pretty (snd (location frames h)) +:+
  ": " +:+ label h +:+ indent_continuation body.
Proof.
  intros Hbody -> Hd Hfile.
  destruct (message_lines_spec msg) as (body' & Hbody' & Hlines).
  rewrite (without_trailing_newline_unique _ _ _ Hbody' Hbody) in Hlines.
  rewrite decorate_location, Hlines, write_lines_Split, indent_app.
  assert (indent_continuation (String d EmptyString) = String d EmptyString)
    as ->.
  { cbn [indent_continuation].
    destruct (Ascii.eqb_spec d newline) as [->|]; [|done].
    by destruct (plain_not_newline newline Hd). }
  destruct (starts_plain_head (fst (location frames h))
              (pretty (snd (location frames h)) +:+ ": " +:+ label h +:+
               indent_continuation b0) Hfile)
    as (c & mid & Hc & Hhead).
  replace (tab +:+
           (fst (location frames h) +:+ ":" +:+
            pretty (snd (location frames h)) +:+ ": " +:+ label h) +:+
           (indent_continuation b0 +:+ String d EmptyString) +:+ nl)
    with (tab +:+ (String c mid +:+ String d EmptyString) +:+ nl).
  - rewrite (TrimSpace_tab_newline c d mid Hc Hd).
    rewrite <- Hhead. by rewrite !app_assoc_s.
  - rewrite <- Hhead. by rewrite !app_assoc_s.
Qed.

(** A message that ends with a plain byte has no trailing newline to
    lose. *)
Lemma ends_plain_body (b0 : string) (d : ascii) :
  plain d →
  without_trailing_newline (b0 +:+ String d EmptyString)
    (b0 +:+ String d EmptyString).
Proof.
  intros Hd. right. split; [done|]. intros s0 Heq.
  apply app_snoc_inj in Heq as [_ ->]. by apply (plain_not_newline newline).
Qed.

(** ** What every call keeps *)

Lemma ready_inv (σ : world) (a c t : ptr) :
  ready σ a c t = true →
  ∃ h acc hc,
    Ts σ !! t = Some h ∧ context h = a ∧ test h = c ∧
    accumulators σ !! a = Some acc ∧ wf_slice σ (output acc) = true ∧
    tests σ !! c = Some hc.
Proof.
  unfold ready. destruct (Ts σ !! t) as [h|]; [|done].
  destruct (accumulators σ !! a) as [acc|];
    [|by rewrite andb_false_r].
  intros H. apply andb_prop in H as [H H4]. apply andb_prop in H as [H H3].
  apply andb_prop in H as [H1 H2].
  apply bool_decide_eq_true in H1, H3, H4. destruct H4 as [hc Hc].
  by exists h, acc, hc.
Qed.

Lemma ready_intro (σ : world) (a c t : ptr) (h : T) (acc : accumulator)
  (hc : testingT) :
  Ts σ !! t = Some h → context h = a → test h = c →
  accumulators σ !! a = Some acc → wf_slice σ (output acc) = true →
  tests σ !! c = Some hc →
  ready σ a c t = true.
Proof.
  intros Ht Ha Hc Hacc Hwf Hhc. unfold ready. rewrite Ht, Hacc, Hwf.
  rewrite (bool_decide_eq_true_2 _ Ha), (bool_decide_eq_true_2 _ Hc). simpl.
  apply bool_decide_eq_true_2. by exists hc.
Qed.

Lemma recorded_refl (σ : world) (a : ptr) (acc : accumulator) :
  accumulators σ !! a = Some acc → recorded σ σ a false [].
Proof.
  intros H. exists acc, acc. repeat split; try done. by rewrite app_nil_r.
Qed.

Lemma kept_refl (σ : world) (a : ptr) (acc : accumulator) :
  accumulators σ !! a = Some acc → wf_slice σ (output acc) = true →
  kept σ σ a.
Proof.
  intros H Hwf. split; [done|]. split; [done|].
  split; [|split; [|done]].
  - intros acc' H'. congruence.
  - intros b Hb. by split.
Qed.

Lemma recorded_trans (σ σ1 σ2 : world) (a : ptr) (b1 b2 : bool)
  (m1 m2 : list string) :
  recorded σ σ1 a b1 m1 → recorded σ1 σ2 a b2 m2 → b1 && b2 = false →
  recorded σ σ2 a (b1 || b2) (m1 ++ m2).
Proof.
  intros (acc & acc1 & H1 & H2 & H3 & H4) (acc1' & acc2 & G1 & G2 & G3 & G4) Hb.
  rewrite H2 in G1. injection G1 as <-.
  exists acc, acc2. split; [done|]. split; [done|]. split.
  - destruct b1, b2; simpl in *; try done; congruence.
  - by rewrite G4, H4, app_assoc.
Qed.

Lemma kept_trans (σ σ1 σ2 : world) (a : ptr) :
  kept σ σ1 a → kept σ1 σ2 a → kept σ σ2 a.
Proof.
  intros (H1 & H2 & H3 & H4 & H5) (G1 & G2 & G3 & G4 & G5).
  split; [congruence|]. split; [congruence|]. split; [done|]. split.
  - intros b Hb. destruct (H4 b Hb) as [E1 Hb1].
    destruct (G4 b Hb1) as [E2 Hb2]. split; [congruence|done].
  - intros b Hb. by rewrite G5, H5.
Qed.

Lemma inc_step (σ : world) (a : ptr) (acc : accumulator) :
  accumulators σ !! a = Some acc → wf_slice σ (output acc) = true →
  ∃ σ',
    incFailCount a σ = (Return (), σ') ∧
    recorded σ σ' a true [] ∧ kept σ σ' a ∧ tests σ' = tests σ.
Proof.
  intros Hacc Hwf. pose proof (lookup_lt_Some _ _ _ Hacc) as Hlt.
  eexists. split; [by apply incFailCount_run|]. simpl.
  split; [|split; [|done]].
  - eexists acc, _. split; [done|].
    split; [by apply list_lookup_insert_eq|]. simpl.
    split; [apply incremented_int_add|by rewrite app_nil_r].
  - split; [done|]. split; [done|]. split; [|split].
    + intros acc'. simpl. rewrite list_lookup_insert_eq by done.
      intros [= <-]. exact Hwf.
    + intros b [Hb Hlog]. split; [done|]. split; [done|].
      intros acc'. simpl. rewrite list_lookup_insert_eq by done.
      intros [= <-]. simpl. by apply Hlog.
    + intros b Hb. simpl. by apply list_lookup_insert_ne.
Qed.

Lemma host_step (fin : M unit) (o : outcome unit)
  (mark : testingT → testingT) (σ : world) (a c : ptr) (acc : accumulator)
  (hc : testingT) :
  host_call fin c o mark →
  accumulators σ !! a = Some acc → wf_slice σ (output acc) = true →
  tests σ !! c = Some hc →
  ∃ σ',
    fin σ = (o, σ') ∧ recorded σ σ' a false [] ∧ kept σ σ' a ∧
    tests σ' = <[c := mark hc]> (tests σ).
Proof.
  intros Hfin Hacc Hwf Hc.
  eexists. split; [by apply Hfin|]. simpl.
  split; [|split].
  - exists acc, acc. repeat split; try done. by rewrite app_nil_r.
  - split; [done|]. split; [simpl; by rewrite length_insert|].
    split; [|done]. intros acc' H'. simpl in H'. rewrite Hacc in H'.
    injection H' as <-. exact Hwf.
  - done.
Qed.

Section steps.
Context {any : Type} `{!GoEnv any} `{!GoReflect any}.

(** [checkNil] does not panic: it calls [IsNil] for the kinds that have
    it. *)
Lemma checkNil_defined (x : any) : is_Some (helper.checkNil x).
Proof.
  unfold helper.checkNil. destruct (is_nil x); [done|].
  destruct (KindOf x) eqn:Hkind; try done;
    apply IsNil_defined; rewrite Hkind;
    repeat (first [by left | right]).
Qed.

(** [append] writes to the backing array of its slice or to a new one,
    and to no other. *)
Lemma append_frame (σ σ' : world) (s s' : slice) (x : string) (b : ptr) :
  wf_slice σ s = true →
  append s x σ = (Return s', σ') →
  b < length (arrays σ) → cap s = 0 ∨ base s ≠ b →
  arrays σ' !! b = arrays σ !! b ∧ b < length (arrays σ') ∧
  (cap s' = 0 ∨ base s' ≠ b).
Proof.
  intros Hwf Hrun Hb Hs. unfold append in Hrun. case_decide as Hfull.
  - apply wf_slice_inv in Hwf as [Hle [Hcap|(arr & Harr & Hlen)]]; [lia|].
    rewrite run_bind, (get_array_run _ _ _ Harr) in Hrun.
    rewrite run_bind, (put_array_run _ _ _ _ Harr) in Hrun.
    injection Hrun as <- <-. simpl.
    destruct Hs as [Hs|Hs]; [lia|].
    rewrite list_lookup_insert_ne by done. rewrite length_insert.
    by repeat split; [|right].
  - rewrite run_bind, (elements_run _ _ Hwf) in Hrun.
    injection Hrun as <- <-. simpl.
    rewrite lookup_app_l by done. rewrite length_app. simpl.
    repeat split; [lia|]. right. lia.
Qed.

Lemma log_step (σ : world) (a : ptr) (acc : accumulator) (s : string) :
  accumulators σ !! a = Some acc → wf_slice σ (output acc) = true →
  ∃ σ',
    log a s σ = (Return (), σ') ∧
    recorded σ σ' a false [strings.TrimSpace s] ∧ kept σ σ' a ∧
    tests σ' = tests σ.
Proof.
  intros Hacc Hwf. pose proof (lookup_lt_Some _ _ _ Hacc) as Hlt.
  destruct (append_run σ (output acc) (strings.TrimSpace s) Hwf)
    as (σ1 & o & Happ & HT & HA & Ht & Hview & Hwf').
  eexists. split.
  { unfold log. rewrite run_bind, (get_accumulator_run _ _ _ Hacc).
    rewrite run_bind, Happ. rewrite <- HA in Hacc.
    by rewrite (put_accumulator_run _ _ _ _ Hacc). }
  simpl. split; [|split; [|done]].
  - eexists acc, _. split; [done|].
    split; [rewrite HA; by apply list_lookup_insert_eq|]. done.
  - split; [done|]. split; [by rewrite Ht|]. split; [|split].
    + intros acc'. simpl. rewrite HA, list_lookup_insert_eq by done.
      intros [= <-]. done.
    + intros b [Hb Hlog].
      destruct (append_frame σ σ1 (output acc) o (strings.TrimSpace s) b
                  Hwf Happ Hb (Hlog acc Hacc)) as (E & Hb' & Ho).
      split; [done|]. split; [done|].
      intros acc'. simpl. rewrite HA, list_lookup_insert_eq by done.
      intros [= <-]. done.
    + intros b Hb. simpl. rewrite HA. by apply list_lookup_insert_ne.
Qed.

(** The shapes of the methods, after the handle is read. *)
Lemma count_log_fin_step (fin : M unit) (o : outcome unit)
  (mark : testingT → testingT) (σ : world) (a c : ptr) (acc : accumulator)
  (hc : testingT) (msg : string) :
  host_call fin c o mark →
  accumulators σ !! a = Some acc → wf_slice σ (output acc) = true →
  tests σ !! c = Some hc →
  ∃ σ',
    (incFailCount a;; log a msg;; fin) σ = (o, σ') ∧
    recorded σ σ' a true [strings.TrimSpace msg] ∧ kept σ σ' a ∧
    tests σ' = <[c := mark hc]> (tests σ).
Proof.
  intros Hfin Hacc Hwf Hc.
  destruct (inc_step σ a acc Hacc Hwf) as (σ1 & E1 & R1 & K1 & T1).
  destruct R1 as (acc0 & acc1 & Hacc0 & Hacc1 & R1).
  pose proof (proj1 (proj2 (proj2 K1)) acc1 Hacc1) as Hwf1.
  destruct (log_step σ1 a acc1 msg Hacc1 Hwf1) as (σ2 & E2 & R2 & K2 & T2).
  destruct R2 as (acc1' & acc2 & Hacc1' & Hacc2 & R2).
  pose proof (proj1 (proj2 (proj2 K2)) acc2 Hacc2) as Hwf2.
  rewrite <- T1, <- T2 in Hc.
  destruct (host_step fin o mark σ2 a c acc2 hc Hfin Hacc2 Hwf2 Hc)
    as (σ3 & E3 & R3 & K3 & T3).
  exists σ3. split; [by rewrite run_bind, E1, run_bind, E2|].
  split; [|split].
  - apply (recorded_trans σ σ1 σ3 a true false [] [strings.TrimSpace msg]);
      [by exists acc0, acc1| |done].
    apply (recorded_trans σ1 σ2 σ3 a false false [strings.TrimSpace msg] []);
      [by exists acc1', acc2|done|done].
  - eapply kept_trans; [exact K1|]. eapply kept_trans; [exact K2|exact K3].
  - by rewrite T3, T2, T1.
Qed.

Lemma log_fin_step (fin : M unit) (o : outcome unit)
  (mark : testingT → testingT) (σ : world) (a c : ptr) (acc : accumulator)
  (hc : testingT) (msg : string) :
  host_call fin c o mark →
  accumulators σ !! a = Some acc → wf_slice σ (output acc) = true →
  tests σ !! c = Some hc →
  ∃ σ',
    (log a msg;; fin) σ = (o, σ') ∧
    recorded σ σ' a false [strings.TrimSpace msg] ∧ kept σ σ' a ∧
    tests σ' = <[c := mark hc]> (tests σ).
Proof.
  intros Hfin Hacc Hwf Hc.
  destruct (log_step σ a acc msg Hacc Hwf) as (σ2 & E2 & R2 & K2 & T2).
  destruct R2 as (acc1' & acc2 & Hacc1' & Hacc2 & R2).
  pose proof (proj1 (proj2 (proj2 K2)) acc2 Hacc2) as Hwf2.
  rewrite <- T2 in Hc.
  destruct (host_step fin o mark σ2 a c acc2 hc Hfin Hacc2 Hwf2 Hc)
    as (σ3 & E3 & R3 & K3 & T3).
  exists σ3. split; [by rewrite run_bind, E2|].
  split; [|split].
  - apply (recorded_trans σ σ2 σ3 a false false [strings.TrimSpace msg] []);
      [by exists acc1', acc2|done|done].
  - eapply kept_trans; [exact K2|exact K3].
  - by rewrite T3, T2.
Qed.

Lemma count_fin_step (fin : M unit) (o : outcome unit)
  (mark : testingT → testingT) (σ : world) (a c : ptr) (acc : accumulator)
  (hc : testingT) :
  host_call fin c o mark →
  accumulators σ !! a = Some acc → wf_slice σ (output acc) = true →
  tests σ !! c = Some hc →
  ∃ σ',
    (incFailCount a;; fin) σ = (o, σ') ∧
    recorded σ σ' a true [] ∧ kept σ σ' a ∧
    tests σ' = <[c := mark hc]> (tests σ).
Proof.
  intros Hfin Hacc Hwf Hc.
  destruct (inc_step σ a acc Hacc Hwf) as (σ1 & E1 & R1 & K1 & T1).
  destruct R1 as (acc0 & acc1 & Hacc0 & Hacc1 & R1).
  pose proof (proj1 (proj2 (proj2 K1)) acc1 Hacc1) as Hwf1.
  rewrite <- T1 in Hc.
  destruct (host_step fin o mark σ1 a c acc1 hc Hfin Hacc1 Hwf1 Hc)
    as (σ3 & E3 & R3 & K3 & T3).
  exists σ3. split; [by rewrite run_bind, E1|].
  split; [|split].
  - apply (recorded_trans σ σ1 σ3 a true false [] []);
      [by exists acc0, acc1|done|done].
  - eapply kept_trans; [exact K1|exact K3].
  - by rewrite T3, T1.
Qed.

(** Every call of the facade through a ready handle returns, or stops the
    goroutine when it is one that does; it counts a failure or not and
    leaves its entry, as [counts] and [entry] say; it marks the host's
    test as [marks] says; it keeps what [kept] lists. *)
Lemma perform_step (frames : callers) (σ : world) (a c t : ptr)
  (hc : testingT) (cl : call any) :
  ready σ a c t = true →
  tests σ !! c = Some hc →
  ∃ σ',
    perform frames t cl σ = ((if stops cl then Goexit else Return ()), σ') ∧
    recorded σ σ' a (counts cl) (entry σ (frames, t, cl)) ∧
    kept σ σ' a ∧
    tests σ' = <[c := marks cl hc]> (tests σ).
Proof.
  intros Hready Hc.
  destruct (ready_inv _ _ _ _ Hready)
    as (h & acc & hc' & Ht & Ha & Hh & Hacc & Hwf & Hc').
  rewrite Hc in Hc'. injection Hc' as <-. subst a c.
  unfold entry. rewrite Ht.
  assert (∀ cl' : call any, counts cl' = false → skips cl' = false →
            marks cl' hc = hc) as Hsame.
  { intros cl' H1 H2. unfold marks. rewrite H1, H2, !orb_false_r.
    by destruct hc. }
  assert (∀ cl' : call any, counts cl' = true → skips cl' = false →
            marks cl' hc = {| failed := true; skipped := skipped hc |})
    as Hfail.
  { intros cl' H1 H2. unfold marks.
    by rewrite H1, H2, orb_true_r, orb_false_r. }
  assert (∀ cl' : call any, counts cl' = false → skips cl' = true →
            marks cl' hc = {| failed := failed hc; skipped := true |})
    as Hskip.
  { intros cl' H1 H2. unfold marks.
    by rewrite H1, H2, orb_true_r, orb_false_r. }
  assert (∀ cl' : call any, counts cl' = false → skips cl' = false →
            ∃ σ', (mret () : M unit) σ = (Return (), σ') ∧
                  recorded σ σ' (context h) false [] ∧
                  kept σ σ' (context h) ∧
                  tests σ' = <[test h := marks cl' hc]> (tests σ))
    as Hnothing.
  { intros cl' H1 H2. exists σ. split; [done|].
    split; [by eapply recorded_refl|]. split; [by eapply kept_refl|].
    rewrite (Hsame _ H1 H2). symmetry. by apply list_insert_id. }
  assert (∀ (cl' : call any) (s : string),
            counts cl' = false → skips cl' = false →
            ∃ σ', log (context h) s σ = (Return (), σ') ∧
                  recorded σ σ' (context h) false [strings.TrimSpace s] ∧
                  kept σ σ' (context h) ∧
                  tests σ' = <[test h := marks cl' hc]> (tests σ))
    as Hlog.
  { intros cl' s H1 H2.
    destruct (log_step σ (context h) acc s Hacc Hwf)
      as (σ' & E & R & K & Ts').
    exists σ'. split; [done|]. split; [done|]. split; [done|].
    rewrite (Hsame _ H1 H2), Ts'. symmetry. by apply list_insert_id. }
  assert (∀ (cl' : call any) (s : string),
            counts cl' = true → skips cl' = false →
            ∃ σ', (h0 ← get_T t;
                   incFailCount (context h0);;
                   log (context h0) (decorate frames h0 s);;
                   testing.Fail (test h0)) σ = (Return (), σ') ∧
                  recorded σ σ' (context h) true
                    [strings.TrimSpace (decorate frames h s)] ∧
                  kept σ σ' (context h) ∧
                  tests σ' = <[test h := marks cl' hc]> (tests σ))
    as Hhelper.
  { intros cl' s H1 H2. rewrite run_bind, (get_T_run _ _ _ Ht).
    rewrite (Hfail _ H1 H2).
    by apply (count_log_fin_step _ _ _ σ _ _ acc hc _
                (host_Fail (test h))). }
  destruct cl as [cond|cond|got|got| | |args|format args|args|format args|
                  args|format args|args|format args|]; simpl.
  - destruct cond; simpl; [by apply (Hnothing (CallTrue true))|].
    unfold helper.True. simpl. rewrite run_bind, (get_T_run _ _ _ Ht).
    rewrite (Hfail (CallTrue false)) by done.
    by apply (count_log_fin_step _ _ _ σ _ _ acc hc _ (host_Fail (test h))).
  - destruct cond; simpl; [|by apply (Hnothing (CallFalse false))].
    unfold helper.False. rewrite run_bind, (get_T_run _ _ _ Ht).
    rewrite (Hfail (CallFalse true)) by done.
    by apply (count_log_fin_step _ _ _ σ _ _ acc hc _ (host_Fail (test h))).
  - unfold helper.Nil.
    destruct (checkNil_defined got) as [isnil Hnil].
    rewrite run_bind, Hnil. simpl. destruct isnil; simpl.
    + apply (Hnothing (CallNil got)); simpl; by rewrite ?Hnil.
    + apply (Hhelper (CallNil got)); simpl; by rewrite ?Hnil.
  - unfold helper.NotNil.
    destruct (checkNil_defined got) as [isnil Hnil].
    rewrite run_bind, Hnil. simpl. destruct isnil; simpl.
    + apply (Hhelper (CallNotNil got)); simpl; by rewrite ?Hnil.
    + apply (Hnothing (CallNotNil got)); simpl; by rewrite ?Hnil.
  - unfold Fail. rewrite run_bind, (get_T_run _ _ _ Ht).
    rewrite (Hfail CallFail) by done.
    by apply (count_fin_step _ _ _ σ _ _ acc hc (host_Fail (test h))).
  - unfold FailNow. rewrite run_bind, (get_T_run _ _ _ Ht).
    rewrite (Hfail CallFailNow) by done.
    by apply (count_fin_step _ _ _ σ _ _ acc hc (host_FailNow (test h))).
  - unfold Log. rewrite run_bind, (get_T_run _ _ _ Ht).
    by apply (Hlog (CallLog args)).
  - unfold Logf. rewrite run_bind, (get_T_run _ _ _ Ht).
    by apply (Hlog (CallLogf format args)).
  - unfold Error. rewrite run_bind, (get_T_run _ _ _ Ht).
    rewrite (Hfail (CallError args)) by done.
    by apply (count_log_fin_step _ _ _ σ _ _ acc hc _ (host_Fail (test h))).
  - unfold Errorf. rewrite run_bind, (get_T_run _ _ _ Ht).
    rewrite (Hfail (CallErrorf format args)) by done.
    by apply (count_log_fin_step _ _ _ σ _ _ acc hc _ (host_Fail (test h))).
  - unfold Fatal. rewrite run_bind, (get_T_run _ _ _ Ht).
    rewrite (Hfail (CallFatal args)) by done.
    by apply (count_log_fin_step _ _ _ σ _ _ acc hc _
                (host_FailNow (test h))).
  - unfold Fatalf. rewrite run_bind, (get_T_run _ _ _ Ht).
    rewrite (Hfail (CallFatalf format args)) by done.
    by apply (count_log_fin_step _ _ _ σ _ _ acc hc _
                (host_FailNow (test h))).
  - unfold Skip. rewrite run_bind, (get_T_run _ _ _ Ht).
    rewrite (Hskip (CallSkip args)) by done.
    by apply (log_fin_step _ _ _ σ _ _ acc hc _ (host_SkipNow (test h))).
  - unfold Skipf. rewrite run_bind, (get_T_run _ _ _ Ht).
    rewrite (Hskip (CallSkipf format args)) by done.
    by apply (log_fin_step _ _ _ σ _ _ acc hc _ (host_SkipNow (test h))).
  - unfold SkipNow. rewrite run_bind, (get_T_run _ _ _ Ht).
    rewrite (Hskip CallSkipNow) by done.
    by apply (host_step _ _ _ σ (context h) _ acc hc
                (host_SkipNow (test h))).
Qed.

End steps.

(** ** Sequences of calls *)

Lemma ready_kept (σ σ' : world) (a c t : ptr) (acc' : accumulator) :
  ready σ a c t = true → kept σ σ' a →
  accumulators σ' !! a = Some acc' →
  ready σ' a c t = true.
Proof.
  intros Hready (HT & Hlen & Hwf & _) Hacc'.
  destruct (ready_inv _ _ _ _ Hready)
    as (h & acc & hc & Ht & Ha & Hh & Hacc & _ & Hc).
  apply lookup_lt_Some in Hc. rewrite <- Hlen in Hc.
  apply lookup_lt_is_Some_2 in Hc as [hc' Hc'].
  apply (ready_intro σ' a c t h acc' hc'); try done.
  - by rewrite HT.
  - by apply Hwf.
Qed.

Lemma iter_in_range (n : nat) (k : Z) :
  (int_min ≤ k)%Z → (k + Z.of_nat n ≤ int_max)%Z →
  Nat.iter n (λ z, int_add z 1) k = (k + Z.of_nat n)%Z.
Proof.
  induction n as [|n IH]; intros Hlo Hhi; simpl; [lia|].
  rewrite IH by lia. rewrite int_add_in_range by lia. lia.
Qed.

Lemma unmarked (hc : testingT) :
  {| failed := failed hc || false; skipped := skipped hc || false |} = hc.
Proof. destruct hc. simpl. by rewrite !orb_false_r. Qed.

Section sequences.
Context {any : Type} `{!GoEnv any} `{!GoReflect any}.

Lemma entry_Ts (σ σ' : world) (x : callers * ptr * call any) :
  Ts σ' = Ts σ → entry σ' x = entry σ x.
Proof. intros H. destruct x as [[frames t] cl]. unfold entry. by rewrite H. Qed.

Lemma entries_Ts (σ σ' : world) (calls : list (callers * ptr * call any)) :
  Ts σ' = Ts σ → entries σ' calls = entries σ calls.
Proof.
  intros H. unfold entries. f_equal. apply map_ext. intros x.
  by apply entry_Ts.
Qed.

Lemma failures_cons (x : callers * ptr * call any)
  (calls : list (callers * ptr * call any)) :
  failures (x :: calls) =
  if counts (snd x) then S (failures calls) else failures calls.
Proof.
  unfold failures. rewrite filter_cons.
  destruct (counts x.2); by case_decide.
Qed.

(** A list of calls through ready handles of one accumulator and one host
    test runs up to its first call that stops the goroutine.  The log
    gains the entries of the calls made, in their order; the fail count is
    incremented once for each of them that counts; the host's test is
    marked as they mark it. *)
Lemma script_steps (calls : list (callers * ptr * call any)) :
  ∀ (σ : world) (a c : ptr) (acc : accumulator) (hc : testingT),
    Forall (λ x, ready σ a c (snd (fst x)) = true) calls →
    accumulators σ !! a = Some acc →
    wf_slice σ (output acc) = true →
    tests σ !! c = Some hc →
    ∃ σ' acc',
      script calls σ =
        ((if existsb (λ x, stops (snd x)) calls then Goexit else Return ()),
         σ') ∧
      accumulators σ' !! a = Some acc' ∧
      view σ' (output acc') = view σ (output acc) ++ entries σ (made calls) ∧
      failCount acc' =
        Nat.iter (failures (made calls)) (λ z, int_add z 1) (failCount acc) ∧
      kept σ σ' a ∧
      tests σ' =
        <[c := {| failed :=
                    failed hc || existsb (λ x, counts (snd x)) (made calls);
                  skipped :=
                    skipped hc || existsb (λ x, skips (snd x)) (made calls)
               |}]> (tests σ).
Proof.
  induction calls as [|[[frames t] cl] rest IH];
    intros σ a c acc hc Hready Hacc Hwf Hc.
  - exists σ, acc. simpl. split; [done|]. split; [done|].
    split; [by rewrite app_nil_r|]. split; [done|].
    split; [by eapply kept_refl|].
    rewrite unmarked. symmetry. by apply list_insert_id.
  - apply Forall_cons in Hready as [Hready1 Hready]. simpl in Hready1.
    destruct (perform_step frames σ a c t hc cl Hready1 Hc)
      as (σ1 & E1 & R1 & K1 & T1).
    destruct R1 as (acc0 & acc1 & Hacc0 & Hacc1 & Hcount & Hview).
    rewrite Hacc in Hacc0. injection Hacc0 as <-.
    assert (failCount acc1 =
            Nat.iter (if counts cl then 1 else 0) (λ z, int_add z 1)
              (failCount acc)) as Hcount1.
    { destruct (counts cl); simpl; [by destruct Hcount|done]. }
    cbn [script made existsb snd]. rewrite run_bind, E1.
    destruct (stops cl) eqn:Hstops; cbn [orb].
    + exists σ1, acc1. split; [done|]. split; [done|].
      split; [unfold entries; simpl; by rewrite app_nil_r|].
      split.
      { rewrite failures_cons. simpl. unfold failures. simpl.
        by destruct (counts cl). }
      split; [done|].
      rewrite T1. unfold marks. simpl. by rewrite !orb_false_r.
    + pose proof (proj1 (proj2 (proj2 K1)) acc1 Hacc1) as Hwf1.
      assert (tests σ1 !! c = Some (marks cl hc)) as Hc1.
      { rewrite T1. apply list_lookup_insert_eq. by eapply lookup_lt_Some. }
      assert (Forall (λ x, ready σ1 a c (snd (fst x)) = true) rest)
        as Hready'.
      { eapply Forall_impl; [exact Hready|]. intros x Hx.
        exact (ready_kept σ σ1 a c _ acc1 Hx K1 Hacc1). }
      destruct (IH σ1 a c acc1 (marks cl hc) Hready' Hacc1 Hwf1 Hc1)
        as (σ' & acc' & E & Hacc' & Hview' & Hcount' & K & T').
      exists σ', acc'. split; [done|]. split; [done|].
      split.
      { rewrite Hview', Hview, (entries_Ts σ σ1) by apply K1.
        unfold entries. simpl. by rewrite app_assoc. }
      split.
      { rewrite Hcount', Hcount1, failures_cons. cbn [snd].
        destruct (counts cl); [|reflexivity].
        symmetry. apply Nat.iter_succ_r. }
      split; [by eapply kept_trans|].
      rewrite T', T1, list_insert_insert_eq. unfold marks. simpl.
      by rewrite !orb_assoc.
Qed.

End sequences.

(** ** Reading the state: [Done], [FailCount], [Failed], [Skipped] *)

Lemma Done_run (σ : world) (t : ptr) (h : T) (acc : accumulator) :
  Ts σ !! t = Some h →
  accumulators σ !! context h = Some acc →
  wf_slice σ (output acc) = true →
  Done t σ =
  (Return (summary_line (caseName h) (failCount acc) +:+ nl +:+
           strings.Join (view σ (output acc)) nl),
   {| Ts := Ts σ; accumulators := accumulators σ;
      arrays := arrays σ ++ [view σ (output acc)]; tests := tests σ |}).
Proof.
  intros Ht Hacc Hwf.
  unfold Done. rewrite run_bind, (get_T_run _ _ _ Ht).
  rewrite run_bind. unfold summary at 1.
  rewrite run_bind, (getFailCount_run _ _ _ Hacc).
  assert (∀ σ0 : world,
    (if decide (failCount acc = 0%Z)
     then mret (caseName h +:+ ": all tests passed" +:+ nl)
     else if decide (failCount acc = 1%Z)
     then mret (caseName h +:+ ": " +:+ pretty (failCount acc) +:+
                " test failed" +:+ nl)
     else mret (caseName h +:+ ": " +:+ pretty (failCount acc) +:+
                " tests failed" +:+ nl) : M string) σ0 =
    (Return (summary_line (caseName h) (failCount acc) +:+ nl), σ0)) as ->.
  { intros σ0. unfold summary_line.
    repeat case_decide; rewrite run_ret, ?app_assoc_s; try done.
    replace (failCount acc) with 1%Z by done. done. }
  rewrite run_bind, (outputCopy_run _ _ _ Hacc Hwf).
  rewrite run_bind, elements_run.
  - rewrite run_ret. simpl. unfold view at 1. simpl.
    rewrite lookup_app_r by lia. rewrite Nat.sub_diag. simpl.
    rewrite take_ge; [by rewrite app_assoc_s|].
    unfold view. rewrite length_take. lia.
  - eapply wf_slice_intro; simpl; [done| |].
    + rewrite lookup_app_r by lia. by rewrite Nat.sub_diag.
    + unfold view. rewrite length_take.
      apply wf_slice_inv in Hwf as [Hle [Hcap|(arr & -> & Hlen)]];
        simpl; lia.
Qed.

Lemma Failed_run (σ : world) (t : ptr) (h : T) (hc : testingT) :
  Ts σ !! t = Some h → tests σ !! test h = Some hc →
  Failed t σ = (Return (failed hc), σ).
Proof.
  intros Ht Hc. unfold Failed. rewrite run_bind, (get_T_run _ _ _ Ht).
  unfold testing.Failed. rewrite run_bind. unfold get_test. by rewrite Hc.
Qed.

Lemma Skipped_run (σ : world) (t : ptr) (h : T) (hc : testingT) :
  Ts σ !! t = Some h → tests σ !! test h = Some hc →
  Skipped t σ = (Return (skipped hc), σ).
Proof.
  intros Ht Hc. unfold Skipped. rewrite run_bind, (get_T_run _ _ _ Ht).
  unfold testing.Skipped. rewrite run_bind. unfold get_test. by rewrite Hc.
Qed.

Lemma NewCase_run (σ : world) (c : ptr) (name : string) :
  NewCase c name σ =
  (Return (length (Ts σ)),
   {| Ts := Ts σ ++ [{| test := c; context := length (accumulators σ);
                        caseName := name; label := EmptyString;
                        callDepth := 1 |}];
      accumulators :=
        accumulators σ ++ [{| failCount := 0; output := nil_slice |}];
      arrays := arrays σ; tests := tests σ |}).
Proof. reflexivity. Qed.

Lemma plain_e : plain "e". Proof. solve_plain. Qed.
Lemma plain_l : plain "l". Proof. solve_plain. Qed.
Lemma plain_m : plain "m". Proof. solve_plain. Qed.

Section reports.
Context {any : Type} `{!GoEnv any} `{!GoReflect any}.

(** Every call that logs stores one entry: the file of the call site, a
    colon, its line, a colon and a space, the label of the handle, and the
    message, without the newline at its end and with a tab after each
    newline inside it.  This for a message that, without that newline, ends
    with a byte that is part of no white space, and a file name that does
    not start with one. *)
Theorem logged_entry_is_exact (frames : callers) (σ : world) (a c t : ptr)
  (h : T) (cl : call any) (msg body b0 : string) (d : ascii) :
  ready σ a c t = true →
  Ts σ !! t = Some h →
  message cl = Some msg →
  without_trailing_newline msg body →
  body = b0 +:+ String d EmptyString →
  plain d →
  starts_plain (fst (location frames h)) →
  ∃ σ',
    perform frames t cl σ = ((if stops cl then Goexit else Return ()), σ') ∧
    recorded σ σ' a (counts cl)
      [fst (location frames h) +:+ ":" +:+
       pretty (snd (location frames h)) +:+ ": " +:+ label h +:+
       indent_continuation body].
Proof.
  intros Hready Ht Hmsg Hbody Hb0 Hd Hfile.
  destruct (ready_inv _ _ _ _ Hready)
    as (h' & acc & hc & Ht' & _ & _ & _ & _ & Hc).
  destruct (perform_step frames σ a c t hc cl Hready Hc)
    as (σ' & E & R & _).
  exists σ'. split; [done|].
  unfold entry in R. rewrite Ht, Hmsg in R.
  by rewrite (trimmed_decorate frames h msg body b0 d) in R.
Qed.

(** Calls made one after the other through handles of one accumulator run
    up to the first that stops the goroutine.  The log then holds what it
    held and, after that, the entries of the calls made, in their order;
    the fail count has grown by the number of the calls made that count a
    failure (as long as that fits an [int]); the handles are as they
    were. *)
Theorem calls_in_sequence (calls : list (callers * ptr * call any))
  (σ : world) (a c : ptr) (acc : accumulator) (hc : testingT) :
  Forall (λ x, ready σ a c (snd (fst x)) = true) calls →
  accumulators σ !! a = Some acc →
  wf_slice σ (output acc) = true →
  tests σ !! c = Some hc →
  (int_min ≤ failCount acc)%Z →
  (failCount acc + Z.of_nat (failures (made calls)) ≤ int_max)%Z →
  ∃ σ' acc',
    script calls σ =
      ((if existsb (λ x, stops (snd x)) calls then Goexit else Return ()),
       σ') ∧
    accumulators σ' !! a = Some acc' ∧
    view σ' (output acc') = view σ (output acc) ++ entries σ (made calls) ∧
    failCount acc' =
      (failCount acc + Z.of_nat (failures (made calls)))%Z ∧
    wf_slice σ' (output acc') = true ∧
    Ts σ' = Ts σ.
Proof.
  intros Hready Hacc Hwf Hc Hlo Hhi.
  destruct (script_steps calls σ a c acc hc Hready Hacc Hwf Hc)
    as (σ' & acc' & E & Hacc' & Hview & Hcount & K & _).
  exists σ', acc'. split; [done|]. split; [done|]. split; [done|].
  split; [by rewrite Hcount, iter_in_range|].
  split; [by apply K|apply K].
Qed.

(** After such a sequence of calls, [FailCount], [Failed] and [Skipped],
    through any handle of the accumulator, return the count with the
    failures of the calls made added, and whether the host's test is failed
    or skipped: failed when it was or one of the calls made counts a
    failure, skipped when it was or one of them skips.  None of the three
    changes anything. *)
Theorem observers_after_calls (calls : list (callers * ptr * call any))
  (σ : world) (a c t : ptr) (h : T) (acc : accumulator) (hc : testingT) :
  Forall (λ x, ready σ a c (snd (fst x)) = true) calls →
  ready σ a c t = true →
  Ts σ !! t = Some h →
  accumulators σ !! a = Some acc →
  tests σ !! c = Some hc →
  (int_min ≤ failCount acc)%Z →
  (failCount acc + Z.of_nat (failures (made calls)) ≤ int_max)%Z →
  ∃ o σ',
    script calls σ = (o, σ') ∧
    FailCount h σ' =
      (Return (failCount acc + Z.of_nat (failures (made calls)))%Z, σ') ∧
    Failed t σ' =
      (Return (failed hc || existsb (λ x, counts (snd x)) (made calls)),
       σ') ∧
    Skipped t σ' =
      (Return (skipped hc || existsb (λ x, skips (snd x)) (made calls)),
       σ').
Proof.
  intros Hready Hreadyt Ht Hacc Hc Hlo Hhi.
  destruct (ready_inv _ _ _ _ Hreadyt)
    as (h' & acc0 & hc0 & Ht' & Ha & Hh & Hacc0 & Hwf & _).
  rewrite Ht in Ht'. injection Ht' as <-.
  rewrite Hacc in Hacc0. injection Hacc0 as <-.
  destruct (script_steps calls σ a c acc hc Hready Hacc Hwf Hc)
    as (σ' & acc' & E & Hacc' & Hview & Hcount & K & Htests).
  eexists _, σ'. split; [exact E|].
  assert (Ts σ' !! t = Some h) as Ht' by (by rewrite (proj1 K)).
  assert (tests σ' !! test h =
          Some {| failed :=
                    failed hc || existsb (λ x, counts (snd x)) (made calls);
                  skipped :=
                    skipped hc || existsb (λ x, skips (snd x)) (made calls)
               |}) as Hc'.
  { rewrite Hh, Htests. apply list_lookup_insert_eq.
    by eapply lookup_lt_Some. }
  split; [|split].
  - unfold FailCount. rewrite Ha.
    rewrite (getFailCount_run _ _ _ Hacc'), Hcount.
    by rewrite iter_in_range.
  - by rewrite (Failed_run _ _ _ _ Ht' Hc').
  - by rewrite (Skipped_run _ _ _ _ Ht' Hc').
Qed.

(** [Done] after such a sequence of calls, also one that [FailNow],
    [Fatal] or [Skip] has cut short: the summary line for the count with
    the failures of the calls made added, a newline, and the log with
    their entries after it, joined by newlines. *)
Theorem Done_after_calls (calls : list (callers * ptr * call any))
  (σ : world) (a c t : ptr) (h : T) (acc : accumulator) (hc : testingT) :
  Forall (λ x, ready σ a c (snd (fst x)) = true) calls →
  ready σ a c t = true →
  Ts σ !! t = Some h →
  accumulators σ !! a = Some acc →
  tests σ !! c = Some hc →
  (int_min ≤ failCount acc)%Z →
  (failCount acc + Z.of_nat (failures (made calls)) ≤ int_max)%Z →
  ∃ o σ' σ'',
    script calls σ = (o, σ') ∧
    Done t σ' =
      (Return
         (summary_line (caseName h)
            (failCount acc + Z.of_nat (failures (made calls))) +:+ nl +:+
          strings.Join (view σ (output acc) ++ entries σ (made calls)) nl),
       σ'').
Proof.
  intros Hready Hreadyt Ht Hacc Hc Hlo Hhi.
  destruct (ready_inv _ _ _ _ Hreadyt)
    as (h' & acc0 & hc0 & Ht' & Ha & Hh & Hacc0 & Hwf & _).
  rewrite Ht in Ht'. injection Ht' as <-.
  rewrite Hacc in Hacc0. injection Hacc0 as <-.
  destruct (script_steps calls σ a c acc hc Hready Hacc Hwf Hc)
    as (σ' & acc' & E & Hacc' & Hview & Hcount & K & Htests).
  eexists _, σ', _. split; [exact E|].
  assert (Ts σ' !! t = Some h) as Ht' by (by rewrite (proj1 K)).
  subst a.
  rewrite (Done_run σ' t h acc' Ht' Hacc'); [|by apply K].
  by rewrite Hview, Hcount, iter_in_range.
Qed.

(** A case from [NewCase] to [Done]: whatever calls are made through the
    new handle, [Done] returns the summary line for the number of them
    that count a failure, a newline, and their entries joined by
    newlines. *)
Theorem fresh_case_report (σ : world) (c : ptr) (name : string)
  (hc : testingT) :
  tests σ !! c = Some hc →
  ∃ t σ1,
    NewCase c name σ = (Return t, σ1) ∧
    Ts σ1 !! t =
      Some {| test := c; context := length (accumulators σ);
              caseName := name; label := EmptyString; callDepth := 1 |} ∧
    ∀ calls : list (callers * ptr * call any),
      Forall (λ x, snd (fst x) = t) calls →
      (Z.of_nat (failures (made calls)) ≤ int_max)%Z →
      ∃ o σ2 σ3,
        script calls σ1 = (o, σ2) ∧
        Done t σ2 =
          (Return
             (summary_line name (Z.of_nat (failures (made calls))) +:+
              nl +:+ strings.Join (entries σ1 (made calls)) nl),
           σ3).
Proof.
  intros Hc. eexists _, _. split; [apply NewCase_run|].
  set (h := {| test := c; context := length (accumulators σ);
               caseName := name; label := EmptyString; callDepth := 1 |}).
  set (acc := {| failCount := 0; output := nil_slice |}).
  set (σ1 := {| Ts := Ts σ ++ [h]; accumulators := accumulators σ ++ [acc];
                arrays := arrays σ; tests := tests σ |}).
  assert (Ts σ1 !! length (Ts σ) = Some h) as Ht.
  { simpl. rewrite lookup_app_r by lia. by rewrite Nat.sub_diag. }
  assert (accumulators σ1 !! length (accumulators σ) = Some acc) as Hacc.
  { simpl. rewrite lookup_app_r by lia. by rewrite Nat.sub_diag. }
  assert (ready σ1 (length (accumulators σ)) c (length (Ts σ)) = true)
    as Hready.
  { by apply (ready_intro σ1 _ _ _ h acc hc). }
  split; [exact Ht|].
  intros calls Hcalls Hmax.
  assert (Forall (λ x, ready σ1 (length (accumulators σ)) c
                         (snd (fst x)) = true) calls) as Hreadys.
  { eapply Forall_impl; [exact Hcalls|]. intros x ->. exact Hready. }
  destruct (script_steps calls σ1 _ c acc hc Hreadys Hacc eq_refl Hc)
    as (σ2 & acc2 & E & Hacc2 & Hview & Hcount & K & Htests).
  eexists _, σ2, _. split; [exact E|].
  assert (Ts σ2 !! length (Ts σ) = Some h) as Ht2 by (by rewrite (proj1 K)).
  rewrite (Done_run σ2 _ h acc2 Ht2 Hacc2); [|by apply K].
  rewrite Hview, Hcount. unfold int_min, int_max in *.
  rewrite iter_in_range by (unfold int_min, int_max; simpl; lia).
  done.
Qed.

End reports.

(** ** The nil helpers *)

Section nil_helpers.
Context {any : Type} `{!GoEnv any} `{!GoReflect any}.

(** Of [Nil] and [NotNil] on one operand, one changes nothing and the other
    records one failure, and neither panics.  [Nil] is the one that passes
    for the nil interface and for an operand of a kind with [IsNil] that is
    nil; [NotNil] passes for every operand of another kind.  The entry of
    the failure is the location, the label and "Expression was nil" for
    [NotNil], "Expression was not nil" for [Nil]. *)
Theorem Nil_and_NotNil_are_opposite (frames : callers) (σ : world)
  (a c t : ptr) (h : T) (got : any) :
  ready σ a c t = true →
  Ts σ !! t = Some h →
  starts_plain (fst (location frames h)) →
  ∃ (isnil : bool) σ',
    helper.checkNil got = Some isnil ∧
    (is_nil got = true → isnil = true) ∧
    (is_nil got = false →
     KindOf got ∉ [reflect.Chan; reflect.Func; reflect.Interface;
                   reflect.Map; reflect.Pointer; reflect.Slice] →
     isnil = false) ∧
    (is_nil got = false →
     KindOf got ∈ [reflect.Chan; reflect.Func; reflect.Interface;
                   reflect.Map; reflect.Pointer; reflect.Slice] →
     IsNil got = Some isnil) ∧
    helper.Nil frames t got σ = (Return (), if isnil then σ else σ') ∧
    helper.NotNil frames t got σ = (Return (), if isnil then σ' else σ) ∧
    recorded σ σ' a true
      [fst (location frames h) +:+ ":" +:+
       pretty (snd (location frames h)) +:+ ": " +:+ label h +:+
       (if isnil then "Expression was nil" else "Expression was not nil")] ∧
    marked_failed σ σ' c.
Proof.
  intros Hready Ht Hfile.
  destruct (ready_inv _ _ _ _ Hready)
    as (h' & acc & hc & Ht' & _ & _ & _ & _ & Hc).
  destruct (checkNil_defined got) as [isnil Hnil].
  assert (∀ cl : call any, counts cl = true → skips cl = false →
            marks cl hc = {| failed := true; skipped := skipped hc |})
    as Hfail.
  { intros cl H1 H2. unfold marks.
    by rewrite H1, H2, orb_true_r, orb_false_r. }
  assert (∀ σ' cl, tests σ' = <[c := marks cl hc]> (tests σ) →
            counts cl = true → skips cl = false → marked_failed σ σ' c)
    as Hmarked.
  { intros σ' cl Htests H1 H2. exists hc. split; [done|].
    rewrite Htests, (Hfail _ H1 H2). apply list_lookup_insert_eq.
    by eapply lookup_lt_Some. }
  destruct isnil.
  - destruct (perform_step frames σ a c t hc (CallNotNil got) Hready Hc)
      as (σ' & E & R & _ & Htests).
    simpl in E, R. unfold entry in R. simpl in R. rewrite Hnil in R.
    rewrite Ht in R. simpl in R.
    rewrite (trimmed_decorate frames h "Expression was nil"
               "Expression was nil" "Expression was ni" "l") in R;
      [|by apply (ends_plain_body "Expression was ni" "l"), plain_l
       |done|apply plain_l|done].
    exists true, σ'. split; [done|]. split; [done|].
    split.
    { intros Hn Hkind. revert Hnil. unfold helper.checkNil. rewrite Hn.
      destruct (KindOf got); try (by intros [=]); exfalso; apply Hkind;
        repeat (first [by left | right]). }
    split.
    { intros Hn Hkind. revert Hnil. unfold helper.checkNil. rewrite Hn.
      destruct (KindOf got); try done;
        repeat (apply elem_of_cons in Hkind as [Hkind|Hkind];
                [discriminate Hkind|]);
        by apply elem_of_nil in Hkind. }
    split; [unfold helper.Nil; by rewrite run_bind, Hnil|].
    split; [done|]. split; [done|].
    apply (Hmarked σ' (CallNotNil got)); simpl; by rewrite ?Hnil.
  - destruct (perform_step frames σ a c t hc (CallNil got) Hready Hc)
      as (σ' & E & R & _ & Htests).
    simpl in E, R. unfold entry in R. simpl in R. rewrite Hnil in R.
    rewrite Ht in R. simpl in R.
    rewrite (trimmed_decorate frames h "Expression was not nil"
               "Expression was not nil" "Expression was not ni" "l") in R;
      [|by apply (ends_plain_body "Expression was not ni" "l"), plain_l
       |done|apply plain_l|done].
    exists false, σ'. split; [done|].
    split.
    { intros Hn. revert Hnil. unfold helper.checkNil. by rewrite Hn. }
    split; [done|].
    split.
    { intros Hn Hkind. revert Hnil. unfold helper.checkNil. rewrite Hn.
      destruct (KindOf got); try done;
        repeat (apply elem_of_cons in Hkind as [Hkind|Hkind];
                [discriminate Hkind|]);
        by apply elem_of_nil in Hkind. }
    split; [done|].
    split; [unfold helper.NotNil; by rewrite run_bind, Hnil|].
    split; [done|].
    apply (Hmarked σ' (CallNil got)); simpl; by rewrite ?Hnil.
Qed.

End nil_helpers.

(** ** [New] and the name of the case *)

Lemma after_last_dot_none (s : string) :
  ¬ occurs "." s → after_last_dot s = None.
Proof.
  induction s as [|ch s IH]; intros Hdot; simpl; [done|].
  destruct (Ascii.eqb ch newline); [done|].
  rewrite IH by (intros H; apply Hdot; by right).
  destruct (Ascii.eqb_spec ch ".") as [->|]; [|done].
  destruct Hdot. by left.
Qed.

Lemma after_last_dot_spec (pre post : string) :
  ¬ occurs newline pre → ¬ occurs "." post →
  after_last_dot (pre +:+ "." +:+ post) = Some post.
Proof.
  intros Hnl Hdot. induction pre as [|ch pre IH].
  - change (EmptyString +:+ "." +:+ post) with (String "." post).
    cbn [after_last_dot]. rewrite (after_last_dot_none post Hdot).
    reflexivity.
  - rewrite app_cons. cbn [after_last_dot].
    destruct (Ascii.eqb_spec ch newline) as [->|_].
    + destruct Hnl. by left.
    + rewrite IH; [done|]. intros H. apply Hnl. by right.
Qed.

(** [New] names the case after the calling function: what follows the last
    "." of its name, "pkg.TestX" giving "TestX"; the whole name when it has
    no "."; and [Done] on the new handle, before any call, returns that
    name, ": all tests passed" and a newline. *)
Theorem New_names_the_case (σ : world) (c : ptr) (pkg fn : string) :
  ¬ occurs newline pkg →
  ¬ occurs "." fn →
  (∃ t σ1 σ2,
     New (Some (pkg +:+ "." +:+ fn)) c σ = (Return t, σ1) ∧
     Ts σ1 !! t =
       Some {| test := c; context := length (accumulators σ);
               caseName := fn; label := EmptyString; callDepth := 1 |} ∧
     Done t σ1 = (Return (fn +:+ ": all tests passed" +:+ nl), σ2)) ∧
  New (Some fn) c σ = NewCase c fn σ.
Proof.
  intros Hnl Hdot.
  assert (∀ σ0, New (Some (pkg +:+ "." +:+ fn)) c σ0 = NewCase c fn σ0)
    as Hnew.
  { intros σ0. unfold New, nameStripper.
    by rewrite (after_last_dot_spec pkg fn Hnl Hdot). }
  split.
  - eexists _, _, _. split; [rewrite Hnew; apply NewCase_run|].
    set (h := {| test := c; context := length (accumulators σ);
                 caseName := fn; label := EmptyString; callDepth := 1 |}).
    set (acc := {| failCount := 0; output := nil_slice |}).
    set (σ1 := {| Ts := Ts σ ++ [h];
                  accumulators := accumulators σ ++ [acc];
                  arrays := arrays σ; tests := tests σ |}).
    assert (Ts σ1 !! length (Ts σ) = Some h) as Ht.
    { simpl. rewrite lookup_app_r by lia. by rewrite Nat.sub_diag. }
    assert (accumulators σ1 !! context h = Some acc) as Hacc.
    { simpl. rewrite lookup_app_r by lia. by rewrite Nat.sub_diag. }
    split; [exact Ht|].
    rewrite (Done_run σ1 _ h acc Ht Hacc eq_refl).
    unfold summary_line, view. simpl. rewrite take_0. simpl.
    by rewrite app_empty_r, app_assoc_s.
  - unfold New, nameStripper. by rewrite (after_last_dot_none fn Hdot).
Qed.

(** ** Derived handles *)

Lemma wrap_add_l (x y : Z) : wrap (wrap x + y) = wrap (x + y).
Proof.
  unfold wrap. f_equal.
  replace ((x + 2 ^ 63) mod 2 ^ 64 - 2 ^ 63 + y + 2 ^ 63)%Z
    with ((x + 2 ^ 63) mod 2 ^ 64 + y)%Z by lia.
  rewrite Zplus_mod_idemp_l. f_equal. lia.
Qed.

Lemma wrap_add_r (x y : Z) : wrap (x + wrap y) = wrap (x + y).
Proof. by rewrite Z.add_comm, wrap_add_l, Z.add_comm. Qed.

Lemma int_add_assoc (x y z : Z) :
  int_add (int_add x y) z = int_add x (int_add y z).
Proof.
  unfold int_add. rewrite wrap_add_l, wrap_add_r. f_equal. lia.
Qed.

Lemma lookup_new {A : Type} (l : list A) (x : A) :
  (l ++ [x]) !! length l = Some x.
Proof. rewrite lookup_app_r by lia. by rewrite Nat.sub_diag. Qed.

Section derived.
Context {any : Type} `{!GoEnv any} `{!GoReflect any}.

(** A call through a handle that has just been derived, with the
    accumulator and the test of a ready handle. *)
Lemma derived_step (frames : callers) (σ : world) (a c t : ptr)
  (h hp : T) (acc : accumulator) (cl : call any) :
  ready σ a c t = true →
  Ts σ !! t = Some h →
  accumulators σ !! a = Some acc →
  context hp = context h → test hp = test h →
  (int_min ≤ failCount acc < int_max)%Z →
  ∃ σ2,
    perform frames (length (Ts σ)) cl
      {| Ts := Ts σ ++ [hp]; accumulators := accumulators σ;
         arrays := arrays σ; tests := tests σ |} =
      ((if stops cl then Goexit else Return ()), σ2) ∧
    recorded σ σ2 a (counts cl)
      (match message cl with
       | Some m => [strings.TrimSpace (decorate frames hp m)]
       | None => []
       end) ∧
    FailCount h σ2 =
      (Return (failCount acc + (if counts cl then 1 else 0))%Z, σ2).
Proof.
  intros Hready Ht Hacc Hctx Htest Hrange.
  destruct (ready_inv _ _ _ _ Hready)
    as (h' & acc0 & hc & Ht' & Ha & Hh & Hacc0 & Hwf & Hc).
  rewrite Ht in Ht'. injection Ht' as <-.
  rewrite Hacc in Hacc0. injection Hacc0 as <-.
  set (σ1 := {| Ts := Ts σ ++ [hp]; accumulators := accumulators σ;
                arrays := arrays σ; tests := tests σ |}).
  assert (Ts σ1 !! length (Ts σ) = Some hp) as Hp by apply lookup_new.
  assert (ready σ1 a c (length (Ts σ)) = true) as Hready1.
  { apply (ready_intro σ1 a c _ hp acc hc); try done; congruence. }
  destruct (perform_step frames σ1 a c (length (Ts σ)) hc cl Hready1 Hc)
    as (σ2 & E & R & K & _).
  exists σ2. split; [exact E|].
  unfold entry in R. unfold ptr in R. rewrite Hp in R.
  split.
  { destruct (message cl); exact R. }
  destruct R as (acc1 & acc2 & Hacc1 & Hacc2 & Hcount & _).
  change (accumulators σ !! a = Some acc1) in Hacc1.
  rewrite Hacc in Hacc1. injection Hacc1 as <-.
  unfold FailCount. rewrite Ha, (getFailCount_run _ _ _ Hacc2).
  destruct (counts cl).
  - destruct Hcount as [_ Hcount]. by rewrite Hcount.
  - by rewrite Hcount, Z.add_0_r.
Qed.

(** A call through a handle derived with [Label] or [Uplevel] neither
    panics nor is lost to the handle it was derived from: it is recorded
    in the accumulator of that handle, whose [FailCount] then counts it,
    and its entry is decorated with the label and the uplevel of the
    derived handle. *)
Theorem derived_handle_records_for_parent (frames : callers) (σ : world)
  (a c t : ptr) (h : T) (acc : accumulator) (s : list any) (depth : Z)
  (cl : call any) :
  ready σ a c t = true →
  Ts σ !! t = Some h →
  accumulators σ !! a = Some acc →
  (int_min ≤ failCount acc < int_max)%Z →
  (∃ p σ1 σ2 hp,
     via t (λ r, Label r s) σ = (Return p, σ1) ∧
     Ts σ1 !! p = Some hp ∧
     perform frames p cl σ1 =
       ((if stops cl then Goexit else Return ()), σ2) ∧
     recorded σ σ2 a (counts cl)
       (match message cl with
        | Some m => [strings.TrimSpace (decorate frames hp m)]
        | None => []
        end) ∧
     FailCount h σ2 =
       (Return (failCount acc + (if counts cl then 1 else 0))%Z, σ2)) ∧
  (∃ p σ1 σ2 hp,
     via t (λ r, Uplevel r depth) σ = (Return p, σ1) ∧
     Ts σ1 !! p = Some hp ∧
     perform frames p cl σ1 =
       ((if stops cl then Goexit else Return ()), σ2) ∧
     recorded σ σ2 a (counts cl)
       (match message cl with
        | Some m => [strings.TrimSpace (decorate frames hp m)]
        | None => []
        end) ∧
     FailCount h σ2 =
       (Return (failCount acc + (if counts cl then 1 else 0))%Z, σ2)).
Proof.
  intros Hready Ht Hacc Hrange. split.
  - set (hp := {| test := test h; context := context h;
                  caseName := caseName h;
                  label := strings.TrimSpace (fmt.Sprintln s) +:+ ": ";
                  callDepth := callDepth h |}).
    destruct (derived_step frames σ a c t h hp acc cl Hready Ht Hacc
                eq_refl eq_refl Hrange) as (σ2 & E & R & F).
    eexists _, _, σ2, hp. split; [by apply Label_run|].
    split; [apply lookup_new|]. done.
  - set (hp := {| test := test h; context := context h;
                  caseName := caseName h; label := label h;
                  callDepth := int_add (callDepth h) depth |}).
    destruct (derived_step frames σ a c t h hp acc cl Hready Ht Hacc
                eq_refl eq_refl Hrange) as (σ2 & E & R & F).
    eexists _, _, σ2, hp. split; [by apply Uplevel_run|].
    split; [apply lookup_new|]. done.
Qed.

(** Derivations compose.  [Uplevel] after [Uplevel] gives the handle that
    one [Uplevel] by the sum of the two depths gives (the sum as Go adds
    [int]s); [Label] after [Uplevel] gives the handle that [Uplevel] after
    [Label] gives. *)
Theorem derivations_compose (σ : world) (t : ptr) (h : T) (s : list any)
  (d1 d2 : Z) :
  Ts σ !! t = Some h →
  (∃ p σ1 q σ2 r σ3 hq,
     via t (λ x, Uplevel x d1) σ = (Return p, σ1) ∧
     via p (λ x, Uplevel x d2) σ1 = (Return q, σ2) ∧
     via t (λ x, Uplevel x (int_add d1 d2)) σ = (Return r, σ3) ∧
     Ts σ2 !! q = Some hq ∧ Ts σ3 !! r = Some hq) ∧
  (∃ p σ1 q σ2 p' σ1' q' σ2' hq,
     via t (λ x, Uplevel x d1) σ = (Return p, σ1) ∧
     via p (λ x, Label x s) σ1 = (Return q, σ2) ∧
     via t (λ x, Label x s) σ = (Return p', σ1') ∧
     via p' (λ x, Uplevel x d1) σ1' = (Return q', σ2') ∧
     Ts σ2 !! q = Some hq ∧ Ts σ2' !! q' = Some hq).
Proof.
  intros Ht. split.
  - eexists _, _, _, _, _, _, _.
    split; [by apply Uplevel_run|].
    split; [apply Uplevel_run; apply lookup_new|].
    split; [by apply Uplevel_run|].
    split; [apply lookup_new|].
    simpl. rewrite int_add_assoc. apply lookup_new.
  - eexists _, _, _, _, _, _, _, _, _.
    split; [by apply Uplevel_run|].
    split; [apply Label_run; apply lookup_new|].
    split; [by apply Label_run|].
    split; [apply Uplevel_run; apply lookup_new|].
    split; [apply lookup_new|]. apply lookup_new.
Qed.

(** ** A snapshot of the log *)

(** What [Output] has returned stays as it is: the calls made afterwards
    through handles of the accumulator write the log and not the slice
    returned, which holds the entries of the log as it was. *)
Theorem snapshot_is_stable (calls : list (callers * ptr * call any))
  (σ : world) (a c t : ptr) (h : T) (acc : accumulator) :
  Forall (λ x, ready σ a c (snd (fst x)) = true) calls →
  ready σ a c t = true →
  Ts σ !! t = Some h →
  accumulators σ !! a = Some acc →
  ∃ snapshot σ1 o σ2 acc2,
    Output h σ = (Return snapshot, σ1) ∧
    script calls σ1 = (o, σ2) ∧
    view σ2 snapshot = view σ (output acc) ∧
    accumulators σ2 !! a = Some acc2 ∧
    view σ2 (output acc2) = view σ (output acc) ++ entries σ (made calls).
Proof.
  intros Hready Hreadyt Ht Hacc.
  destruct (ready_inv _ _ _ _ Hreadyt)
    as (h' & acc0 & hc & Ht' & Ha & Hh & Hacc0 & Hwf & Hc).
  rewrite Ht in Ht'. injection Ht' as <-.
  rewrite Hacc in Hacc0. injection Hacc0 as <-. subst a.
  set (snapshot := {| base := length (arrays σ); len := len (output acc);
                      cap := len (output acc) |}).
  set (σ1 := {| Ts := Ts σ; accumulators := accumulators σ;
                arrays := arrays σ ++ [view σ (output acc)];
                tests := tests σ |}).
  destruct (view_more_arrays σ σ1 (output acc) [view σ (output acc)] Hwf
              eq_refl) as [Hview1 Hwf1].
  assert (Forall (λ x, ready σ1 (context h) c (snd (fst x)) = true) calls)
    as Hready1.
  { eapply Forall_impl; [exact Hready|]. intros x Hx.
    destruct (ready_inv _ _ _ _ Hx)
      as (hx & accx & hcx & Htx & Hax & Hhx & Haccx & _ & Hcx).
    by apply (ready_intro σ1 _ _ _ hx acc hc). }
  destruct (script_steps calls σ1 (context h) c acc hc Hready1 Hacc Hwf1 Hc)
    as (σ2 & acc2 & E & Hacc2 & Hview2 & _ & K & _).
  eexists snapshot, σ1, _, σ2, acc2.
  split; [unfold Output; by apply outputCopy_run|].
  split; [exact E|].
  assert (apart σ1 (context h) (length (arrays σ))) as Hapart.
  { split; [simpl; rewrite length_app; simpl; lia|].
    intros acc' Hacc'. change (accumulators σ !! context h = Some acc')
      in Hacc'. rewrite Hacc in Hacc'. injection Hacc' as <-.
    destruct (wf_slice_inv _ _ Hwf) as [_ [Hcap|(arr & Harr & _)]];
      [by left|right].
    apply lookup_lt_Some in Harr. lia. }
  destruct K as (_ & _ & _ & Hframe & _).
  destruct (Hframe _ Hapart) as [Harr _].
  split.
  { unfold view. simpl. rewrite Harr. simpl. rewrite lookup_new. simpl.
    rewrite take_ge; [done|]. unfold view. rewrite length_take. lia. }
  split; [done|].
  by rewrite Hview2, Hview1, (entries_Ts σ σ1).
Qed.

End derived.

(** ** Two cases *)

Section isolation.
Context {any : Type} `{!GoEnv any} `{!GoReflect any}.

(** The calls made through the handles of one case leave another case as
    it is: its accumulator, its log, and so what its [Done] returns.  The
    two logs are not written to one backing array, as is so of logs that
    only [log] has written. *)
Theorem cases_are_isolated (calls : list (callers * ptr * call any))
  (σ : world) (a b c tb : ptr) (hb : T) (acc accb : accumulator)
  (hc : testingT) :
  Forall (λ x, ready σ a c (snd (fst x)) = true) calls →
  accumulators σ !! a = Some acc →
  wf_slice σ (output acc) = true →
  tests σ !! c = Some hc →
  b ≠ a →
  Ts σ !! tb = Some hb →
  context hb = b →
  accumulators σ !! b = Some accb →
  wf_slice σ (output accb) = true →
  cap (output acc) = 0 ∨ cap (output accb) = 0 ∨
    base (output acc) ≠ base (output accb) →
  ∃ o σ' report σ0 σ0',
    script calls σ = (o, σ') ∧
    accumulators σ' !! b = Some accb ∧
    view σ' (output accb) = view σ (output accb) ∧
    Done tb σ = (Return report, σ0) ∧
    Done tb σ' = (Return report, σ0').
Proof.
  intros Hready Hacc Hwf Hc Hneq Htb Hctx Haccb Hwfb Hdisjoint.
  destruct (script_steps calls σ a c acc hc Hready Hacc Hwf Hc)
    as (σ' & acc' & E & _ & _ & _ & K & _).
  destruct K as (HT & _ & _ & Hframe & Hother).
  assert (accumulators σ' !! b = Some accb) as Haccb'
    by (by rewrite Hother).
  assert (view σ' (output accb) = view σ (output accb) ∧
          wf_slice σ' (output accb) = true) as [Hview Hwfb'].
  { destruct (wf_slice_inv _ _ Hwfb) as [Hle Harr].
    destruct (decide (cap (output accb) = 0)) as [Hcap|Hcap].
    - split.
      + unfold view. replace (len (output accb)) with 0 by lia.
        by rewrite !take_0.
      + unfold wf_slice. rewrite (bool_decide_eq_true_2 _ Hle).
        by rewrite (bool_decide_eq_true_2 _ Hcap).
    - destruct Harr as [Hcap'|(arr & Harr & Hlen)]; [done|].
      assert (apart σ a (base (output accb))) as Hapart.
      { split; [by eapply lookup_lt_Some|].
        intros acc0 Hacc0. rewrite Hacc in Hacc0. injection Hacc0 as <-.
        destruct Hdisjoint as [H0|[H0|H0]]; [by left|done|by right]. }
      destruct (Hframe _ Hapart) as [Harr' _]. rewrite Harr in Harr'.
      split.
      + unfold view. by rewrite Harr, Harr'.
      + by eapply wf_slice_intro. }
  subst b.
  eexists _, σ', _, _, _. split; [exact E|]. split; [done|].
  split; [done|].
  split; [by apply Done_run|].
  rewrite (Done_run σ' tb hb accb); [by rewrite Hview|by rewrite HT|done..].
Qed.

End isolation.

(** ** The boolean helpers *)

(** [True] on true and [False] on false change nothing, and do not read the
    handle.  [True] on false and [False] on true return after they have
    counted one failure, marked the host's test as failed and stored one
    entry: the location, the label and "Expression was not true", or
    "Expression was not false". *)
Theorem True_and_False (frames : callers) (σ : world) (a c t : ptr)
  (h : T) :
  ready σ a c t = true →
  Ts σ !! t = Some h →
  starts_plain (fst (location frames h)) →
  (∀ (σ0 : world) (t0 : ptr),
     helper.True frames t0 true σ0 = (Return (), σ0) ∧
     helper.False frames t0 false σ0 = (Return (), σ0)) ∧
  (∃ σ',
     helper.True frames t false σ = (Return (), σ') ∧
     recorded σ σ' a true
       [fst (location frames h) +:+ ":" +:+
        pretty (snd (location frames h)) +:+ ": " +:+ label h +:+
        "Expression was not true"] ∧
     marked_failed σ σ' c) ∧
  (∃ σ',
     helper.False frames t true σ = (Return (), σ') ∧
     recorded σ σ' a true
       [fst (location frames h) +:+ ":" +:+
        pretty (snd (location frames h)) +:+ ": " +:+ label h +:+
        "Expression was not false"] ∧
     marked_failed σ σ' c).
Proof.
  intros Hready Ht Hfile.
  destruct (ready_inv _ _ _ _ Hready)
    as (h' & acc & hc & Ht' & Ha & Hh & Hacc & Hwf & Hc).
  rewrite Ht in Ht'. injection Ht' as <-. subst a c.
  split; [done|]. split.
  - unfold helper.True. simpl. rewrite run_bind, (get_T_run _ _ _ Ht).
    destruct (count_log_fin_step _ _ _ σ _ _ acc hc
                (decorate frames h "Expression was not true")
                (host_Fail (test h)) Hacc Hwf Hc)
      as (σ' & E & R & _ & Htests).
    exists σ'. split; [exact E|]. split.
    + rewrite (trimmed_decorate frames h "Expression was not true"
                 "Expression was not true" "Expression was not tru" "e")
        in R; [done| |done|apply plain_e|done].
      by apply (ends_plain_body "Expression was not tru" "e"), plain_e.
    + exists hc. split; [done|]. rewrite Htests.
      apply list_lookup_insert_eq. by eapply lookup_lt_Some.
  - unfold helper.False. rewrite run_bind, (get_T_run _ _ _ Ht).
    destruct (count_log_fin_step _ _ _ σ _ _ acc hc
                (decorate frames h "Expression was not false")
                (host_Fail (test h)) Hacc Hwf Hc)
      as (σ' & E & R & _ & Htests).
    exists σ'. split; [exact E|]. split.
    + rewrite (trimmed_decorate frames h "Expression was not false"
                 "Expression was not false" "Expression was not fals" "e")
        in R; [done| |done|apply plain_e|done].
      by apply (ends_plain_body "Expression was not fals" "e"), plain_e.
    + exists hc. split; [done|]. rewrite Htests.
      apply list_lookup_insert_eq. by eapply lookup_lt_Some.
Qed.

(** ** Instances *)

Lemma sample_calls_ready :
  Forall (λ x, ready sample_world 0 0 (snd (fst x)) = true) sample_calls.
Proof. repeat constructor. Qed.

Lemma sample_calls_ready_failed :
  Forall (λ x, ready failed_world 0 0 (snd (fst x)) = true) sample_calls.
Proof. repeat constructor. Qed.

Lemma no_newline_in_package :
  ¬ occurs newline "github.com/xdg-go/testy".
Proof.
  unfold occurs. simpl. intros H.
  repeat (destruct H as [H|H]; [discriminate H|]). exact H.
Qed.

Lemma no_dot_in_TestFacade : ¬ occurs "." "TestFacade".
Proof.
  unfold occurs. simpl. intros H.
  repeat (destruct H as [H|H]; [discriminate H|]). exact H.
Qed.

Lemma logged_entry_is_exact_witness :
  ∃ σ',
    Error sample_frames 0 [StringV None "boom"] sample_world =
      (Return (), σ') ∧
    recorded sample_world σ' 0 true ["example_test.go:17: boom"].
Proof.
  exact (@logged_entry_is_exact value value_env value_reflect
           sample_frames sample_world 0 0 0 sample_handle
           (CallError [StringV None "boom"]) ("boom" +:+ nl) "boom" "boo"
           "m" eq_refl eq_refl eq_refl (or_introl eq_refl) eq_refl plain_m
           plain_e).
Defined.

Lemma calls_in_sequence_witness :
  ∃ σ' acc',
    script sample_calls sample_world = (Goexit, σ') ∧
    accumulators σ' !! 0 = Some acc' ∧
    view σ' (output acc') =
      [ "example_test.go:17: start";
        "example_test.go:17: Expression was not true";
        "example_test.go:17: Expression was nil";
        "example_test.go:17: boom" ] ∧
    failCount acc' = 3%Z ∧
    wf_slice σ' (output acc') = true ∧
    Ts σ' = Ts sample_world.
Proof.
  assert (int_min ≤ failCount sample_accumulator)%Z as Hlo
    by (by vm_compute).
  assert (failCount sample_accumulator +
          Z.of_nat (failures (made sample_calls)) ≤ int_max)%Z as Hhi
    by (by vm_compute).
  exact (@calls_in_sequence value value_env value_reflect sample_calls
           sample_world 0 0 sample_accumulator sample_test
           sample_calls_ready eq_refl eq_refl eq_refl Hlo Hhi).
Defined.

Lemma observers_after_calls_witness :
  ∃ o σ',
    script sample_calls sample_world = (o, σ') ∧
    FailCount sample_handle σ' = (Return 3%Z, σ') ∧
    Failed 0 σ' = (Return true, σ') ∧
    Skipped 0 σ' = (Return false, σ').
Proof.
  assert (int_min ≤ failCount sample_accumulator)%Z as Hlo
    by (by vm_compute).
  assert (failCount sample_accumulator +
          Z.of_nat (failures (made sample_calls)) ≤ int_max)%Z as Hhi
    by (by vm_compute).
  exact (@observers_after_calls value value_env value_reflect sample_calls
           sample_world 0 0 0 sample_handle sample_accumulator sample_test
           sample_calls_ready eq_refl eq_refl eq_refl eq_refl Hlo Hhi).
Defined.

Lemma Done_after_calls_witness :
  ∃ o σ' σ'',
    script sample_calls sample_world = (o, σ') ∧
    Done 0 σ' =
      (Return
         ("TestExample: 3 tests failed" +:+ nl +:+
          "example_test.go:17: start" +:+ nl +:+
          "example_test.go:17: Expression was not true" +:+ nl +:+
          "example_test.go:17: Expression was nil" +:+ nl +:+
          "example_test.go:17: boom"),
       σ'').
Proof.
  assert (int_min ≤ failCount sample_accumulator)%Z as Hlo
    by (by vm_compute).
  assert (failCount sample_accumulator +
          Z.of_nat (failures (made sample_calls)) ≤ int_max)%Z as Hhi
    by (by vm_compute).
  exact (@Done_after_calls value value_env value_reflect sample_calls
           sample_world 0 0 0 sample_handle sample_accumulator sample_test
           sample_calls_ready eq_refl eq_refl eq_refl eq_refl Hlo Hhi).
Defined.

Lemma fresh_case_report_witness :
  ∃ t σ1,
    NewCase 0 "TestOther" sample_world = (Return t, σ1) ∧
    Ts σ1 !! t =
      Some {| test := 0; context := 1; caseName := "TestOther";
              label := EmptyString; callDepth := 1 |} ∧
    ∀ calls : list (callers * ptr * call value),
      Forall (λ x, snd (fst x) = t) calls →
      (Z.of_nat (failures (made calls)) ≤ int_max)%Z →
      ∃ o σ2 σ3,
        script calls σ1 = (o, σ2) ∧
        Done t σ2 =
          (Return
             (summary_line "TestOther"
                (Z.of_nat (failures (made calls))) +:+
              nl +:+ strings.Join (entries σ1 (made calls)) nl),
           σ3).
Proof.
  exact (@fresh_case_report value value_env value_reflect sample_world 0
           "TestOther" sample_test eq_refl).
Defined.

Lemma Nil_and_NotNil_are_opposite_witness :
  ∃ (isnil : bool) σ',
    helper.checkNil NilV = Some isnil ∧
    (true = true → isnil = true) ∧
    (true = false →
     KindOf NilV ∉ [reflect.Chan; reflect.Func; reflect.Interface;
                    reflect.Map; reflect.Pointer; reflect.Slice] →
     isnil = false) ∧
    (true = false →
     KindOf NilV ∈ [reflect.Chan; reflect.Func; reflect.Interface;
                    reflect.Map; reflect.Pointer; reflect.Slice] →
     IsNil NilV = Some isnil) ∧
    helper.Nil sample_frames 0 NilV sample_world =
      (Return (), if isnil then sample_world else σ') ∧
    helper.NotNil sample_frames 0 NilV sample_world =
      (Return (), if isnil then σ' else sample_world) ∧
    recorded sample_world σ' 0 true
      ["example_test.go:17: " +:+
       (if isnil then "Expression was nil" else "Expression was not nil")] ∧
    marked_failed sample_world σ' 0.
Proof.
  exact (@Nil_and_NotNil_are_opposite value value_env value_reflect
           sample_frames sample_world 0 0 0 sample_handle NilV
           eq_refl eq_refl plain_e).
Defined.

Lemma New_names_the_case_witness :
  (∃ t σ1 σ2,
     New (Some "github.com/xdg-go/testy.TestFacade") 0 sample_world =
       (Return t, σ1) ∧
     Ts σ1 !! t =
       Some {| test := 0; context := 1; caseName := "TestFacade";
               label := EmptyString; callDepth := 1 |} ∧
     Done t σ1 = (Return ("TestFacade: all tests passed" +:+ nl), σ2)) ∧
  New (Some "TestFacade") 0 sample_world =
    NewCase 0 "TestFacade" sample_world.
Proof.
  exact (New_names_the_case sample_world 0 "github.com/xdg-go/testy"
           "TestFacade" no_newline_in_package no_dot_in_TestFacade).
Defined.

Lemma derived_handle_records_for_parent_witness :
  ∃ p σ1 σ2 hp,
    via 0 (λ r, Label r [StringV None "case 1"]) sample_world =
      (Return p, σ1) ∧
    Ts σ1 !! p = Some hp ∧
    perform sample_frames p (CallError [StringV None "boom"]) σ1 =
      (Return (), σ2) ∧
    recorded sample_world σ2 0 true
      [strings.TrimSpace (decorate sample_frames hp ("boom" +:+ nl))] ∧
    FailCount sample_handle σ2 = (Return 1%Z, σ2).
Proof.
  assert (int_min ≤ failCount sample_accumulator < int_max)%Z as Hrange
    by (by vm_compute).
  exact (proj1 (@derived_handle_records_for_parent value value_env
                  value_reflect sample_frames sample_world 0 0 0
                  sample_handle sample_accumulator
                  [StringV None "case 1"] 1%Z
                  (CallError [StringV None "boom"])
                  eq_refl eq_refl eq_refl Hrange)).
Defined.

Lemma derivations_compose_witness :
  ∃ p σ1 q σ2 r σ3 hq,
    via 0 (λ x, Uplevel x 1) sample_world = (Return p, σ1) ∧
    via p (λ x, Uplevel x 2) σ1 = (Return q, σ2) ∧
    via 0 (λ x, Uplevel x 3) sample_world = (Return r, σ3) ∧
    Ts σ2 !! q = Some hq ∧ Ts σ3 !! r = Some hq.
Proof.
  exact (proj1 (@derivations_compose value value_env sample_world 0
                  sample_handle [StringV None "case 1"] 1%Z 2%Z eq_refl)).
Defined.

Lemma snapshot_is_stable_witness :
  ∃ snapshot σ1 o σ2 acc2,
    Output sample_handle failed_world = (Return snapshot, σ1) ∧
    script sample_calls σ1 = (o, σ2) ∧
    view σ2 snapshot = ["example_test.go:17: boom"] ∧
    accumulators σ2 !! 0 = Some acc2 ∧
    view σ2 (output acc2) =
      [ "example_test.go:17: boom";
        "example_test.go:17: start";
        "example_test.go:17: Expression was not true";
        "example_test.go:17: Expression was nil";
        "example_test.go:17: boom" ].
Proof.
  exact (@snapshot_is_stable value value_env value_reflect sample_calls
           failed_world 0 0 0 sample_handle failed_accumulator
           sample_calls_ready_failed eq_refl eq_refl eq_refl).
Defined.

Lemma cases_are_isolated_witness :
  ∃ o σ' report σ0 σ0',
    script [(sample_frames, 1, CallError [StringV None "other"])]
      two_cases_world = (o, σ') ∧
    accumulators σ' !! 0 = Some failed_accumulator ∧
    view σ' (output failed_accumulator) =
      view two_cases_world (output failed_accumulator) ∧
    Done 0 two_cases_world = (Return report, σ0) ∧
    Done 0 σ' = (Return report, σ0').
Proof.
  assert (Forall (λ x : callers * ptr * call value,
                    ready two_cases_world 1 0 (snd (fst x)) = true)
            [(sample_frames, 1, CallError [StringV None "other"])])
    as Hready by (repeat constructor).
  assert (0 ≠ 1) as Hneq by discriminate.
  exact (@cases_are_isolated value value_env value_reflect
           [(sample_frames, 1, CallError [StringV None "other"])]
           two_cases_world 1 0 0 0 sample_handle sample_accumulator
           failed_accumulator {| failed := true; skipped := false |}
           Hready eq_refl eq_refl eq_refl Hneq eq_refl eq_refl eq_refl
           eq_refl (or_introl eq_refl)).
Defined.

Lemma True_and_False_witness :
  ∃ σ',
    helper.True sample_frames 0 false sample_world = (Return (), σ') ∧
    recorded sample_world σ' 0 true
      ["example_test.go:17: Expression was not true"] ∧
    marked_failed sample_world σ' 0.
Proof.
  exact (proj1 (proj2 (True_and_False sample_frames sample_world 0 0 0
                         sample_handle eq_refl eq_refl plain_e))).
Defined.
